(** * Modular rings Z_n and field variables: a model of [linear-algebra.ts]

    The development embeds the class [Z] (constructor, cached operation
    tables, inverse lookups, table accessors), the interface [Field] and the
    class [FVar] of [src/linear-algebra.ts], and proves the properties the
    specification states about them.

    Modelling conventions.
    - A JavaScript [number] is an integer ([JNum z]) or [NaN]; the values
      [undefined] and [null] are kept because the run-time guards of the
      source test for them.  Fractions, infinities, the sign of zero and the
      rounding above 2^53 are outside the model: the operands of the ring
      theorems are representatives and positions, far below that bound,
      and a theorem about arbitrary integers has the bound as a hypothesis
      ([exact_integer]).
    - [%] is the truncated remainder ([Z.rem]); a zero divisor gives [NaN].
    - The arrays that the source creates and later writes to or copies (the
      tables, their rows, the copies handed out) are objects of a heap, as
      are the [FVar] instances with their [_value].  A method is a
      computation in a state-and-exception monad over that heap, and a
      [throw] keeps whatever the heap has become by then.
    - The fields of a [Z] instance are assigned in the constructor only, so
      an instance is a record; its tables are references into the heap.
      The representatives ([_variables]) are held by value: the constructor
      and [operationTable] sort the array they are given in place, which
      the model renders as the instance holding the sorted list, and the
      test [Array.isArray] is discharged by the type.
    - The class [Z] is the module [Zn] here, [Z] being the integers; the
      field [multiply] of [_table] is [multiply_], next to the method
      [multiply].
    - [cloneDeep] (lodash), the renderer [Table] (package [table]) and
      [colors.bold] are not code of the repository: [cloneDeep] is modelled
      by what it does on arrays of arrays of numbers; of [Table] the model
      has the validation of the rows, which throws, while the text it
      renders and [colors.bold] are parameters.

    The counting functions of [src/descrete-math.ts] are embedded in the
    module [descrete_math], with the conventions stated there. *)

From stdpp Require Import gmap strings list fin_maps.
From Stdlib Require Import ZArith Zdivisibility Lia Sorted Factorial Qcanon.
From Equations Require Import Equations.

Local Open Scope Z_scope.

(** ** JavaScript values *)

Inductive jsval : Type :=
  | JNum (z : Z)
  | JNaN
  | JUndefined
  | JNull.

#[global] Instance jsval_eq_dec : EqDecision jsval.
Proof. solve_decision. Defined.

(** Two kinds of thrown values: [new Error(msg)], which the source throws
    itself, and the [TypeError] the engine raises on a property access of
    [undefined]. *)
Inductive exn : Type :=
  | Error (msg : string)
  | TypeError.

Inductive result (A : Type) : Type :=
  | Ok (a : A)
  | Throw (e : exn).
Arguments Ok {A} a.
Arguments Throw {A} e.

(** [ToNumber]: [None] stands for [NaN]. *)
Definition to_number (v : jsval) : option Z :=
  match v with
  | JNum z => Some z
  | JNull => Some 0
  | JNaN | JUndefined => None
  end.

Definition js_add (a b : jsval) : jsval :=
  match to_number a, to_number b with
  | Some x, Some y => JNum (x + y)
  | _, _ => JNaN
  end.

Definition js_mul (a b : jsval) : jsval :=
  match to_number a, to_number b with
  | Some x, Some y => JNum (x * y)
  | _, _ => JNaN
  end.

Definition js_rem (a n : jsval) : jsval :=
  match to_number a, to_number n with
  | Some x, Some y => if y =? 0 then JNaN else JNum (Z.rem x y)
  | _, _ => JNaN
  end.

(** [!v] *)
Definition js_not (v : jsval) : bool :=
  match v with
  | JNum z => z =? 0
  | JNaN | JUndefined | JNull => true
  end.

(** [a === b] *)
Definition strict_eq (a b : jsval) : bool :=
  match a, b with
  | JNum x, JNum y => x =? y
  | JUndefined, JUndefined => true
  | JNull, JNull => true
  | _, _ => false
  end.

(** [v == null] *)
Definition is_nullish (v : jsval) : bool :=
  match v with
  | JUndefined | JNull => true
  | _ => false
  end.

(** The guard [!v && v !== 0] that the source uses for "not provided". *)
Definition not_provided (v : jsval) : bool :=
  js_not v && negb (strict_eq v (JNum 0)).

(** ** The heap and the monad *)

Definition loc := nat.

(** An array element: a number (or [undefined]), a reference to another
    array, or a string (the headers that [formatTable] inserts). *)
Inductive cell : Type :=
  | CVal (v : jsval)
  | CRef (l : loc)
  | CStr (s : string).

Inductive obj : Type :=
  | OArray (cells : list cell)
  | OFVar (_value : jsval).

Abbreviation heap := (gmap loc obj).

Definition M (A : Type) : Type := heap -> result A * heap.

Definition ret {A} (a : A) : M A := fun h => (Ok a, h).

Definition throw {A} (e : exn) : M A := fun h => (Throw e, h).

Definition bind {A B} (c : M A) (k : A -> M B) : M B :=
  fun h =>
    match c h with
    | (Ok a, h') => k a h'
    | (Throw e, h') => (Throw e, h')
    end.

Declare Scope monad_scope.
Delimit Scope monad_scope with monad.
Notation "'let*' x ':=' c 'in' k" := (bind c (fun x => k))
  (at level 10, x name, c at level 200, k at level 200) : monad_scope.
Local Open Scope monad_scope.

Definition alloc (o : obj) : M loc :=
  fun h => let l := fresh (dom h) in (Ok l, <[l := o]> h).

Definition load (l : loc) : M (option obj) :=
  fun h => (Ok (h !! l), h).

Definition store (l : loc) (o : obj) : M unit :=
  fun h => (Ok tt, <[l := o]> h).

(** [n] runs of [c], results in order. *)
Fixpoint repeatM {A} (n : nat) (c : M A) : M (list A) :=
  match n with
  | O => ret []
  | S n' => let* a := c in let* r := repeatM n' c in ret (a :: r)
  end.

(** [for (let i = start; i < start + count; i++) body(i)] *)
Fixpoint for_range (start count : nat) (body : nat -> M unit) : M unit :=
  match count with
  | O => ret tt
  | S c => let* _ := body start in for_range (S start) c body
  end.

Fixpoint mapM {A B} (f : A -> M B) (l : list A) : M (list B) :=
  match l with
  | [] => ret []
  | x :: t => let* y := f x in let* r := mapM f t in ret (y :: r)
  end.

(** ** Array primitives *)

(** [arr[i]] read through a reference. *)
Definition array_get (l : loc) (i : Z) : M cell :=
  let* o := load l in
  match o with
  | Some (OArray cs) =>
      if i <? 0 then ret (CVal JUndefined)
      else ret (default (CVal JUndefined) (cs !! Z.to_nat i))
  | _ => throw TypeError
  end.

(** [arr[i] = v]; an index past the end extends the array. *)
Definition list_assign (cs : list cell) (i : nat) (v : cell) : list cell :=
  if (i <? length cs)%nat then <[i := v]> cs
  else cs ++ replicate (i - length cs) (CVal JUndefined) ++ [v].

Definition array_set (l : loc) (i : nat) (v : cell) : M unit :=
  let* o := load l in
  match o with
  | Some (OArray cs) => store l (OArray (list_assign cs i v))
  | _ => throw TypeError
  end.

(** The elements of an array, for the methods that iterate over it. *)
Definition array_cells (l : loc) : M (list cell) :=
  let* o := load l in
  match o with
  | Some (OArray cs) => ret cs
  | _ => throw TypeError
  end.

(** An array element used as an array: [c[i] = v], [c.findIndex(..)],
    [c.unshift(..)].  On anything but a reference the engine throws (the
    class bodies are strict code). *)
Definition deref (c : cell) : M loc :=
  match c with
  | CRef l => ret l
  | CVal _ | CStr _ => throw TypeError
  end.

(** [r === v] for an array element [r] and a number [v]. *)
Definition cell_strict_eq (c : cell) (v : jsval) : bool :=
  match c with
  | CVal x => strict_eq x v
  | CRef _ | CStr _ => false
  end.

(** [arr.unshift(v)] *)
Definition array_unshift (l : loc) (v : cell) : M unit :=
  let* o := load l in
  match o with
  | Some (OArray cs) => store l (OArray (v :: cs))
  | _ => throw TypeError
  end.

(** [cloneDeep] of lodash, which copies an array and, recursively, every
    array it refers to.  [depth] bounds the recursion; the tables are
    [number[][]], so depth 2 reaches every array of a table. *)
Fixpoint cloneDeep_at (depth : nat) (l : loc) : M loc :=
  match depth with
  | O => ret l
  | S d =>
      let* o := load l in
      match o with
      | Some (OArray cs) =>
          let* cs' := mapM (fun c =>
                              match c with
                              | CRef r =>
                                  let* r' := cloneDeep_at d r in ret (CRef r')
                              | CVal _ | CStr _ => ret c
                              end) cs in
          alloc (OArray cs')
      | Some (OFVar v) => alloc (OFVar v)
      | None => throw TypeError
      end
  end.

Definition cloneDeep (v : option loc) : M (option loc) :=
  match v with
  | Some l => let* l' := cloneDeep_at 2 l in ret (Some l')
  | None => ret None
  end.

(** [arr.findIndex(p)] on the elements, [-1] when none satisfies [p]. *)
Fixpoint findIndex {A} (p : A -> bool) (l : list A) : Z :=
  match l with
  | [] => -1
  | x :: t =>
      if p x then 0
      else let r := findIndex p t in if r =? -1 then -1 else 1 + r
  end.

(** [arr.includes(v)] and [arr.indexOf(v)] on an array of integers. *)
Definition includes (l : list Z) (v : jsval) : bool :=
  match v with
  | JNum z => existsb (Z.eqb z) l
  | _ => false
  end.

Definition indexOf (l : list Z) (v : jsval) : Z :=
  findIndex (fun x => strict_eq (JNum x) v) l.

(** [arr[i]] on an array of integers held by value. *)
Definition nth_number (l : list Z) (i : Z) : jsval :=
  if i <? 0 then JUndefined
  else match l !! Z.to_nat i with
       | Some z => JNum z
       | None => JUndefined
       end.

(** [arr.sort((a, b) => a - b)] *)
Fixpoint insert_asc (x : Z) (l : list Z) : list Z :=
  match l with
  | [] => [x]
  | y :: t => if x <=? y then x :: l else y :: insert_asc x t
  end.

Fixpoint sort_asc (l : list Z) : list Z :=
  match l with
  | [] => []
  | x :: t => insert_asc x (sort_asc t)
  end.

(** ** [utils] *)

Module utils.

(** [fillArray(size, {value, fn})]: [size] elements, each [fn()] when [fn]
    is given and [value] otherwise. *)
Definition fillArray (size : nat) (value : cell) (fn : option (M cell))
  : M loc :=
  let* cells := repeatM size (match fn with Some f => f | None => ret value end) in
  alloc (OArray cells).

(** [createIncreasingArray(from, to)]: [from, from + 1, ..., to]. *)
Definition createIncreasingArray (from to : Z) : list Z :=
  (fun k : nat => from + Z.of_nat k) <$> seq 0 (Z.to_nat (to - from + 1)).

End utils.

(** ** The interface [Field] *)

Module Field.

(** An implementation is a bundle of functions; they run in the monad, as
    those of a ring read its tables. *)
Record t : Type := {
  sum : jsval -> jsval -> M jsval;
  multiply : jsval -> jsval -> M jsval;
  f0 : jsval;
  f1 : jsval;
  getInverseVariable : jsval -> M jsval;
  getAdditiveInverseVariable : jsval -> M jsval;
}.

End Field.

(** ** The class [FVar] *)

Module FVar.

(** An instance: [_field] is assigned once, in the constructor; [_value]
    is the mutable part and lives in the heap object [self]. *)
Record t : Type := {
  _field : Field.t;
  self : loc;
}.

Definition msg_required : string := "`initialValue` and `field` are required.".
Definition msg_addition : string := "`addition` must be provided.".
Definition msg_subtrahend : string := "`subtrahend` must be provided.".
Definition msg_multiplier : string := "`multiplier` must be provided.".
Definition msg_divisor : string := "`divisor` must be provided and can't be f0.".

(** [this._value] *)
Definition get_value (this : t) : M jsval :=
  let* o := load (self this) in
  match o with
  | Some (OFVar v) => ret v
  | _ => throw TypeError
  end.

(** [this._value = v] *)
Definition set_value (this : t) (v : jsval) : M unit :=
  store (self this) (OFVar v).

(** [constructor(initialValue, field)] *)
Definition new (initialValue : jsval) (field : option Field.t) : M t :=
  match field with
  | Some f =>
      if is_nullish initialValue then throw (Error msg_required)
      else
        let* l := alloc (OFVar initialValue) in
        ret {| _field := f; self := l |}
  | None => throw (Error msg_required)
  end.

(** [setValueToF0()] and [setValueToF1()] *)
Definition setValueToF0 (this : t) : M t :=
  let* _ := set_value this (Field.f0 (_field this)) in
  ret this.

Definition setValueToF1 (this : t) : M t :=
  let* _ := set_value this (Field.f1 (_field this)) in
  ret this.

(** [sum(addition)]: [this._value = this._field.sum(this._value, addition)] *)
Definition sum (this : t) (addition : jsval) : M t :=
  if not_provided addition then throw (Error msg_addition)
  else
    let* v := get_value this in
    let* r := Field.sum (_field this) v addition in
    let* _ := set_value this r in
    ret this.

(** [subtract(subtrahend)]: the value is read, then the additive inverse is
    looked up, then the sum is assigned. *)
Definition subtract (this : t) (subtrahend : jsval) : M t :=
  if not_provided subtrahend then throw (Error msg_subtrahend)
  else
    let* v := get_value this in
    let* neg := Field.getAdditiveInverseVariable (_field this) subtrahend in
    let* r := Field.sum (_field this) v neg in
    let* _ := set_value this r in
    ret this.

(** [multiply(multiplier)] *)
Definition multiply (this : t) (multiplier : jsval) : M t :=
  if not_provided multiplier then throw (Error msg_multiplier)
  else
    let* v := get_value this in
    let* r := Field.multiply (_field this) v multiplier in
    let* _ := set_value this r in
    ret this.

(** [divide(divisor)]: the value is read, then the inverse is looked up,
    then the product is assigned. *)
Definition divide (this : t) (divisor : jsval) : M t :=
  if not_provided divisor || strict_eq divisor (Field.f0 (_field this)) then
    throw (Error msg_divisor)
  else
    let* v := get_value this in
    let* inv := Field.getInverseVariable (_field this) divisor in
    let* r := Field.multiply (_field this) v inv in
    let* _ := set_value this r in
    ret this.

(** [clone()]: [new FVar(this._value, this._field)] *)
Definition clone (this : t) : M t :=
  let* v := get_value this in
  new v (Some (_field this)).

(** [get value()] *)
Definition value (this : t) : M jsval := get_value this.

End FVar.

(** ** The class [Z] *)

Module Zn.

(** The type of [_table]: two optional references to tables. *)
Record table : Type := {
  addition : option loc;
  multiply_ : option loc;
}.

(** An instance.  The fields are assigned in the constructor only. *)
Record t : Type := {
  _table : table;
  _variables : list Z;
  _n : nat;
}.

Definition msg_variables : string :=
  "`variables` must be provided and be an array with at least 1 element".
Definition msg_operation : string :=
  "`operation` must be provided and be a function type".
Definition msg_variable_nonzero : string :=
  "`variable` must be provided and must not be equal to 0".
Definition msg_not_included : string :=
  "`variables` not include the provided `variable`".
Definition msg_variable : string := "`variable` must be provided".
Definition msg_table : string :=
  "`table` must be provided and be an array with at least 1 element".

(** [static sum = (n, a, b) => (a + b) % n] *)
Definition static_sum (n a b : jsval) : jsval := js_rem (js_add a b) n.

(** [static multiply = (n, a, b) => (a * b) % n] *)
Definition static_multiply (n a b : jsval) : jsval := js_rem (js_mul a b) n.

(** [sum = (a, b) => Z.sum(this._n, a, b)] *)
Definition sum (this : t) (a b : jsval) : jsval :=
  static_sum (JNum (Z.of_nat (_n this))) a b.

(** [multiply = (a, b) => Z.multiply(this._n, a, b)] *)
Definition multiply (this : t) (a b : jsval) : jsval :=
  static_multiply (JNum (Z.of_nat (_n this))) a b.

(** [static operationTable = (variables, operation) => ...] *)
Definition operationTable (variables : option (list Z))
    (operation : option (jsval -> jsval -> M jsval)) : M loc :=
  match variables with
  | None | Some [] => throw (Error msg_variables)
  | Some vs =>
      match operation with
      | None => throw (Error msg_operation)
      | Some op =>
          let n := length vs in
          let* matrix :=
            utils.fillArray n (CVal JUndefined)
              (Some (let* r := utils.fillArray n (CVal (JNum 0)) None in
                     ret (CRef r))) in
          (* variables.sort((a, b) => a - b) *)
          let _variables_sorted := sort_asc vs in
          let* _ :=
            for_range 0 n (fun i =>
              for_range i (n - i) (fun j =>
                let* mi := array_get matrix (Z.of_nat i) in
                let* mj := array_get matrix (Z.of_nat j) in
                let* v := op (JNum (Z.of_nat i)) (JNum (Z.of_nat j)) in
                let* rj := deref mj in
                let* _ := array_set rj i (CVal v) in
                let* ri := deref mi in
                array_set ri j (CVal v))) in
          ret matrix
      end
  end.

(** [constructor(variables)] *)
Definition new (variables : option (list Z)) : M t :=
  match variables with
  | None | Some [] => throw (Error msg_variables)
  | Some vs =>
      let this :=
        {| _table := {| addition := None; multiply_ := None |};
           _variables := sort_asc vs;
           _n := length (sort_asc vs) |} in
      let* add := operationTable (Some (_variables this))
               (Some (fun a b => ret (sum this a b))) in
      let* mul := operationTable (Some (_variables this))
               (Some (fun a b => ret (multiply this a b))) in
      ret {| _table := {| addition := Some add; multiply_ := Some mul |};
             _variables := _variables this;
             _n := _n this |}
  end.

(** [static createFromRange = (from, to) => new Z(createIncreasingArray(from, to))] *)
Definition createFromRange (from to : Z) : M t :=
  new (Some (utils.createIncreasingArray from to)).

(** [static createFromN = (n) => new Z(createIncreasingArray(0, n - 1))] *)
Definition createFromN (n : Z) : M t :=
  new (Some (utils.createIncreasingArray 0 (n - 1))).

(** The lookup shared by the two [find...] methods:
    [tbl ? tbl[varIndex].findIndex(r => r === target) : -1]. *)
Definition row_findIndex (tbl : option loc) (varIndex : Z) (target : jsval)
  : M Z :=
  match tbl with
  | Some m =>
      let* row := array_get m varIndex in
      let* r := deref row in
      let* cs := array_cells r in
      ret (findIndex (fun c => cell_strict_eq c target) cs)
  | None => ret (-1)
  end.

(** [findInverseVariable = (variable) => ...] *)
Definition findInverseVariable (this : t) (variable : jsval) : M jsval :=
  if js_not variable || strict_eq variable (JNum 0) then
    throw (Error msg_variable_nonzero)
  else if negb (includes (_variables this) variable) then
    throw (Error msg_not_included)
  else
    let varIndex := indexOf (_variables this) variable in
    let* inverseVarIndex :=
      row_findIndex (multiply_ (_table this)) varIndex (JNum 1) in
    ret (if inverseVarIndex =? -1 then JUndefined
         else nth_number (_variables this) inverseVarIndex).

(** [findAdditiveInverseVariable = (variable) => ...] *)
Definition findAdditiveInverseVariable (this : t) (variable : jsval)
  : M jsval :=
  if js_not variable && negb (strict_eq variable (JNum 0)) then
    throw (Error msg_variable)
  else if negb (includes (_variables this) variable) then
    throw (Error msg_not_included)
  else
    let varIndex := indexOf (_variables this) variable in
    let* additiveInverseVarIndex :=
      row_findIndex (addition (_table this)) varIndex (JNum 0) in
    ret (if additiveInverseVarIndex =? -1 then JUndefined
         else nth_number (_variables this) additiveInverseVarIndex).

(** [findAllInverseVariables]: pairs (variable, inverse). *)
Definition findAllInverseVariables (this : t) : M (list (Z * jsval)) :=
  mapM (fun variable =>
          let* inverse := findInverseVariable this (JNum variable) in
          ret (variable, inverse))
       (filter (fun item => item <> 0) (_variables this)).

(** [findAllAdditiveInverseVariables]: pairs (variable, additiveInverse). *)
Definition findAllAdditiveInverseVariables (this : t)
  : M (list (Z * jsval)) :=
  mapM (fun variable =>
          let* additiveInverse := findAdditiveInverseVariable this (JNum variable) in
          ret (variable, additiveInverse))
       (_variables this).

(** [get field()]: the object the constructor stores in [_field]; its
    functions are the instance's own arrow functions. *)
Definition field (this : t) : Field.t :=
  {| Field.sum := fun a b => ret (sum this a b);
     Field.multiply := fun a b => ret (multiply this a b);
     Field.f0 := JNum 0;
     Field.f1 := JNum 1;
     Field.getInverseVariable := findInverseVariable this;
     Field.getAdditiveInverseVariable := findAdditiveInverseVariable this |}.

(** [isField()]: not implemented in the source, returns [undefined]. *)
Definition isField (this : t) : M jsval := ret JUndefined.

(** [getFVar(initialValue)] *)
Definition getFVar (this : t) (initialValue : jsval) : M FVar.t :=
  FVar.new initialValue (Some (field this)).

(** What the table accessors return: the rendered string, or the copy. *)
Inductive table_view : Type :=
  | Formatted (s : string)
  | Raw (tbl : option loc).

(** The messages of the [Error]s with which the [table] package rejects
    the data it is given. *)
Definition msg_table_rows : string := "Table must define at least one row.".
Definition msg_table_columns : string :=
  "Table must define at least one column.".
Definition msg_table_cells : string :=
  "Table must have a consistent number of cells.".

Section Display.

(** The text that the [table] package renders for rows it accepts, and
    [colors.bold]; the two reversed Hebrew column titles of the summary. *)
Variable Table : list (list cell) -> string.
Variable bold : jsval -> string.
Variables title_additive title_inverse : string.

(** [Table(rows)]: the package validates the rows before it renders them.
    It throws an [Error] when there is no row, when the first row has no
    cell, and when a row has another number of cells than the first.  (Its
    last check, for control characters in a cell, passes on the cells that
    the source builds: numbers, [undefined], fixed titles and the output
    of [colors.bold], whose escape sequences the check allows.) *)
Definition call_Table (rows : list (list cell)) : M string :=
  match rows with
  | [] => throw (Error msg_table_rows)
  | first :: _ =>
      if (length first =? 0)%nat then throw (Error msg_table_columns)
      else if forallb (fun row => (length row =? length first)%nat) rows
      then ret (Table rows)
      else throw (Error msg_table_cells)
  end.

(** The rows of a nested array, as the renderer reads them. *)
Definition read_rows (tbl : loc) : M (list (list cell)) :=
  let* cs := array_cells tbl in
  mapM (fun c => let* r := deref c in array_cells r) cs.

(** [static formatTable(table, variables)] *)
Definition formatTable (tbl : option loc) (variables : option (list Z))
  : M string :=
  match tbl with
  | None => throw (Error msg_table)
  | Some tl =>
      let* o := load tl in
      match o with
      | Some (OArray (_ :: _)) =>
          match variables with
          | None | Some [] => throw (Error msg_variables)
          | Some vs =>
              let n := length vs in
              let* header := alloc (OArray (CStr EmptyString ::
                          ((fun item => CStr (bold (JNum item))) <$> vs))) in
              let* _ := array_unshift tl (CRef header) in
              let* _ :=
                for_range 1 n (fun i =>
                  let* row := array_get tl (Z.of_nat i) in
                  let* r := deref row in
                  array_unshift r
                    (CStr (bold (nth_number vs (Z.of_nat i - 1))))) in
              let* rows := read_rows tl in
              call_Table rows
          end
      | _ => throw (Error msg_table)
      end
  end.

(** [getAdditionTable(formatted = true)] *)
Definition getAdditionTable (this : t) (formatted : bool) : M table_view :=
  let* sumTable := cloneDeep (addition (_table this)) in
  if formatted then
    let* s := formatTable sumTable (Some (_variables this)) in
    ret (Formatted s)
  else ret (Raw sumTable).

(** [getMultiplyTable(formatted = true)] *)
Definition getMultiplyTable (this : t) (formatted : bool) : M table_view :=
  let* mulTable := cloneDeep (multiply_ (_table this)) in
  if formatted then
    let* s := formatTable mulTable (Some (_variables this)) in
    ret (Formatted s)
  else ret (Raw mulTable).

(** One entry of [getAllVariablesData]. *)
Record variable_data : Type := {
  variable : Z;
  additiveInverse : jsval;
  inverse : jsval;
}.

Inductive summary : Type :=
  | SummaryTable (s : string)
  | SummaryData (d : list variable_data).

(** [getAllVariablesData = (formatted = true) => ...] *)
Definition getAllVariablesData (this : t) (formatted : bool) : M summary :=
  let* variablesData :=
    mapM (fun variable =>
            let* additiveInverse :=
              findAdditiveInverseVariable this (JNum variable) in
            let* inverse :=
              (if decide (variable <> 0)
               then findInverseVariable this (JNum variable)
               else ret JUndefined) in
            ret {| variable := variable;
                   additiveInverse := additiveInverse;
                   inverse := inverse |})
         (_variables this) in
  if negb formatted then ret (SummaryData variablesData)
  else
    let* s := call_Table (
      [CStr "Number"; CStr title_additive; CStr title_inverse] ::
      ((fun d => [CVal (JNum (variable d)); CVal (additiveInverse d);
                  CVal (inverse d)]) <$> variablesData)) in
    ret (SummaryTable s).

End Display.

End Zn.

(** ** Observations on the heap *)

(** [tbl[i][j]] read off a heap, [None] when the path does not exist. *)
Definition table_entry (h : heap) (tbl : option loc) (i j : nat) : option cell :=
  match tbl with
  | Some m =>
      match h !! m with
      | Some (OArray cs) =>
          match cs !! i with
          | Some (CRef r) =>
              match h !! r with
              | Some (OArray row) => row !! j
              | _ => None
              end
          | _ => None
          end
      | _ => None
      end
  | None => None
  end.

(** The number of rows of a table. *)
Definition table_rows (h : heap) (tbl : option loc) : option nat :=
  match tbl with
  | Some m =>
      match h !! m with
      | Some (OArray cs) => Some (length cs)
      | _ => None
      end
  | None => None
  end.

(** The table that the loops of [operationTable] build from an operation on
    indices: entry [(i, j)] holds the operation at the smaller and the larger
    of the two indices. *)
Definition index_table (g : nat -> nat -> jsval) (n : nat)
  : list (list jsval) :=
  (fun i => (fun j => g (i `min` j)%nat (i `max` j)%nat) <$> seq 0 n) <$> seq 0 n.

(** [table_in h m rows T]: in [h], [m] is an array of references to the
    pairwise distinct arrays [rows], which hold the rows of [T]. *)
Definition table_in (h : heap) (m : loc) (rows : list loc)
    (T : list (list jsval)) : Prop :=
  h !! m = Some (OArray (CRef <$> rows)) /\
  NoDup rows /\
  (m ∉ rows) /\
  length rows = length T /\
  forall k r row, rows !! k = Some r -> T !! k = Some row ->
    h !! r = Some (OArray (CVal <$> row)).

(** [T[i][j] = v] on a matrix held by value. *)
Definition set2 (T : list (list jsval)) (i j : nat) (v : jsval)
  : list (list jsval) :=
  alter (fun row => <[j := v]> row) i T.

(** The operations of a ring on indices, as the constructor passes them. *)
Definition sum_idx (n : nat) (i j : nat) : jsval :=
  Zn.static_sum (JNum (Z.of_nat n)) (JNum (Z.of_nat i)) (JNum (Z.of_nat j)).

Definition multiply_idx (n : nat) (i j : nat) : jsval :=
  Zn.static_multiply (JNum (Z.of_nat n)) (JNum (Z.of_nat i)) (JNum (Z.of_nat j)).

(** The state of a ring after construction. *)
Definition ring_ok (h : heap) (z : Zn.t) : Prop :=
  exists la lm rowsA rowsM,
    Zn._table z = {| Zn.addition := Some la; Zn.multiply_ := Some lm |} /\
    Zn._n z = length (Zn._variables z) /\
    (0 < Zn._n z)%nat /\
    table_in h la rowsA (index_table (sum_idx (Zn._n z)) (Zn._n z)) /\
    table_in h lm rowsM (index_table (multiply_idx (Zn._n z)) (Zn._n z)).

(** [T[a][b]] on a matrix held by value. *)
Definition entry (T : list (list jsval)) (a b : nat) : option jsval :=
  match T !! a with
  | Some row => row !! b
  | None => None
  end.

(** An [n] by [n] matrix. *)
Definition dims (n : nat) (T : list (list jsval)) : Prop :=
  length T = n /\ forall k row, T !! k = Some row -> length row = n.

(** A computation that leaves the heap as it found it, whatever it returns
    or throws. *)
Definition readonly {A} (c : M A) : Prop := forall h, (c h).2 = h.

(** Row [k] of [index_table g n], and what the two lookups compute on it:
    the position of the first entry that is [target], then the
    representative at that position. *)
Definition index_row (g : nat -> nat -> jsval) (n k : nat) : list jsval :=
  (fun j => g (k `min` j)%nat (k `max` j)%nat) <$> seq 0 n.

Definition found_in_row (vars : list Z) (row : list jsval) (target : jsval)
  : jsval :=
  let r := findIndex (fun v => strict_eq v target) row in
  if r =? -1 then JUndefined else nth_number vars r.

(** [Z.createFromN(5).getFVar(2).divide(3).subtract(1).value] *)
Definition scenario_fromCount5 : M jsval :=
  let* z := Zn.createFromN 5 in
  let* x := Zn.getFVar z (JNum 2) in
  let* x := FVar.divide x (JNum 3) in
  let* x := FVar.subtract x (JNum 1) in
  FVar.value x.

(** A ring [createFromN(5)] and an element [getFVar(2)] of it, from the
    empty heap: the ring, the element's object and the heap. *)
Definition ring5_element : result (Zn.t * loc) * heap :=
  (let* z := Zn.createFromN 5 in
   let* x := Zn.getFVar z (JNum 2) in
   ret (z, FVar.self x)) ∅.

(** The reading of the division guard under which [divide(x)] throws an
    [Error] exactly when [x] is [undefined], [null] or the additive
    identity 0. *)
Definition divide_throws_iff_absent_or_zero (fv : FVar.t) (h : heap)
    (x : jsval) : Prop :=
  (exists msg h', FVar.divide fv x h = (Throw (Error msg), h')) <->
  (x = JUndefined \/ x = JNull \/ x = JNum 0).

(** ** The public operations as calls *)



Definition bound (z : Zn.t) (self : loc) : FVar.t :=
  {| FVar._field := Zn.field z; FVar.self := self |}.

Section Perform.

Variable Table : list (list cell) -> string.
Variable bold : jsval -> string.
Variables title_additive title_inverse : string.


End Perform.

(** [never_error c]: [c] throws no [Error] (it may throw a [TypeError]).
    [extends c]: [c] keeps every object of the heap it starts from.
    [atomic c]: when [c] throws an [Error], every object of the heap it
    started from is as it was. *)
Definition never_error {A} (c : M A) : Prop :=
  forall h msg h', c h <> (Throw (Error msg), h').

Definition extends {A} (c : M A) : Prop := forall h, h ⊆ (c h).2.

Definition atomic {A} (c : M A) : Prop :=
  forall h msg h', c h = (Throw (Error msg), h') -> h ⊆ h'.






(** ** What a consumer can do to a table it was handed *)

(** Writes through the reference [t] that a table accessor returned:
    [t[i][j] = v], [t[i] = [...row]] with a new array, [t[i].unshift(s)]
    and [t.length = 0]. *)
Inductive mutation : Type :=
  | SetEntry (i j : nat) (v : jsval)
  | SetRow (i : nat) (row : list jsval)
  | UnshiftEntry (i : nat) (s : string)
  | Truncate.

Definition mutate1 (t : loc) (mu : mutation) : M unit :=
  match mu with
  | SetEntry i j v =>
      let* c := array_get t (Z.of_nat i) in
      let* r := deref c in
      array_set r j (CVal v)
  | SetRow i row =>
      let* r := alloc (OArray (CVal <$> row)) in
      array_set t i (CRef r)
  | UnshiftEntry i s =>
      let* c := array_get t (Z.of_nat i) in
      let* r := deref c in
      array_unshift r (CStr s)
  | Truncate =>
      let* o := load t in
      match o with
      | Some (OArray _) => store t (OArray [])
      | _ => throw TypeError
      end
  end.

(** The heap after a sequence of such writes, each run whether or not an
    earlier one threw. *)
Definition mutate_all (t : loc) (mus : list mutation) (h : heap) : heap :=
  foldl (fun hk mu => (mutate1 t mu hk).2) h mus.

(** [owned h0 hk t]: [hk] keeps every object of [h0], and neither [t] nor
    an array that [t] refers to in [hk] is an object of [h0]. *)
Definition owned (h0 hk : heap) (t : loc) : Prop :=
  h0 ⊆ hk /\
  h0 !! t = None /\
  forall cs r, hk !! t = Some (OArray cs) -> CRef r ∈ cs -> h0 !! r = None.

(** [reads_entries_of z h h2]: in [h2], an unformatted read of either
    table returns a table with the entries that the cached table has in
    [h]. *)
Definition reads_entries_of (z : Zn.t) (h h2 : heap) : Prop :=
  forall (Table : list (list cell) -> string) (bold : jsval -> string),
    (exists t h3,
       Zn.getAdditionTable Table bold z false h2 = (Ok (Zn.Raw (Some t)), h3) /\
       forall i j, table_entry h3 (Some t) i j
                   = table_entry h (Zn.addition (Zn._table z)) i j) /\
    (exists t h3,
       Zn.getMultiplyTable Table bold z false h2 = (Ok (Zn.Raw (Some t)), h3) /\
       forall i j, table_entry h3 (Some t) i j
                   = table_entry h (Zn.multiply_ (Zn._table z)) i j).

(** [same_outcome z h h2 l op x]: the method [op] of the element at [l],
    called with [x], returns or throws the same in [h2] as in [h] and leaves
    the same value. *)
Definition same_outcome (z : Zn.t) (h h2 : heap) (l : loc)
    (op : FVar.t -> jsval -> M FVar.t) (x : jsval) : Prop :=
  (op (bound z l) x h2).1 = (op (bound z l) x h).1 /\
  (op (bound z l) x h2).2 !! l = (op (bound z l) x h).2 !! l.

(** [unaffected z h h2]: seen from the ring [z] and from the elements bound
    to it, the heap [h2] is the heap [h]: every object of [h] is in [h2],
    the entries of both tables are the same and are what a read returns,
    both lookups return the same, and each arithmetic method of an element
    of [h] has the same outcome and leaves the same value. *)
Definition unaffected (z : Zn.t) (h h2 : heap) : Prop :=
  h ⊆ h2 /\
  (forall i j,
     table_entry h2 (Zn.addition (Zn._table z)) i j
     = table_entry h (Zn.addition (Zn._table z)) i j) /\
  (forall i j,
     table_entry h2 (Zn.multiply_ (Zn._table z)) i j
     = table_entry h (Zn.multiply_ (Zn._table z)) i j) /\
  reads_entries_of z h h2 /\
  (forall x,
     (Zn.findInverseVariable z x h2).1 = (Zn.findInverseVariable z x h).1) /\
  (forall x,
     (Zn.findAdditiveInverseVariable z x h2).1
     = (Zn.findAdditiveInverseVariable z x h).1) /\
  (forall l v x, h !! l = Some (OFVar v) ->
     same_outcome z h h2 l FVar.sum x /\
     same_outcome z h h2 l FVar.subtract x /\
     same_outcome z h h2 l FVar.multiply x /\
     same_outcome z h h2 l FVar.divide x).

(** [preserves I c]: whatever [c] returns or throws, it takes a heap that
    satisfies [I] to one that does. *)
Definition preserves {A} (I : heap -> Prop) (c : M A) : Prop :=
  forall h, I h -> I (c h).2.

(** One iteration of the inner loop of [operationTable], on the matrix [m]:
    [matrix[i][j] = matrix[j][i] = operation(i, j)]. *)
Definition pair_body (m : loc) (op : jsval -> jsval -> M jsval) (i j : nat)
  : M unit :=
  let* mi := array_get m (Z.of_nat i) in
  let* mj := array_get m (Z.of_nat j) in
  let* v := op (JNum (Z.of_nat i)) (JNum (Z.of_nat j)) in
  let* rj := deref mj in
  let* _ := array_set rj i (CVal v) in
  let* ri := deref mi in
  array_set ri j (CVal v).

(** The operation [f] on two indices, the smaller first. *)
Definition on_indices (f : jsval -> jsval -> jsval) (a b : nat) : jsval :=
  f (JNum (Z.of_nat (a `min` b))) (JNum (Z.of_nat (a `max` b))).

(** The invariant of the loops of [operationTable]: the heap holds an [n] by
    [n] table whose entries in the region [P] are final, and nothing but the
    rows has changed since [h0]. *)
Definition table_inv (m : loc) (rows : list loc) (n : nat)
    (f : jsval -> jsval -> jsval) (h0 : heap)
    (P : nat -> nat -> Prop) (h : heap) : Prop :=
  exists T,
    table_in h m rows T /\ dims n T /\
    (forall a b, (a < n)%nat -> (b < n)%nat -> P a b ->
       entry T a b = Some (on_indices f a b)) /\
    (forall l, l ∉ rows -> h !! l = h0 !! l).

(** ** What [formatTable] renders *)

(** The rows that [formatTable] hands to the renderer for the variables
    [vs] and a table with the rows [T]: the header row, then each row of
    [T] behind its header column. *)
Definition formatted_rows (bold : jsval -> string) (vs : list Z)
    (T : list (list jsval)) : list (list cell) :=
  (CStr EmptyString :: ((fun item => CStr (bold (JNum item))) <$> vs)) ::
  zip_with (fun v row => CStr (bold (JNum v)) :: (CVal <$> row)) vs T.

(** Row [j] of the table while the header column is being added: the rows
    before [k] have theirs. *)
Definition titled_row (bold : jsval -> string) (vs : list Z) (k j : nat)
    (row : list jsval) : list cell :=
  if (j <? k)%nat then CStr (bold (nth_number vs (Z.of_nat j))) :: (CVal <$> row)
  else CVal <$> row.

(** The heap after [k] rounds of the loop of [formatTable] on the table
    [m] with the rows [rows] and the new header [hd], started in [h0]. *)
Definition format_inv (bold : jsval -> string) (vs : list Z)
    (m hd : loc) (rows : list loc) (T : list (list jsval)) (h0 : heap)
    (k : nat) (h : heap) : Prop :=
  h !! m = Some (OArray (CRef hd :: (CRef <$> rows))) /\
  h !! hd = Some (OArray (CStr EmptyString ::
                          ((fun item => CStr (bold (JNum item))) <$> vs))) /\
  (forall j r row, rows !! j = Some r -> T !! j = Some row ->
     h !! r = Some (OArray (titled_row bold vs k j row))) /\
  (forall l, l <> m -> l <> hd -> l ∉ rows -> h !! l = h0 !! l).

(** [fromCount_element n z l v h]: in [h], [z] is a constructed ring over
    [0, ..., n - 1] and [l] is an element with the value [v]. *)
Definition fromCount_element (n : Z) (z : Zn.t) (l : loc) (v : jsval)
    (h : heap) : Prop :=
  ring_ok h z /\
  Zn._variables z = utils.createIncreasingArray 0 (n - 1) /\
  Z.of_nat (Zn._n z) = n /\
  h !! l = Some (OFVar v).

(** ** The counting functions of [descrete-math.ts]

    The arguments are integers ([None] stands for [undefined]), each
    standing for the number of the engine with that value.  The engine
    computes on binary floating-point numbers: a sum or a product of
    integers is exact as long as it does not exceed 2^53 in absolute value,
    and a quotient of two such integers is exact when it is an integer.
    The model follows a call as long as its arithmetic is exact and stops
    where it is not: the outcome [None] says that the call has left the
    range of the model, and nothing about what it does there (it returns a
    rounded number or an infinity, or the recursion exhausts the stack).
    A function that throws has the outcome [Throw]; there is no state. *)

(** The integers up to which sums and products are exact. *)
Definition exact_integer (z : Z) : Prop := Z.abs z <= 2 ^ 53.

Module descrete_math.

Definition msg_negative : string := "Number must be >= 0".
Definition msg_n_k : string := "n and k must be provided".
Definition msg_n : string := "`n` must be provided".
Definition msg_sum_args : string := "`from`, `to` and `fn` must be provided".
Definition msg_sum_range : string := "`to` can't be greater than `from`".

(** Sequencing of calls that may throw. *)
Definition and_then {A B} (r : result A) (k : A -> result B) : result B :=
  match r with
  | Ok a => k a
  | Throw e => Throw e
  end.

(** What a call does, as far as the model follows it. *)
Definition outcome (A : Type) : Type := option (result A).

Definition returns {A} (a : A) : outcome A := Some (Ok a).

Definition throws {A} (msg : string) : outcome A := Some (Throw (Error msg)).

Definition and_next {A B} (r : outcome A) (k : A -> outcome B) : outcome B :=
  match r with
  | Some (Ok a) => k a
  | Some (Throw e) => Some (Throw e)
  | None => None
  end.

(** A sum or a product with the exact value [z]. *)
Definition exact (z : Z) : outcome Z :=
  if Z.abs z <=? 2 ^ 53 then returns z else None.

(** [a / b] for integers of the exact range. *)
Definition quotient (a b : Z) : outcome Z :=
  if (b =? 0) || negb (a mod b =? 0) then None else returns (a / b).

(** [factorial(num)] *)
Equations factorial (num : Z) : outcome Z by wf (Z.to_nat num) lt :=
  factorial num with Z_lt_dec num 0 := {
    | left _ => throws msg_negative
    | right _ with Z.eq_dec num 0, Z.eq_dec num 1, Z.eq_dec num 2 := {
        | left _, _, _ => returns 1
        | right _, left _, _ => returns 1
        | right _, right _, left _ => returns 2
        | right _, right _, right _ =>
            and_next (factorial (num - 1)) (fun r => exact (num * r)) } }.
Next Obligation. lia. Qed.

(** [binom(n, k)] *)
Definition binom (n k : option Z) : outcome Z :=
  match n, k with
  | Some n, Some k =>
      and_next (factorial n) (fun fn =>
      and_next (factorial k) (fun fk =>
      and_next (factorial (n - k)) (fun fnk =>
      and_next (exact (fk * fnk)) (fun d =>
      quotient fn d))))
  | _, _ => throws msg_n_k
  end.

(** [k.reduce((sum, value) => sum + factorial(value), 0)] *)
Fixpoint reduce_factorials (acc : Z) (k : list Z) : outcome Z :=
  match k with
  | [] => returns acc
  | value :: rest =>
      and_next (factorial value) (fun f =>
      and_next (exact (acc + f)) (fun s =>
      reduce_factorials s rest))
  end.

(** [P(n, ...k)]; with one element, [n - k] is [n] minus that element. *)
Definition P (n : option Z) (k : list Z) : outcome Z :=
  match n with
  | None => throws msg_n
  | Some n =>
      let k := if decide (length k = 0%nat) then [n] else k in
      match k with
      | [k0] =>
          and_next (factorial n) (fun fn =>
          and_next (factorial (n - k0)) (fun fnk =>
          quotient fn fnk))
      | _ =>
          and_next (factorial n) (fun fn =>
          and_next (reduce_factorials 0 k) (fun s =>
          quotient fn s))
      end
  end.

(** [D(n, k)] *)
Definition D (n k : option Z) : outcome Z :=
  match n, k with
  | Some n, Some k => binom (Some (n + k - 1)) (Some k)
  | _, _ => throws msg_n_k
  end.

(** The loop of [sum]: [for (let i = from; i <= to; i++) value += fn(i)],
    [count] rounds from [i].  The values of the callback are rational
    numbers, added exactly. *)
Fixpoint sum_loop (fn : Z -> result Qc) (count : nat) (i : Z) (value : Qc)
  : result Qc :=
  match count with
  | O => Ok value
  | S c => and_then (fn i) (fun v => sum_loop fn c (i + 1) (value + v)%Qc)
  end.

(** [sum(from, to, fn)] *)
Definition sum (from to : option Z) (fn : option (Z -> result Qc))
  : result Qc :=
  match from, to, fn with
  | Some from, Some to, Some fn =>
      if from >? to then Throw (Error msg_sum_range)
      else sum_loop fn (Z.to_nat (to - from + 1)) from 0%Qc
  | _, _, _ => Throw (Error msg_sum_args)
  end.

End descrete_math.

(** The binomial coefficient, by the rule of Pascal. *)
Fixpoint choose (n k : nat) : nat :=
  match n, k with
  | _, O => 1
  | O, S _ => 0
  | S n', S k' => choose n' k' + choose n' (S k')
  end.

(** [n!] computed on binary integers. *)
Fixpoint product_to (n : nat) : Z :=
  match n with
  | O => 1
  | S m => Z.of_nat n * product_to m
  end.

(** ** Reasoning about the monad *)

Lemma bind_ok {A B} (c : M A) (k : A -> M B) h a h' :
  c h = (Ok a, h') -> bind c k h = k a h'.
Proof. intros E. unfold bind. by rewrite E. Qed.

Lemma bind_throw {A B} (c : M A) (k : A -> M B) h e h' :
  c h = (Throw e, h') -> bind c k h = (Throw e, h').
Proof. intros E. unfold bind. by rewrite E. Qed.

Lemma bind_ret {A B} (a : A) (k : A -> M B) h : bind (ret a) k h = k a h.
Proof. reflexivity. Qed.

Lemma alloc_fresh (h : heap) : h !! fresh (dom h) = None.
Proof. apply not_elem_of_dom, is_fresh. Qed.

Lemma alloc_subseteq o (h : heap) : h ⊆ <[fresh (dom h) := o]> h.
Proof. apply insert_subseteq, alloc_fresh. Qed.

Lemma repeatM_ret {A} n (v : A) h : repeatM n (ret v) h = (Ok (replicate n v), h).
Proof.
  induction n as [|n IH]; [done|].
  cbn [repeatM]. unfold bind, ret in *. by rewrite IH.
Qed.

(** Allocation of the rows of the matrix: [n] fresh, pairwise distinct
    arrays, each holding [width] copies of [v]. *)
Lemma alloc_rows n width v (h : heap) :
  exists rows h',
    repeatM n (let* r := utils.fillArray width (CVal v) None in ret (CRef r)) h
      = (Ok (CRef <$> rows), h') /\
    length rows = n /\
    NoDup rows /\
    h ⊆ h' /\
    (forall r, r ∈ rows ->
       h !! r = None /\ h' !! r = Some (OArray (replicate width (CVal v)))) /\
    (forall l, l ∉ rows -> h' !! l = h !! l).
Proof.
  revert h. induction n as [|n IH]; intros h.
  - exists [], h. split_and!; try done.
    + apply NoDup_nil_2.
    + intros r Hr. by apply elem_of_nil in Hr.
  - set (o := OArray (replicate width (CVal v))).
    set (l := fresh (dom h)).
    destruct (IH (<[l := o]> h))
      as (rows & h' & Erun & Hlen & Hnd & Hsub & Hrows & Hfr).
    assert (Hl : h !! l = None) by apply alloc_fresh.
    assert (Hnotin : l ∉ rows).
    { intros Hin. destruct (Hrows l Hin) as [Hn _].
      by rewrite lookup_insert_eq in Hn. }
    exists (l :: rows), h'. split_and!.
    + cbn [repeatM]. unfold utils.fillArray at 1.
      unfold bind at 1. unfold bind at 1. unfold bind at 1.
      rewrite repeatM_ret. cbn [alloc ret].
      fold l. fold o. by rewrite (bind_ok _ _ _ _ _ Erun).
    + simpl. by rewrite Hlen.
    + by constructor.
    + etrans; [|exact Hsub]. by apply insert_subseteq.
    + intros r Hr. apply elem_of_cons in Hr as [->|Hin].
      * split; [done|]. rewrite Hfr by done. by rewrite lookup_insert_eq.
      * destruct (Hrows r Hin) as [Hn Hs]. split; [|done].
        destruct (decide (r = l)) as [->|Hne]; [done|].
        by rewrite lookup_insert_ne in Hn.
    + intros l' Hl'. apply not_elem_of_cons in Hl' as [Hne Hni].
      rewrite Hfr by done. by rewrite lookup_insert_ne.
Qed.

(** ** Loops *)

Lemma for_range_inv (I : nat -> heap -> Prop) body start count h :
  I start h ->
  (forall i h, (start <= i < start + count)%nat -> I i h ->
     exists h', body i h = (Ok tt, h') /\ I (S i) h') ->
  exists h', for_range start count body h = (Ok tt, h') /\
             I (start + count)%nat h'.
Proof.
  revert start h. induction count as [|c IH]; intros start h HI Hstep.
  - exists h. rewrite Nat.add_0_r. done.
  - destruct (Hstep start h) as (h1 & E1 & HI1); [lia|done|].
    destruct (IH (S start) h1 HI1) as (h2 & E2 & HI2).
    { intros i hi Hi. apply Hstep. lia. }
    exists h2. split.
    + cbn [for_range]. by rewrite (bind_ok _ _ _ _ _ E1).
    + by replace (start + S c)%nat with (S start + c)%nat by lia.
Qed.

(** ** Array reads and writes *)

Lemma array_get_ok (h : heap) l cs (i : nat) c :
  h !! l = Some (OArray cs) -> cs !! i = Some c ->
  array_get l (Z.of_nat i) h = (Ok c, h).
Proof.
  intros Hl Hc. unfold array_get, bind, load. rewrite Hl.
  destruct (Z.ltb_spec (Z.of_nat i) 0) as [?|_]; [lia|].
  by rewrite Nat2Z.id, Hc.
Qed.

Lemma array_set_ok (h : heap) l cs (i : nat) v :
  h !! l = Some (OArray cs) -> (i < length cs)%nat ->
  array_set l i v h = (Ok tt, <[l := OArray (<[i := v]> cs)]> h).
Proof.
  intros Hl Hi. unfold array_set, bind, load, store, list_assign. rewrite Hl.
  apply Nat.ltb_lt in Hi. by rewrite Hi.
Qed.

Lemma array_cells_ok (h : heap) l cs :
  h !! l = Some (OArray cs) -> array_cells l h = (Ok cs, h).
Proof. intros Hl. unfold array_cells, bind, load. by rewrite Hl. Qed.

(** ** Matrices held by value *)

Lemma entry_set2 n T i j v a b :
  dims n T -> (i < n)%nat -> (j < n)%nat ->
  entry (set2 T i j v) a b =
    if decide (a = i /\ b = j) then Some v else entry T a b.
Proof.
  intros [HT Hrow] Hi Hj. unfold entry, set2.
  destruct (decide (a = i)) as [->|Hne].
  - rewrite list_lookup_alter_eq.
    destruct (lookup_lt_is_Some_2 T i) as [row Hr]; [lia|].
    rewrite Hr. simpl. specialize (Hrow _ _ Hr).
    destruct (decide (b = j)) as [->|Hnb].
    + rewrite decide_True by done. apply list_lookup_insert_eq. lia.
    + rewrite decide_False by tauto. by apply list_lookup_insert_ne.
  - rewrite list_lookup_alter_ne by done.
    by rewrite decide_False by tauto.
Qed.

Lemma dims_set2 n T i j v : dims n T -> dims n (set2 T i j v).
Proof.
  intros [HT Hrow]. split.
  - unfold set2. by rewrite length_alter.
  - intros k row. unfold set2.
    destruct (decide (k = i)) as [->|Hne].
    + rewrite list_lookup_alter_eq.
      destruct (T !! i) as [r|] eqn:E; [|done].
      simpl. intros [= <-]. rewrite length_insert. eauto.
    + rewrite list_lookup_alter_ne by done. eauto.
Qed.

Lemma dims_replicate n v : dims n (replicate n (replicate n v)).
Proof.
  split; [apply length_replicate|].
  intros k row Hk. apply lookup_replicate in Hk as [-> _].
  apply length_replicate.
Qed.

Lemma entry_index_table g n a b :
  (a < n)%nat -> (b < n)%nat ->
  entry (index_table g n) a b = Some (g (a `min` b)%nat (a `max` b)%nat).
Proof.
  intros Ha Hb. unfold entry, index_table.
  rewrite list_lookup_fmap, lookup_seq_lt by done. simpl.
  by rewrite list_lookup_fmap, lookup_seq_lt by done.
Qed.

Lemma dims_index_table g n : dims n (index_table g n).
Proof.
  unfold index_table. split.
  - by rewrite length_fmap, length_seq.
  - intros k row. rewrite list_lookup_fmap.
    destruct (seq 0 n !! k); [|done]. simpl. intros [= <-].
    by rewrite length_fmap, length_seq.
Qed.

(** A matrix is determined by its entries. *)
Lemma dims_entry_eq n T1 T2 :
  dims n T1 -> dims n T2 ->
  (forall a b, (a < n)%nat -> (b < n)%nat -> entry T1 a b = entry T2 a b) ->
  T1 = T2.
Proof.
  intros [H1 R1] [H2 R2] He. apply list_eq. intros a.
  destruct (decide (a < n)%nat) as [Ha|Ha].
  - destruct (lookup_lt_is_Some_2 T1 a) as [r1 E1]; [lia|].
    destruct (lookup_lt_is_Some_2 T2 a) as [r2 E2]; [lia|].
    rewrite E1, E2. f_equal. apply list_eq. intros b.
    destruct (decide (b < n)%nat) as [Hb|Hb].
    + specialize (He a b Ha Hb). unfold entry in He. by rewrite E1, E2 in He.
    + rewrite !lookup_ge_None_2; [done| |].
      * rewrite (R2 _ _ E2). lia.
      * rewrite (R1 _ _ E1). lia.
  - rewrite !lookup_ge_None_2; [done|lia|lia].
Qed.

(** ** Tables in the heap *)

Lemma table_in_row h m rows T k r :
  table_in h m rows T -> rows !! k = Some r ->
  exists row, T !! k = Some row /\ h !! r = Some (OArray (CVal <$> row)).
Proof.
  intros (Hm & Hnd & Hni & Hlen & Hrows) Hr.
  destruct (lookup_lt_is_Some_2 T k) as [row Hrow].
  { rewrite <- Hlen. by eapply lookup_lt_Some. }
  exists row. eauto.
Qed.

Lemma table_in_update h m rows T k r row c v :
  table_in h m rows T -> rows !! k = Some r -> T !! k = Some row ->
  table_in (<[r := OArray (CVal <$> <[c := v]> row)]> h) m rows (set2 T k c v).
Proof.
  intros (Hm & Hnd & Hni & Hlen & Hrows) Hr Hrow.
  assert (Hmr : r <> m).
  { intros ->. apply Hni. by eapply list_elem_of_lookup_2. }
  split_and!; try done.
  - by rewrite lookup_insert_ne.
  - unfold set2. by rewrite length_alter.
  - intros k' r' row' Hr' Hrow'. unfold set2 in Hrow'.
    destruct (decide (k' = k)) as [->|Hne].
    + rewrite list_lookup_alter_eq, Hrow in Hrow'. simpl in Hrow'.
      injection Hrow' as <-. rewrite Hr in Hr'. injection Hr' as <-.
      by rewrite lookup_insert_eq.
    + rewrite list_lookup_alter_ne in Hrow' by done.
      assert (r' <> r).
      { intros ->. apply Hne. by eapply NoDup_lookup. }
      rewrite lookup_insert_ne by done. eauto.
Qed.

Lemma table_in_weaken h h' m rows T :
  table_in h m rows T -> h ⊆ h' -> table_in h' m rows T.
Proof.
  intros (Hm & Hnd & Hni & Hlen & Hrows) Hsub. split_and!; try done.
  - by eapply lookup_weaken.
  - intros k r row Hr Hrow. eapply lookup_weaken; eauto.
Qed.

(** A table is untouched by a write to a location that holds no array. *)
Lemma table_in_insert_other h m rows T l o :
  table_in h m rows T ->
  (forall cs, h !! l <> Some (OArray cs)) ->
  table_in (<[l := o]> h) m rows T.
Proof.
  intros (Hm & Hnd & Hni & Hlen & Hrows) Hl. split_and!; try done.
  - rewrite lookup_insert_ne; [done|]. intros ->. by eapply Hl.
  - intros k r row Hr Hrow. rewrite lookup_insert_ne; [eauto|].
    intros ->. eapply Hl. eauto.
Qed.

Lemma table_in_entry h m rows T i j :
  table_in h m rows T ->
  table_entry h (Some m) i j = CVal <$> entry T i j.
Proof.
  intros (Hm & Hnd & Hni & Hlen & Hrows). unfold table_entry, entry.
  rewrite Hm, list_lookup_fmap.
  destruct (rows !! i) as [r|] eqn:Hr; simpl.
  - destruct (lookup_lt_is_Some_2 T i) as [row Hrow].
    { rewrite <- Hlen. by eapply lookup_lt_Some. }
    rewrite Hrow, (Hrows _ _ _ Hr Hrow). by rewrite list_lookup_fmap.
  - rewrite (lookup_ge_None_2 T); [done|].
    rewrite <- Hlen. by apply lookup_ge_None_1.
Qed.

(** One iteration of the inner loop of [operationTable]. *)
Lemma fill_pair_ok h m rows T n op f (i j : nat) :
  (forall a b h, op a b h = (Ok (f a b), h)) ->
  table_in h m rows T -> dims n T -> (i < n)%nat -> (j < n)%nat ->
  let v := f (JNum (Z.of_nat i)) (JNum (Z.of_nat j)) in
  exists h',
    pair_body m op i j h = (Ok tt, h') /\
    table_in h' m rows (set2 (set2 T j i v) i j v) /\
    (forall l, l ∉ rows -> h' !! l = h !! l).
Proof.
  intros Hop Htab Hd Hi Hj v.
  pose proof Htab as (Hm & Hnd & Hni & Hlen & Hrows).
  destruct Hd as [HT Hrow].
  destruct (lookup_lt_is_Some_2 rows i) as [ri Hri]; [lia|].
  destruct (lookup_lt_is_Some_2 rows j) as [rj Hrj]; [lia|].
  destruct (table_in_row _ _ _ _ _ _ Htab Hrj) as (rowj & HTj & Hhj).
  pose proof (table_in_update _ _ _ _ _ _ _ i v Htab Hrj HTj) as Htab1.
  set (h1 := <[rj := OArray (CVal <$> <[i := v]> rowj)]> h) in *.
  destruct (table_in_row _ _ _ _ _ _ Htab1 Hri) as (rowi & HTi & Hhi).
  pose proof (table_in_update _ _ _ _ _ _ _ j v Htab1 Hri HTi) as Htab2.
  assert (Hdi : length rowi = n).
  { eapply (dims_set2 n T j i v); [by split|exact HTi]. }
  eexists. split_and!.
  - unfold pair_body.
    rewrite (bind_ok _ _ _ _ _
               (array_get_ok h m _ i (CRef ri) Hm ltac:(by rewrite list_lookup_fmap, Hri))).
    rewrite (bind_ok _ _ _ _ _
               (array_get_ok h m _ j (CRef rj) Hm ltac:(by rewrite list_lookup_fmap, Hrj))).
    rewrite (bind_ok _ _ _ _ _ (Hop _ _ h)).
    cbn [deref]. rewrite bind_ret.
    rewrite (bind_ok _ _ _ _ _ (array_set_ok h rj _ i (CVal v) Hhj
               ltac:(rewrite length_fmap, (Hrow _ _ HTj); lia))).
    rewrite bind_ret.
    rewrite <- list_fmap_insert. fold h1.
    fold v.
    rewrite (array_set_ok h1 ri _ j (CVal v) Hhi
               ltac:(rewrite length_fmap; lia)).
    rewrite <- list_fmap_insert. reflexivity.
  - exact Htab2.
  - intros l Hl.
    assert (l <> ri) by (intros ->; apply Hl; by eapply list_elem_of_lookup_2).
    assert (l <> rj) by (intros ->; apply Hl; by eapply list_elem_of_lookup_2).
    unfold h1. by rewrite !lookup_insert_ne.
Qed.

(** ** The loops of [operationTable] *)

Section OperationTableLoops.

Variables (m : loc) (rows : list loc) (n : nat).
Variables (op : jsval -> jsval -> M jsval) (f : jsval -> jsval -> jsval).
Variable h0 : heap.
Hypothesis Hop : forall a b h, op a b h = (Ok (f a b), h).

Lemma table_inv_mono (P P' : nat -> nat -> Prop) h :
  table_inv m rows n f h0 P h ->
  (forall a b, (a < n)%nat -> (b < n)%nat -> P' a b -> P a b) ->
  table_inv m rows n f h0 P' h.
Proof.
  intros (T & Ht & Hd & He & Hf) Himp. exists T. split_and!; eauto.
Qed.

Lemma table_inv_step (P : nat -> nat -> Prop) h (i j : nat) :
  table_inv m rows n f h0 P h -> (i <= j)%nat -> (j < n)%nat ->
  exists h', pair_body m op i j h = (Ok tt, h') /\
    table_inv m rows n f h0
      (fun a b => P a b \/ (a = i /\ b = j) \/ (a = j /\ b = i)) h'.
Proof.
  intros (T & Ht & Hd & He & Hf) Hij Hj.
  destruct (fill_pair_ok h m rows T n op f i j Hop Ht Hd)
    as (h' & E & Ht' & Hf'); [lia|lia|].
  exists h'. split; [exact E|].
  eexists. split_and!; [exact Ht'| | |].
  - by do 2 apply dims_set2.
  - intros a b Ha Hb HP.
    rewrite (entry_set2 n) by (try apply dims_set2; done || lia).
    rewrite (entry_set2 n) by (done || lia).
    unfold on_indices.
    repeat case_decide.
    + destruct_and!; subst. by rewrite Nat.min_l, Nat.max_r by lia.
    + destruct_and!; subst. by rewrite Nat.min_r, Nat.max_l by lia.
    + apply He; [done..|]. tauto.
  - intros l Hl. rewrite Hf' by done. by apply Hf.
Qed.

(** The inner loop completes row and column [i]. *)
Lemma inner_loop_ok h (i : nat) :
  (i < n)%nat ->
  table_inv m rows n f h0 (fun a b => (a `min` b < i)%nat) h ->
  exists h', for_range i (n - i) (pair_body m op i) h = (Ok tt, h') /\
    table_inv m rows n f h0 (fun a b => (a `min` b < S i)%nat) h'.
Proof.
  intros Hi Hinv.
  destruct (for_range_inv
    (fun j => table_inv m rows n f h0
                (fun a b => (a `min` b < i)%nat \/
                            ((a `min` b)%nat = i /\ (a `max` b < j)%nat)))
    (pair_body m op i) i (n - i) h) as (h' & E & Hinv').
  - eapply table_inv_mono; [exact Hinv|].
    intros a b _ _ [?|[? ?]]; [done|lia].
  - intros j hj Hj Hinvj.
    destruct (table_inv_step _ hj i j Hinvj) as (h' & E & Hinv'); [lia|lia|].
    exists h'. split; [exact E|].
    eapply table_inv_mono; [exact Hinv'|]. intros a b _ _ HP. simpl. lia.
  - exists h'. split; [exact E|].
    eapply table_inv_mono; [exact Hinv'|]. intros a b Ha Hb HP. simpl. lia.
Qed.

(** The outer loop fills the whole table. *)
Lemma outer_loop_ok h :
  table_inv m rows n f h0 (fun _ _ => False) h ->
  exists h',
    for_range 0 n (fun i => for_range i (n - i) (pair_body m op i)) h
      = (Ok tt, h') /\
    table_in h' m rows
      (index_table (fun a b => f (JNum (Z.of_nat a)) (JNum (Z.of_nat b))) n) /\
    (forall l, l ∉ rows -> h' !! l = h0 !! l).
Proof.
  intros Hinv.
  destruct (for_range_inv
    (fun i => table_inv m rows n f h0 (fun a b => (a `min` b < i)%nat))
    (fun i => for_range i (n - i) (pair_body m op i)) 0 n h)
    as (h' & E & Hinv').
  - eapply table_inv_mono; [exact Hinv|]. intros a b _ _ HP. lia.
  - intros i hi Hi Hinvi. apply inner_loop_ok; [lia|done].
  - exists h'. split; [exact E|].
    destruct Hinv' as (T & Ht & Hd & He & Hf). split; [|done].
    match goal with |- table_in _ _ _ ?T' => replace T' with T end; [done|].
    apply (dims_entry_eq n); [done|apply dims_index_table|].
    intros a b Ha Hb. rewrite entry_index_table by done.
    apply He; [done..|]. simpl. lia.
Qed.

End OperationTableLoops.

(** What [operationTable] does for an operation without effects: it returns
    a fresh table, filled as [index_table] says, and leaves every object of
    the initial heap as it was. *)
Lemma operationTable_spec vs op f (h : heap) :
  vs <> [] ->
  (forall a b h, op a b h = (Ok (f a b), h)) ->
  exists m rows h',
    Zn.operationTable (Some vs) (Some op) h = (Ok m, h') /\
    h ⊆ h' /\
    h !! m = None /\
    table_in h' m rows
      (index_table (fun i j => f (JNum (Z.of_nat i)) (JNum (Z.of_nat j)))
                   (length vs)).
Proof.
  intros Hvs Hop. set (n := length vs).
  destruct (alloc_rows n n (JNum 0) h)
    as (rows & h1 & Erows & Hlen & Hnd & Hsub & Hrows & Hfr).
  set (m := fresh (dom h1)).
  set (h2 := <[m := OArray (CRef <$> rows)]> h1).
  assert (Hm1 : h1 !! m = None) by apply alloc_fresh.
  assert (Hmrows : m ∉ rows).
  { intros Hin. destruct (Hrows m Hin) as [_ Hs]. congruence. }
  assert (Hinit : table_in h2 m rows (replicate n (replicate n (JNum 0)))).
  { split_and!; try done.
    - unfold h2. by rewrite lookup_insert_eq.
    - by rewrite length_replicate.
    - intros k r row Hr Hrow. apply lookup_replicate in Hrow as [-> _].
      assert (r ∈ rows) as Hin by (by eapply list_elem_of_lookup_2).
      assert (r <> m) by (intros ->; done).
      unfold h2. rewrite lookup_insert_ne by done.
      destruct (Hrows r Hin) as [_ ->]. by rewrite fmap_replicate. }
  destruct (outer_loop_ok m rows n op f h2 Hop h2)
    as (h' & Eloop & Htab & Hframe).
  { exists (replicate n (replicate n (JNum 0))). split_and!; try done.
    apply dims_replicate. }
  unfold pair_body in Eloop.
  exists m, rows, h'. split_and!.
  - destruct vs as [|v0 vt]; [done|].
    unfold Zn.operationTable. fold n.
    assert (Efill : utils.fillArray n (CVal JUndefined)
              (Some (let* r := utils.fillArray n (CVal (JNum 0)) None in
                     ret (CRef r))) h = (Ok m, h2)).
    { unfold utils.fillArray at 1. by rewrite (bind_ok _ _ _ _ _ Erows). }
    rewrite (bind_ok _ _ _ _ _ Efill). cbv zeta.
    by rewrite (bind_ok _ _ _ _ _ Eloop).
  - apply map_subseteq_spec. intros l o Hl.
    assert (l ∉ rows).
    { intros Hin. destruct (Hrows l Hin) as [Hn _]. congruence. }
    assert (l <> m).
    { intros ->. rewrite Hfr in Hm1 by done. congruence. }
    rewrite Hframe by done. unfold h2. rewrite lookup_insert_ne by done.
    by rewrite Hfr.
  - rewrite <- (Hfr m) by done. exact Hm1.
  - exact Htab.
Qed.

(** ** Sorting and the increasing array *)

Lemma length_insert_asc x l : length (insert_asc x l) = S (length l).
Proof.
  induction l as [|y t IH]; [done|].
  simpl. destruct (x <=? y); simpl; by rewrite ?IH.
Qed.

Lemma length_sort_asc l : length (sort_asc l) = length l.
Proof.
  induction l as [|x t IH]; [done|].
  simpl. by rewrite length_insert_asc, IH.
Qed.

Lemma sort_asc_nonempty l : l <> [] -> sort_asc l <> [].
Proof.
  intros Hl Hs. apply (f_equal length) in Hs.
  rewrite length_sort_asc in Hs. by destruct l.
Qed.

Lemma elem_of_insert_asc x y l : x ∈ insert_asc y l <-> x = y \/ x ∈ l.
Proof.
  induction l as [|z t IH]; simpl.
  - rewrite list_elem_of_singleton, elem_of_nil. tauto.
  - destruct (y <=? z).
    + by rewrite elem_of_cons.
    + rewrite !elem_of_cons, IH. tauto.
Qed.

Lemma elem_of_sort_asc x l : x ∈ sort_asc l <-> x ∈ l.
Proof.
  induction l as [|y t IH]; [done|].
  simpl. rewrite elem_of_insert_asc, elem_of_cons, IH. tauto.
Qed.

(** A list that ascends already is left as it is. *)
Lemma insert_asc_below x l :
  (forall y, y ∈ l -> x <= y) -> insert_asc x l = x :: l.
Proof.
  destruct l as [|y t]; [done|].
  intros H. simpl.
  destruct (Z.leb_spec x y) as [_|Hlt]; [done|].
  specialize (H y ltac:(left)). lia.
Qed.

Lemma sort_asc_increasing from (k : nat) :
  sort_asc ((fun i : nat => from + Z.of_nat i) <$> seq 0 k)
  = (fun i : nat => from + Z.of_nat i) <$> seq 0 k.
Proof.
  revert from. induction k as [|k IH]; intros from; [done|].
  cbn [seq fmap list_fmap sort_asc].
  rewrite <- (fmap_S_seq 0 k), <- list_fmap_compose.
  rewrite (list_fmap_ext _ (fun i : nat => (from + 1) + Z.of_nat i) (seq 0 k));
    [|intros; simpl; lia].
  rewrite IH. apply insert_asc_below.
  intros y Hy. apply list_elem_of_fmap in Hy as (i & -> & _). lia.
Qed.

(** ** The constructor *)

(** On a non-empty array the constructor succeeds; the instance holds the
    sorted representatives and two fresh tables, and every object of the
    initial heap is as it was. *)
Lemma new_spec vs (h : heap) :
  vs <> [] ->
  exists z h',
    Zn.new (Some vs) h = (Ok z, h') /\
    h ⊆ h' /\
    Zn._variables z = sort_asc vs /\
    Zn._n z = length vs /\
    ring_ok h' z.
Proof.
  intros Hvs.
  set (this := {| Zn._table := {| Zn.addition := None; Zn.multiply_ := None |};
                  Zn._variables := sort_asc vs;
                  Zn._n := length (sort_asc vs) |}).
  pose proof (sort_asc_nonempty vs Hvs) as Hsv.
  destruct (operationTable_spec (sort_asc vs)
              (fun a b => ret (Zn.sum this a b)) (Zn.sum this) h Hsv)
    as (la & rowsA & h1 & Ea & Hsub1 & Hla & Hta); [done|].
  destruct (operationTable_spec (sort_asc vs)
              (fun a b => ret (Zn.multiply this a b)) (Zn.multiply this) h1 Hsv)
    as (lm & rowsM & h2 & Em & Hsub2 & Hlm & Htm); [done|].
  eexists _, h2. split_and!.
  - destruct vs as [|v0 vt]; [done|].
    unfold Zn.new. fold this. cbn [Zn._variables Zn._n this].
    change (sort_asc (v0 :: vt)) with (Zn._variables this).
    rewrite (bind_ok _ _ _ _ _ Ea).
    by rewrite (bind_ok _ _ _ _ _ Em).
  - by etrans.
  - done.
  - simpl. apply length_sort_asc.
  - exists la, lm, rowsA, rowsM. cbn [Zn._table Zn._variables Zn._n this].
    split_and!; try done.
    + destruct vs; [done|]. rewrite length_sort_asc. simpl. lia.
    + eapply table_in_weaken; [exact Hta|exact Hsub2].
Qed.

(** Whenever the constructor returns, it was given a non-empty array and
    the facts of [new_spec] hold of what it returned. *)
Lemma new_inv variables (h : heap) z h' :
  Zn.new variables h = (Ok z, h') ->
  exists vs,
    variables = Some vs /\ vs <> [] /\
    h ⊆ h' /\
    Zn._variables z = sort_asc vs /\
    Zn._n z = length vs /\
    ring_ok h' z.
Proof.
  intros E. destruct variables as [[|v0 vt]|]; try discriminate E.
  destruct (new_spec (v0 :: vt) h) as (z' & h'' & E' & H1 & H2 & H3 & H4); [done|].
  rewrite E in E'. injection E' as <- <-.
  exists (v0 :: vt). by split_and!.
Qed.

Lemma createIncreasingArray_length from to :
  length (utils.createIncreasingArray from to) = Z.to_nat (to - from + 1).
Proof. unfold utils.createIncreasingArray. by rewrite length_fmap, length_seq. Qed.

Lemma createIncreasingArray_lookup from to (k : nat) :
  (Z.of_nat k < to - from + 1) ->
  utils.createIncreasingArray from to !! k = Some (from + Z.of_nat k).
Proof.
  intros Hk. unfold utils.createIncreasingArray.
  rewrite list_lookup_fmap, lookup_seq_lt by lia. done.
Qed.

Lemma elem_of_createIncreasingArray from to x :
  x ∈ utils.createIncreasingArray from to <-> from <= x <= to.
Proof.
  unfold utils.createIncreasingArray. rewrite list_elem_of_fmap. split.
  - intros (k & -> & Hk). apply elem_of_seq in Hk. lia.
  - intros Hx. exists (Z.to_nat (x - from)). split; [lia|].
    apply elem_of_seq. lia.
Qed.

(** [createFromN n] returns exactly when [n >= 1], and then the ring has
    the representatives [0, ..., n - 1] and size [n]. *)
Lemma createFromN_inv n (h : heap) z h' :
  Zn.createFromN n h = (Ok z, h') ->
  1 <= n /\
  h ⊆ h' /\
  Zn._variables z = utils.createIncreasingArray 0 (n - 1) /\
  Z.of_nat (Zn._n z) = n /\
  ring_ok h' z.
Proof.
  intros E. unfold Zn.createFromN in E.
  apply new_inv in E as (vs & [= <-] & Hne & Hsub & Hv & Hn & Hok).
  assert (1 <= n).
  { destruct (Z.le_gt_cases 1 n) as [?|Hlt]; [done|]. exfalso. apply Hne.
    unfold utils.createIncreasingArray.
    by replace (Z.to_nat (n - 1 - 0 + 1)) with 0%nat by lia. }
  split_and!; try done.
  - rewrite Hv. apply sort_asc_increasing.
  - rewrite Hn, createIncreasingArray_length. lia.
Qed.

Lemma createFromN_ok n (h : heap) :
  1 <= n -> exists z h', Zn.createFromN n h = (Ok z, h').
Proof.
  intros Hn. destruct (new_spec (utils.createIncreasingArray 0 (n - 1)) h)
    as (z & h' & E & _).
  - intros Hnil. apply (f_equal length) in Hnil.
    rewrite createIncreasingArray_length in Hnil. simpl in Hnil. lia.
  - by exists z, h'.
Qed.

(** ** Searching arrays *)

Lemma findIndex_ge {A} (p : A -> bool) l : -1 <= findIndex p l.
Proof.
  induction l as [|x t IH]; simpl; [lia|].
  destruct (p x); [lia|]. destruct (Z.eqb_spec (findIndex p t) (-1)); lia.
Qed.

(** [findIndex] returns [-1] when no element satisfies the test, and the
    position of the first element that does otherwise. *)
Lemma findIndex_spec {A} (p : A -> bool) (l : list A) :
  (findIndex p l = -1 /\ forall x, x ∈ l -> p x = false) \/
  (exists (k : nat) x,
     findIndex p l = Z.of_nat k /\ l !! k = Some x /\ p x = true /\
     forall (k' : nat) x', (k' < k)%nat -> l !! k' = Some x' -> p x' = false).
Proof.
  induction l as [|a t IH]; simpl.
  - left. split; [done|]. intros x Hx. by apply elem_of_nil in Hx.
  - destruct (p a) eqn:Ea.
    + right. exists 0%nat, a. split_and!; try done. intros; lia.
    + destruct IH as [[E Hall]|(k & x & E & Hk & Hp & Hbefore)].
      * left. rewrite E. split; [done|].
        intros x Hx. apply elem_of_cons in Hx as [->|Hx]; eauto.
      * right. exists (S k), x. rewrite E.
        destruct (Z.eqb_spec (Z.of_nat k) (-1)); [lia|].
        split_and!; try done; [lia|].
        intros [|k'] x' Hlt; simpl; [by intros [= <-]|].
        intros Hx'. eapply Hbefore; [|exact Hx']. lia.
Qed.

Lemma findIndex_fmap {A B} (f : A -> B) (p : B -> bool) l :
  findIndex p (f <$> l) = findIndex (fun x => p (f x)) l.
Proof.
  induction l as [|x t IH]; [done|].
  rewrite fmap_cons. cbn [findIndex]. by rewrite IH.
Qed.

Lemma includes_true l v :
  includes l v = true <-> exists z, v = JNum z /\ z ∈ l.
Proof.
  destruct v as [z| | |]; simpl;
    try (split; [done|intros (z' & [=] & _)]).
  rewrite existsb_exists. split.
  - intros (y & Hin & Heq). apply Z.eqb_eq in Heq as ->.
    exists y. split; [done|]. by apply list_elem_of_In.
  - intros (z' & [= <-] & Hin). exists z. split; [by apply list_elem_of_In|].
    apply Z.eqb_refl.
Qed.

(** [indexOf] of a member is the position of its first occurrence. *)
Lemma indexOf_member l z :
  z ∈ l ->
  exists k : nat, indexOf l (JNum z) = Z.of_nat k /\ l !! k = Some z.
Proof.
  intros Hin. unfold indexOf.
  destruct (findIndex_spec (fun x => strict_eq (JNum x) (JNum z)) l)
    as [[_ Hall]|(k & x & E & Hk & Hp & _)].
  - specialize (Hall z Hin). simpl in Hall. by rewrite Z.eqb_refl in Hall.
  - exists k. split; [done|]. simpl in Hp. by apply Z.eqb_eq in Hp as ->.
Qed.

Lemma indexOf_increasing from to x :
  from <= x <= to ->
  indexOf (utils.createIncreasingArray from to) (JNum x) = x - from.
Proof.
  intros Hx.
  destruct (indexOf_member (utils.createIncreasingArray from to) x)
    as (k & E & Hk); [by apply elem_of_createIncreasingArray|].
  rewrite E. unfold utils.createIncreasingArray in Hk.
  apply list_lookup_fmap_Some in Hk as (i & Heq & Hi).
  apply lookup_seq in Hi as [-> _]. lia.
Qed.

Lemma nth_number_increasing from to (k : nat) :
  Z.of_nat k < to - from + 1 ->
  nth_number (utils.createIncreasingArray from to) (Z.of_nat k)
  = JNum (from + Z.of_nat k).
Proof.
  intros Hk. unfold nth_number.
  destruct (Z.ltb_spec (Z.of_nat k) 0); [lia|].
  by rewrite Nat2Z.id, createIncreasingArray_lookup.
Qed.

(** ** Computations that only read *)

Lemma readonly_ret {A} (a : A) : readonly (ret a).
Proof. done. Qed.

Lemma readonly_throw {A} e : readonly (@throw A e).
Proof. done. Qed.

Lemma readonly_load l : readonly (load l).
Proof. done. Qed.

Lemma readonly_bind {A B} (c : M A) (k : A -> M B) :
  readonly c -> (forall a, readonly (k a)) -> readonly (bind c k).
Proof.
  intros Hc Hk h. unfold bind. specialize (Hc h).
  destruct (c h) as [[a|e] h1]; simpl in *; subst; [apply Hk|done].
Qed.

Lemma readonly_mapM {A B} (f : A -> M B) l :
  (forall a, readonly (f a)) -> readonly (mapM f l).
Proof.
  intros Hf. induction l as [|x t IH]; simpl; [done|].
  apply readonly_bind; [done|]. intros y.
  apply readonly_bind; [done|]. done.
Qed.

Lemma readonly_array_get l i : readonly (array_get l i).
Proof.
  apply readonly_bind; [done|]. intros [[cs|v]|]; try done.
  by destruct (i <? 0).
Qed.

Lemma readonly_array_cells l : readonly (array_cells l).
Proof. apply readonly_bind; [done|]. by intros [[cs|v]|]. Qed.

Lemma readonly_deref c : readonly (deref c).
Proof. by destruct c. Qed.

Lemma readonly_row_findIndex tbl i target :
  readonly (Zn.row_findIndex tbl i target).
Proof.
  destruct tbl as [m|]; [|done]. unfold Zn.row_findIndex.
  apply readonly_bind; [apply readonly_array_get|]. intros c.
  apply readonly_bind; [apply readonly_deref|]. intros r.
  apply readonly_bind; [apply readonly_array_cells|]. done.
Qed.

Lemma readonly_findInverseVariable z v :
  readonly (Zn.findInverseVariable z v).
Proof.
  unfold Zn.findInverseVariable.
  destruct (_ || _); [done|]. destruct (negb _); [done|].
  apply readonly_bind; [apply readonly_row_findIndex|]. done.
Qed.

Lemma readonly_findAdditiveInverseVariable z v :
  readonly (Zn.findAdditiveInverseVariable z v).
Proof.
  unfold Zn.findAdditiveInverseVariable.
  destruct (_ && _); [done|]. destruct (negb _); [done|].
  apply readonly_bind; [apply readonly_row_findIndex|]. done.
Qed.

(** A computation that only reads is determined by its result. *)
Lemma readonly_run {A} (c : M A) h : readonly c -> c h = ((c h).1, h).
Proof. intros Hc. rewrite <- (Hc h) at 3. by destruct (c h). Qed.

(** ** The inverse lookups on a constructed ring *)

Lemma index_table_lookup g n k :
  (k < n)%nat -> index_table g n !! k = Some (index_row g n k).
Proof.
  intros Hk. unfold index_table, index_row.
  by rewrite list_lookup_fmap, lookup_seq_lt.
Qed.

Lemma row_findIndex_ok h m rows T (k : nat) row target :
  table_in h m rows T -> T !! k = Some row ->
  Zn.row_findIndex (Some m) (Z.of_nat k) target h
  = (Ok (findIndex (fun v => strict_eq v target) row), h).
Proof.
  intros Htab Hrow. pose proof Htab as (Hm & Hnd & Hni & Hlen & Hrows).
  destruct (lookup_lt_is_Some_2 rows k) as [r Hr].
  { rewrite Hlen. by eapply lookup_lt_Some. }
  unfold Zn.row_findIndex.
  rewrite (bind_ok _ _ _ _ _
             (array_get_ok h m _ k (CRef r) Hm
                ltac:(by rewrite list_lookup_fmap, Hr))).
  cbn [deref]. rewrite bind_ret.
  rewrite (bind_ok _ _ _ _ _ (array_cells_ok h r _ (Hrows _ _ _ Hr Hrow))).
  unfold ret. by rewrite findIndex_fmap.
Qed.

Lemma ring_ok_member_index h z x (k : nat) :
  ring_ok h z -> x ∈ Zn._variables z ->
  indexOf (Zn._variables z) (JNum x) = Z.of_nat k ->
  (k < Zn._n z)%nat /\ Zn._variables z !! k = Some x.
Proof.
  intros (la & lm & rowsA & rowsM & _ & Hn & _) Hin Hk.
  destruct (indexOf_member _ _ Hin) as (k' & Hk' & Hl).
  assert (k' = k) as -> by lia.
  split; [|done]. rewrite Hn. by eapply lookup_lt_Some.
Qed.

Lemma findInverseVariable_ok h z x (k : nat) :
  ring_ok h z -> x <> 0 -> x ∈ Zn._variables z ->
  indexOf (Zn._variables z) (JNum x) = Z.of_nat k ->
  Zn.findInverseVariable z (JNum x) h
  = (Ok (found_in_row (Zn._variables z)
           (index_row (multiply_idx (Zn._n z)) (Zn._n z) k) (JNum 1)), h).
Proof.
  intros Hok Hx Hin Hk.
  destruct (ring_ok_member_index _ _ _ _ Hok Hin Hk) as [Hlt _].
  destruct Hok as (la & lm & rowsA & rowsM & Ht & Hn & Hpos & Hta & Htm).
  unfold Zn.findInverseVariable.
  assert (js_not (JNum x) || strict_eq (JNum x) (JNum 0) = false) as ->.
  { simpl. destruct (Z.eqb_spec x 0); [done|]. done. }
  assert (includes (Zn._variables z) (JNum x) = true) as ->.
  { apply includes_true. eauto. }
  cbn [negb]. cbv zeta. rewrite Hk, Ht. cbn [Zn.multiply_].
  rewrite (bind_ok _ _ _ _ _
             (row_findIndex_ok _ _ _ _ k _ (JNum 1) Htm
                (index_table_lookup _ _ _ Hlt))).
  reflexivity.
Qed.

Lemma findAdditiveInverseVariable_ok h z x (k : nat) :
  ring_ok h z -> x ∈ Zn._variables z ->
  indexOf (Zn._variables z) (JNum x) = Z.of_nat k ->
  Zn.findAdditiveInverseVariable z (JNum x) h
  = (Ok (found_in_row (Zn._variables z)
           (index_row (sum_idx (Zn._n z)) (Zn._n z) k) (JNum 0)), h).
Proof.
  intros Hok Hin Hk.
  destruct (ring_ok_member_index _ _ _ _ Hok Hin Hk) as [Hlt _].
  destruct Hok as (la & lm & rowsA & rowsM & Ht & Hn & Hpos & Hta & Htm).
  unfold Zn.findAdditiveInverseVariable.
  assert (js_not (JNum x) && negb (strict_eq (JNum x) (JNum 0)) = false) as ->.
  { simpl. destruct (Z.eqb_spec x 0); done. }
  assert (includes (Zn._variables z) (JNum x) = true) as ->.
  { apply includes_true. eauto. }
  cbn [negb]. cbv zeta. rewrite Hk, Ht. cbn [Zn.addition].
  rewrite (bind_ok _ _ _ _ _
             (row_findIndex_ok _ _ _ _ k _ (JNum 0) Hta
                (index_table_lookup _ _ _ Hlt))).
  reflexivity.
Qed.

(** The two guards of the lookups. *)
Lemma findInverseVariable_guard z v h :
  js_not v || strict_eq v (JNum 0) = true ->
  Zn.findInverseVariable z v h = (Throw (Error Zn.msg_variable_nonzero), h).
Proof. intros E. unfold Zn.findInverseVariable. by rewrite E. Qed.

Lemma findInverseVariable_not_member z v h :
  js_not v || strict_eq v (JNum 0) = false ->
  includes (Zn._variables z) v = false ->
  Zn.findInverseVariable z v h = (Throw (Error Zn.msg_not_included), h).
Proof. intros E1 E2. unfold Zn.findInverseVariable. by rewrite E1, E2. Qed.

Lemma findAdditiveInverseVariable_guard z v h :
  not_provided v = true ->
  Zn.findAdditiveInverseVariable z v h = (Throw (Error Zn.msg_variable), h).
Proof.
  intros E. unfold Zn.findAdditiveInverseVariable.
  unfold not_provided in E. by rewrite E.
Qed.

Lemma findAdditiveInverseVariable_not_member z v h :
  not_provided v = false ->
  includes (Zn._variables z) v = false ->
  Zn.findAdditiveInverseVariable z v h = (Throw (Error Zn.msg_not_included), h).
Proof.
  intros E1 E2. unfold Zn.findAdditiveInverseVariable.
  unfold not_provided in E1. by rewrite E1, E2.
Qed.

(** ** Field variables bound to a ring *)

Lemma ring_ok_insert_other h z l o :
  ring_ok h z ->
  (forall cs, h !! l <> Some (OArray cs)) ->
  ring_ok (<[l := o]> h) z.
Proof.
  intros (la & lm & rowsA & rowsM & Ht & Hn & Hpos & Hta & Htm) Hl.
  exists la, lm, rowsA, rowsM. split_and!; try done.
  - by apply table_in_insert_other.
  - by apply table_in_insert_other.
Qed.

Lemma ring_ok_weaken h h' z : ring_ok h z -> h ⊆ h' -> ring_ok h' z.
Proof.
  intros (la & lm & rowsA & rowsM & Ht & Hn & Hpos & Hta & Htm) Hsub.
  exists la, lm, rowsA, rowsM. split_and!; try done.
  - by eapply table_in_weaken.
  - by eapply table_in_weaken.
Qed.

Lemma FVar_new_ok v f (h : heap) :
  is_nullish v = false ->
  FVar.new v (Some f) h
  = (Ok {| FVar._field := f; FVar.self := fresh (dom h) |},
     <[fresh (dom h) := OFVar v]> h).
Proof. intros E. unfold FVar.new. by rewrite E. Qed.

Lemma get_value_ok fv (h : heap) v :
  h !! FVar.self fv = Some (OFVar v) -> FVar.get_value fv h = (Ok v, h).
Proof. intros E. unfold FVar.get_value, bind, load. by rewrite E. Qed.

(** The four arithmetic methods on a live element of a ring-backed field,
    past their own guard: the ring's lookup runs first, and the value is
    assigned only if it returns. *)
Lemma FVar_sum_run z l (h : heap) v x :
  h !! l = Some (OFVar v) -> not_provided x = false ->
  let fv := {| FVar._field := Zn.field z; FVar.self := l |} in
  FVar.sum fv x h = (Ok fv, <[l := OFVar (Zn.sum z v x)]> h).
Proof.
  intros Hl Hx fv. unfold FVar.sum. rewrite Hx.
  by rewrite (bind_ok _ _ _ _ _ (get_value_ok fv h v Hl)).
Qed.

Lemma FVar_multiply_run z l (h : heap) v x :
  h !! l = Some (OFVar v) -> not_provided x = false ->
  let fv := {| FVar._field := Zn.field z; FVar.self := l |} in
  FVar.multiply fv x h = (Ok fv, <[l := OFVar (Zn.multiply z v x)]> h).
Proof.
  intros Hl Hx fv. unfold FVar.multiply. rewrite Hx.
  by rewrite (bind_ok _ _ _ _ _ (get_value_ok fv h v Hl)).
Qed.

Lemma FVar_subtract_run z l (h : heap) v x :
  h !! l = Some (OFVar v) -> not_provided x = false ->
  let fv := {| FVar._field := Zn.field z; FVar.self := l |} in
  FVar.subtract fv x h =
    match (Zn.findAdditiveInverseVariable z x h).1 with
    | Ok neg => (Ok fv, <[l := OFVar (Zn.sum z v neg)]> h)
    | Throw e => (Throw e, h)
    end.
Proof.
  intros Hl Hx fv. unfold FVar.subtract. rewrite Hx.
  rewrite (bind_ok _ _ _ _ _ (get_value_ok fv h v Hl)).
  cbn [FVar._field fv Field.getAdditiveInverseVariable Zn.field].
  pose proof (readonly_run _ h (readonly_findAdditiveInverseVariable z x)) as E.
  destruct (Zn.findAdditiveInverseVariable z x h).1 as [neg|e].
  - by rewrite (bind_ok _ _ _ _ _ E).
  - by rewrite (bind_throw _ _ _ _ _ E).
Qed.

Lemma FVar_divide_run z l (h : heap) v x :
  h !! l = Some (OFVar v) ->
  not_provided x || strict_eq x (JNum 0) = false ->
  let fv := {| FVar._field := Zn.field z; FVar.self := l |} in
  FVar.divide fv x h =
    match (Zn.findInverseVariable z x h).1 with
    | Ok inv => (Ok fv, <[l := OFVar (Zn.multiply z v inv)]> h)
    | Throw e => (Throw e, h)
    end.
Proof.
  intros Hl Hx fv. unfold FVar.divide.
  cbn [FVar._field fv Field.f0 Zn.field]. rewrite Hx.
  rewrite (bind_ok _ _ _ _ _ (get_value_ok fv h v Hl)).
  cbn [Field.getInverseVariable].
  pose proof (readonly_run _ h (readonly_findInverseVariable z x)) as E.
  destruct (Zn.findInverseVariable z x h).1 as [inv|e].
  - by rewrite (bind_ok _ _ _ _ _ E).
  - by rewrite (bind_throw _ _ _ _ _ E).
Qed.

(** ** The worked example of the specification *)

(** C5. From any heap, the chained evaluation
    [Z.createFromN(5).getFVar(2).divide(3).subtract(1).value] returns 3:
    the looked-up inverse of 3 is 2, so the division leaves the value 4; the
    looked-up additive inverse of 1 is 4, so the subtraction leaves 3. *)
Theorem scenario_fromCount5_returns_3 (h0 : heap) :
  exists z x h1 h2 h3 h4,
    Zn.createFromN 5 h0 = (Ok z, h1) /\
    Zn.getFVar z (JNum 2) h1 = (Ok x, h2) /\
    Zn.findInverseVariable z (JNum 3) h2 = (Ok (JNum 2), h2) /\
    FVar.divide x (JNum 3) h2 = (Ok x, h3) /\
    FVar.value x h3 = (Ok (JNum 4), h3) /\
    Zn.findAdditiveInverseVariable z (JNum 1) h3 = (Ok (JNum 4), h3) /\
    FVar.subtract x (JNum 1) h3 = (Ok x, h4) /\
    FVar.value x h4 = (Ok (JNum 3), h4) /\
    scenario_fromCount5 h0 = (Ok (JNum 3), h4).
Proof.
  destruct (createFromN_ok 5 h0) as (z & h1 & E1); [lia|].
  destruct (createFromN_inv _ _ _ _ E1) as (_ & _ & Hv & Hn & Hok).
  destruct z as [tbl vars n]. cbn [Zn._variables Zn._n] in Hv, Hn.
  assert (n = 5%nat) as -> by lia. subst vars.
  set (vars := utils.createIncreasingArray 0 (5 - 1)) in *.
  set (z := {| Zn._table := tbl; Zn._variables := vars; Zn._n := 5 |}) in *.
  set (l := fresh (dom h1)).
  set (fv := {| FVar._field := Zn.field z; FVar.self := l |}).
  set (h2 := <[l := OFVar (JNum 2)]> h1).
  assert (Hl1 : forall cs, h1 !! l <> Some (OArray cs)).
  { intros cs. unfold l. by rewrite alloc_fresh. }
  assert (Hok2 : ring_ok h2 z) by (by apply ring_ok_insert_other).
  assert (Enew : Zn.getFVar z (JNum 2) h1 = (Ok fv, h2)).
  { unfold Zn.getFVar. by rewrite FVar_new_ok. }
  (* divide(3) *)
  assert (Ei : Zn.findInverseVariable z (JNum 3) h2 = (Ok (JNum 2), h2)).
  { rewrite (findInverseVariable_ok h2 z 3 3 Hok2);
      [done|lia|by apply elem_of_createIncreasingArray|done]. }
  pose proof (FVar_divide_run z l h2 (JNum 2) (JNum 3)
                ltac:(apply lookup_insert_eq) eq_refl) as Ed.
  cbv zeta in Ed. fold fv in Ed. rewrite Ei in Ed. cbn [fst] in Ed.
  replace (Zn.multiply z (JNum 2) (JNum 2)) with (JNum 4) in Ed by done.
  set (h3 := <[l := OFVar (JNum 4)]> h2) in *.
  assert (Hok3 : ring_ok h3 z).
  { apply ring_ok_insert_other; [done|]. intros cs.
    unfold h2. by rewrite lookup_insert_eq. }
  (* subtract(1) *)
  assert (Ea : Zn.findAdditiveInverseVariable z (JNum 1) h3
               = (Ok (JNum 4), h3)).
  { rewrite (findAdditiveInverseVariable_ok h3 z 1 1 Hok3);
      [done|by apply elem_of_createIncreasingArray|done]. }
  pose proof (FVar_subtract_run z l h3 (JNum 4) (JNum 1)
                ltac:(apply lookup_insert_eq) eq_refl) as Es.
  cbv zeta in Es. fold fv in Es. rewrite Ea in Es. cbn [fst] in Es.
  replace (Zn.sum z (JNum 4) (JNum 4)) with (JNum 3) in Es by done.
  set (h4 := <[l := OFVar (JNum 3)]> h3) in *.
  assert (Ev3 : FVar.value fv h3 = (Ok (JNum 4), h3)).
  { apply get_value_ok. apply lookup_insert_eq. }
  assert (Ev4 : FVar.value fv h4 = (Ok (JNum 3), h4)).
  { apply get_value_ok. apply lookup_insert_eq. }
  exists z, fv, h1, h2, h3, h4. split_and!; try done.
  (* the chain *)
  unfold scenario_fromCount5.
  rewrite (bind_ok _ _ _ _ _ E1), (bind_ok _ _ _ _ _ Enew).
  by rewrite (bind_ok _ _ _ _ _ Ed), (bind_ok _ _ _ _ _ Es).
Qed.

(** ** Arithmetic of a ring *)

Lemma sum_numbers z a b :
  (0 < Zn._n z)%nat ->
  Zn.sum z (JNum a) (JNum b) = JNum (Z.rem (a + b) (Z.of_nat (Zn._n z))).
Proof.
  intros Hn. unfold Zn.sum, Zn.static_sum, js_rem. simpl.
  by destruct (Z.eqb_spec (Z.of_nat (Zn._n z)) 0); [lia|].
Qed.

Lemma multiply_numbers z a b :
  (0 < Zn._n z)%nat ->
  Zn.multiply z (JNum a) (JNum b) = JNum (Z.rem (a * b) (Z.of_nat (Zn._n z))).
Proof.
  intros Hn. unfold Zn.multiply, Zn.static_multiply, js_rem. simpl.
  by destruct (Z.eqb_spec (Z.of_nat (Zn._n z)) 0); [lia|].
Qed.

Lemma sum_idx_number n a b :
  (0 < n)%nat ->
  sum_idx n a b = JNum (Z.rem (Z.of_nat a + Z.of_nat b) (Z.of_nat n)).
Proof.
  intros Hn. unfold sum_idx, Zn.static_sum, js_rem. simpl.
  by destruct (Z.eqb_spec (Z.of_nat n) 0); [lia|].
Qed.

Lemma multiply_idx_number n a b :
  (0 < n)%nat ->
  multiply_idx n a b = JNum (Z.rem (Z.of_nat a * Z.of_nat b) (Z.of_nat n)).
Proof.
  intros Hn. unfold multiply_idx, Zn.static_multiply, js_rem. simpl.
  by destruct (Z.eqb_spec (Z.of_nat n) 0); [lia|].
Qed.

(** C2. In a ring built by [createFromN n], the sum and the product of two
    representatives are [(a + b) mod n] and [(a * b) mod n]; for [n = 7],
    [sum(5, 5)] is 3 and [multiply(5, 5)] is 4. *)
Theorem fromCount_sum_multiply :
  (forall n (h0 : heap) z h a b,
     Zn.createFromN n h0 = (Ok z, h) ->
     a ∈ Zn._variables z -> b ∈ Zn._variables z ->
     Zn.sum z (JNum a) (JNum b) = JNum ((a + b) mod n) /\
     Zn.multiply z (JNum a) (JNum b) = JNum ((a * b) mod n)) /\
  (forall (h0 : heap) z h,
     Zn.createFromN 7 h0 = (Ok z, h) ->
     Zn.sum z (JNum 5) (JNum 5) = JNum 3 /\
     Zn.multiply z (JNum 5) (JNum 5) = JNum 4).
Proof.
  assert (Hgen : forall n (h0 : heap) z h a b,
     Zn.createFromN n h0 = (Ok z, h) ->
     a ∈ Zn._variables z -> b ∈ Zn._variables z ->
     Zn.sum z (JNum a) (JNum b) = JNum ((a + b) mod n) /\
     Zn.multiply z (JNum a) (JNum b) = JNum ((a * b) mod n)).
  { intros n h0 z h a b E Ha Hb.
    destruct (createFromN_inv _ _ _ _ E) as (Hn1 & _ & Hv & Hn & _).
    rewrite Hv in Ha, Hb.
    apply elem_of_createIncreasingArray in Ha, Hb.
    rewrite sum_numbers, multiply_numbers by lia. rewrite Hn.
    rewrite !Z.rem_mod_nonneg by lia. done. }
  split; [exact Hgen|].
  intros h0 z h E.
  destruct (createFromN_inv _ _ _ _ E) as (_ & _ & Hv & _ & _).
  apply (Hgen 7 h0 z h 5 5 E); rewrite Hv;
    apply elem_of_createIncreasingArray; lia.
Qed.

Lemma fromCount_sum_multiply_witness :
  exists z h,
    Zn.createFromN 7 ∅ = (Ok z, h) /\
    Zn.sum z (JNum 5) (JNum 5) = JNum 3 /\
    Zn.multiply z (JNum 5) (JNum 5) = JNum 4.
Proof.
  eexists _, _. split; [vm_compute; reflexivity|].
  eapply (proj2 fromCount_sum_multiply ∅). vm_compute. reflexivity.
Defined.

(** ** The cached tables *)

(** C4. Both tables of a constructed ring are symmetric: for all indices
    [i] and [j] below the size, the entries [(i, j)] and [(j, i)] exist and
    are equal. *)
Theorem tables_symmetric variables (h0 : heap) z h (i j : nat) :
  Zn.new variables h0 = (Ok z, h) ->
  (i < Zn._n z)%nat -> (j < Zn._n z)%nat ->
  is_Some (table_entry h (Zn.addition (Zn._table z)) i j) /\
  table_entry h (Zn.addition (Zn._table z)) i j
    = table_entry h (Zn.addition (Zn._table z)) j i /\
  is_Some (table_entry h (Zn.multiply_ (Zn._table z)) i j) /\
  table_entry h (Zn.multiply_ (Zn._table z)) i j
    = table_entry h (Zn.multiply_ (Zn._table z)) j i.
Proof.
  intros E Hi Hj.
  destruct (new_inv _ _ _ _ E) as (vs & _ & _ & _ & _ & _ & Hok).
  destruct Hok as (la & lm & rowsA & rowsM & Ht & Hn & Hpos & Hta & Htm).
  rewrite Ht. cbn [Zn.addition Zn.multiply_].
  rewrite !(table_in_entry _ _ _ _ _ _ Hta), !(table_in_entry _ _ _ _ _ _ Htm).
  rewrite !entry_index_table by done.
  rewrite (Nat.min_comm j i), (Nat.max_comm j i).
  split_and!; by eauto.
Qed.

Lemma tables_symmetric_witness :
  exists z h,
    Zn.new (Some [4; 9; 2]) ∅ = (Ok z, h) /\
    table_entry h (Zn.multiply_ (Zn._table z)) 1 2
      = table_entry h (Zn.multiply_ (Zn._table z)) 2 1.
Proof.
  eexists _, _. split; [vm_compute; reflexivity|].
  eapply (tables_symmetric (Some [4; 9; 2]) ∅ _ _ 1 2).
  - vm_compute. reflexivity.
  - vm_compute. lia.
  - vm_compute. lia.
Defined.

(** C9. Every entry of both tables of a constructed ring, whatever its
    representatives, is an integer between 0 and size - 1; and each table
    has size rows. *)
Theorem table_entries_in_range variables (h0 : heap) z h (i j : nat) :
  Zn.new variables h0 = (Ok z, h) ->
  (i < Zn._n z)%nat -> (j < Zn._n z)%nat ->
  (exists v, table_entry h (Zn.addition (Zn._table z)) i j = Some (CVal (JNum v)) /\
             0 <= v <= Z.of_nat (Zn._n z) - 1) /\
  (exists v, table_entry h (Zn.multiply_ (Zn._table z)) i j = Some (CVal (JNum v)) /\
             0 <= v <= Z.of_nat (Zn._n z) - 1) /\
  table_rows h (Zn.addition (Zn._table z)) = Some (Zn._n z) /\
  table_rows h (Zn.multiply_ (Zn._table z)) = Some (Zn._n z).
Proof.
  intros E Hi Hj.
  destruct (new_inv _ _ _ _ E) as (vs & _ & _ & _ & _ & _ & Hok).
  destruct Hok as (la & lm & rowsA & rowsM & Ht & Hn & Hpos & Hta & Htm).
  rewrite Ht. cbn [Zn.addition Zn.multiply_ table_rows].
  rewrite (table_in_entry _ _ _ _ _ _ Hta), (table_in_entry _ _ _ _ _ _ Htm).
  rewrite !entry_index_table by done.
  rewrite sum_idx_number, multiply_idx_number by done.
  destruct Hta as (Hma & _ & _ & Hlena & _), Htm as (Hmm & _ & _ & Hlenm & _).
  rewrite Hma, Hmm, !length_fmap, Hlena, Hlenm.
  destruct (dims_index_table (sum_idx (Zn._n z)) (Zn._n z)) as [-> _].
  destruct (dims_index_table (multiply_idx (Zn._n z)) (Zn._n z)) as [-> _].
  split_and!; try done.
  - eexists. split; [reflexivity|].
    pose proof (Z.rem_bound_pos
      (Z.of_nat (i `min` j) + Z.of_nat (i `max` j)) (Z.of_nat (Zn._n z))). lia.
  - eexists. split; [reflexivity|].
    pose proof (Z.rem_bound_pos
      (Z.of_nat (i `min` j) * Z.of_nat (i `max` j)) (Z.of_nat (Zn._n z))). lia.
Qed.

Lemma table_entries_in_range_witness :
  exists z h,
    Zn.createFromRange 3 9 ∅ = (Ok z, h) /\
    exists v, table_entry h (Zn.multiply_ (Zn._table z)) 5 6 = Some (CVal (JNum v)) /\
              0 <= v <= Z.of_nat (Zn._n z) - 1.
Proof.
  eexists _, _. split; [vm_compute; reflexivity|].
  eapply (table_entries_in_range
            (Some (utils.createIncreasingArray 3 9)) ∅ _ _ 5 6).
  - vm_compute. reflexivity.
  - vm_compute. lia.
  - vm_compute. lia.
Defined.

(** ** Inverses in the canonical rings *)

Lemma index_row_multiply n k j :
  (0 < n)%nat -> (j < n)%nat ->
  index_row (multiply_idx n) n k !! j
  = Some (JNum ((Z.of_nat k * Z.of_nat j) mod Z.of_nat n)).
Proof.
  intros Hn Hj. unfold index_row.
  rewrite list_lookup_fmap, lookup_seq_lt by done. simpl.
  rewrite multiply_idx_number by done.
  rewrite Z.rem_mod_nonneg by lia. do 3 f_equal.
  destruct (Nat.le_ge_cases k j).
  - by rewrite Nat.min_l, Nat.max_r.
  - rewrite Nat.min_r, Nat.max_l by done. lia.
Qed.

Lemma index_row_sum n k j :
  (0 < n)%nat -> (j < n)%nat ->
  index_row (sum_idx n) n k !! j
  = Some (JNum ((Z.of_nat k + Z.of_nat j) mod Z.of_nat n)).
Proof.
  intros Hn Hj. unfold index_row.
  rewrite list_lookup_fmap, lookup_seq_lt by done. simpl.
  rewrite sum_idx_number by done.
  rewrite Z.rem_mod_nonneg by lia. do 3 f_equal.
  destruct (Nat.le_ge_cases k j).
  - by rewrite Nat.min_l, Nat.max_r.
  - rewrite Nat.min_r, Nat.max_l by done. lia.
Qed.

Lemma length_index_row g n k : length (index_row g n k) = n.
Proof. unfold index_row. by rewrite length_fmap, length_seq. Qed.

(** In [createFromN n], [findInverseVariable x] on a nonzero representative
    returns a representative [y] with [multiply(x, y) = 1], or [undefined]
    when no representative is such a [y]. *)
Lemma findInverseVariable_fromCount n (h0 : heap) z h x :
  Zn.createFromN n h0 = (Ok z, h) -> 0 < x < n ->
  exists res,
    Zn.findInverseVariable z (JNum x) h = (Ok res, h) /\
    ((exists y, res = JNum y /\ y ∈ Zn._variables z /\
                Zn.multiply z (JNum x) (JNum y) = JNum 1) \/
     (res = JUndefined /\
      forall y, y ∈ Zn._variables z ->
        Zn.multiply z (JNum x) (JNum y) <> JNum 1)).
Proof.
  intros E Hx.
  destruct (createFromN_inv _ _ _ _ E) as (Hn1 & _ & Hv & Hn & Hok).
  assert (Hpos : (0 < Zn._n z)%nat) by lia.
  assert (Hin : x ∈ Zn._variables z).
  { rewrite Hv. apply elem_of_createIncreasingArray. lia. }
  assert (Hidx : indexOf (Zn._variables z) (JNum x) = Z.of_nat (Z.to_nat x)).
  { rewrite Hv, indexOf_increasing by lia. lia. }
  rewrite (findInverseVariable_ok h z x _ Hok ltac:(lia) Hin Hidx).
  eexists. split; [reflexivity|]. unfold found_in_row.
  set (row := index_row _ _ _).
  destruct (findIndex_spec (fun v => strict_eq v (JNum 1)) row)
    as [[Er Hall]|(k & v & Er & Hk & Hp & _)]; rewrite Er.
  - right. split; [done|]. intros y Hy Hmul.
    rewrite Hv in Hy. apply elem_of_createIncreasingArray in Hy.
    assert (Hrow : row !! Z.to_nat y = Some (JNum 1)).
    { unfold row. rewrite index_row_multiply by lia.
      rewrite multiply_numbers in Hmul by done.
      rewrite Z.rem_mod_nonneg in Hmul by lia.
      rewrite !Z2Nat.id by lia. by rewrite Hmul. }
    apply list_elem_of_lookup_2 in Hrow. by apply Hall in Hrow.
  - left. destruct (Z.eqb_spec (Z.of_nat k) (-1)); [lia|].
    assert (Hkn : (k < Zn._n z)%nat).
    { apply lookup_lt_Some in Hk. unfold row in Hk.
      by rewrite length_index_row in Hk. }
    exists (Z.of_nat k). rewrite Hv at 1.
    rewrite nth_number_increasing by lia.
    split_and!; [f_equal; lia| |].
    + rewrite Hv. apply elem_of_createIncreasingArray. lia.
    + unfold row in Hk. rewrite index_row_multiply in Hk by done.
      injection Hk as <-. simpl in Hp. apply Z.eqb_eq in Hp.
      rewrite multiply_numbers by done. rewrite Z.rem_mod_nonneg by lia.
      rewrite Z2Nat.id in Hp by lia. by rewrite Hp.
Qed.

(** For a prime [p], every nonzero representative of [createFromN p] has a
    multiplicative inverse, and the lookup returns one. *)
Lemma findInverseVariable_fromCount_prime p (h0 : heap) z h x :
  Z.prime p -> Zn.createFromN p h0 = (Ok z, h) -> 0 < x < p ->
  exists y,
    Zn.findInverseVariable z (JNum x) h = (Ok (JNum y), h) /\
    y ∈ Zn._variables z /\
    Zn.multiply z (JNum x) (JNum y) = JNum 1.
Proof.
  intros Hp E Hx.
  destruct (findInverseVariable_fromCount _ _ _ _ _ E Hx)
    as (res & Er & [(y & -> & Hy & Hm)|[-> Hnone]]); [by exists y|].
  exfalso.
  destruct (createFromN_inv _ _ _ _ E) as (Hn1 & _ & Hv & Hn & Hok).
  assert (Hrel : Z.coprime p x).
  { apply Z.coprime_prime_l; [done|].
    intros Hdiv. apply Z.divide_pos_le in Hdiv; lia. }
  destruct (Z.Bezout_coprime _ _ Hrel) as (v & u & Huv).
  apply (Hnone (u mod p)).
  - rewrite Hv. apply elem_of_createIncreasingArray.
    pose proof (Z.mod_pos_bound u p). lia.
  - rewrite multiply_numbers by lia. rewrite Hn.
    pose proof (Z.mod_pos_bound u p ltac:(lia)).
    rewrite Z.rem_mod_nonneg by nia.
    rewrite Z.mul_mod_idemp_r by lia.
    replace (x * u) with (1 + (- v) * p) by lia.
    rewrite Z.mod_add by lia. rewrite Z.mod_small; [done|].
    destruct Hp. lia.
Qed.

(** For a composite [n = a * b], the factor [a] is a representative of
    [createFromN n] without multiplicative inverse: the lookup returns
    [undefined]. *)
Lemma findInverseVariable_fromCount_composite a b (h0 : heap) z h :
  1 < a -> 1 < b -> Zn.createFromN (a * b) h0 = (Ok z, h) ->
  a ∈ Zn._variables z /\
  Zn.findInverseVariable z (JNum a) h = (Ok JUndefined, h).
Proof.
  intros Ha Hb E.
  destruct (createFromN_inv _ _ _ _ E) as (Hn1 & _ & Hv & Hn & Hok).
  assert (Hx : 0 < a < a * b) by nia.
  split; [rewrite Hv; apply elem_of_createIncreasingArray; lia|].
  destruct (findInverseVariable_fromCount _ _ _ _ _ E Hx)
    as (res & Er & [(y & -> & Hy & Hm)|[-> Hnone]]); [|done].
  exfalso. rewrite multiply_numbers in Hm by lia. rewrite Hn in Hm.
  rewrite Hv in Hy. apply elem_of_createIncreasingArray in Hy.
  rewrite Z.rem_mod_nonneg in Hm by nia. injection Hm as Hm.
  pose proof (Z.div_mod (a * y) (a * b) ltac:(lia)) as Hdm.
  rewrite Hm in Hdm.
  assert (Hdiv : (a | 1)).
  { exists (y - b * (a * y / (a * b))). lia. }
  apply Z.divide_1_r_nonneg in Hdiv; lia.
Qed.

(** In [createFromN n], every representative [x] has the additive inverse
    [(n - x) mod n], and the lookup returns it. *)
Lemma findAdditiveInverseVariable_fromCount n (h0 : heap) z h x :
  Zn.createFromN n h0 = (Ok z, h) -> 0 <= x < n ->
  Zn.findAdditiveInverseVariable z (JNum x) h
    = (Ok (JNum ((n - x) mod n)), h) /\
  (n - x) mod n ∈ Zn._variables z /\
  Zn.sum z (JNum x) (JNum ((n - x) mod n)) = JNum 0.
Proof.
  intros E Hx.
  destruct (createFromN_inv _ _ _ _ E) as (Hn1 & _ & Hv & Hn & Hok).
  assert (Hpos : (0 < Zn._n z)%nat) by lia.
  assert (Hin : x ∈ Zn._variables z).
  { rewrite Hv. apply elem_of_createIncreasingArray. lia. }
  assert (Hidx : indexOf (Zn._variables z) (JNum x) = Z.of_nat (Z.to_nat x)).
  { rewrite Hv, indexOf_increasing by lia. lia. }
  pose proof (Z.mod_pos_bound (n - x) n ltac:(lia)) as Hy.
  assert (Hsum : (x + (n - x) mod n) mod n = 0).
  { rewrite Z.add_mod_idemp_r by lia.
    replace (x + (n - x)) with (1 * n) by lia. apply Z.mod_mul. lia. }
  split_and!.
  - rewrite (findAdditiveInverseVariable_ok h z x _ Hok Hin Hidx).
    do 2 f_equal. unfold found_in_row.
    set (row := index_row _ _ _).
    destruct (findIndex_spec (fun v => strict_eq v (JNum 0)) row)
      as [[Er Hall]|(k & v & Er & Hk & Hp & _)]; rewrite Er.
    + exfalso.
      assert (Hrow : row !! Z.to_nat ((n - x) mod n) = Some (JNum 0)).
      { unfold row. rewrite index_row_sum by lia.
        rewrite !Z2Nat.id by lia. rewrite Hn. by rewrite Hsum. }
      apply list_elem_of_lookup_2 in Hrow. by apply Hall in Hrow.
    + destruct (Z.eqb_spec (Z.of_nat k) (-1)); [lia|].
      assert (Hkn : (k < Zn._n z)%nat).
      { apply lookup_lt_Some in Hk. unfold row in Hk.
        by rewrite length_index_row in Hk. }
      rewrite Hv. rewrite nth_number_increasing by lia. f_equal.
      unfold row in Hk. rewrite index_row_sum in Hk by done.
      injection Hk as <-. simpl in Hp. apply Z.eqb_eq in Hp.
      rewrite Z2Nat.id, Hn in Hp by lia.
      destruct (Z.eq_dec x 0) as [->|Hx0].
      * rewrite Z.sub_0_r, Z.mod_same by lia.
        rewrite Z.mod_small in Hp by lia. lia.
      * rewrite (Z.mod_small (n - x)) by lia.
        assert (Hq : x + Z.of_nat k = n * ((x + Z.of_nat k) / n)).
        { pose proof (Z.div_mod (x + Z.of_nat k) n ltac:(lia)). lia. }
        assert ((x + Z.of_nat k) / n = 1) by nia.
        lia.
  - rewrite Hv. apply elem_of_createIncreasingArray. lia.
  - rewrite sum_numbers by done. rewrite Hn.
    rewrite Z.rem_mod_nonneg by lia. by rewrite Hsum.
Qed.

(** ** A ring over the range 3..9 *)

Lemma createFromRange_3_9 (h0 : heap) :
  exists tbl h,
    let z := {| Zn._table := tbl;
                Zn._variables := [3; 4; 5; 6; 7; 8; 9];
                Zn._n := 7 |} in
    Zn.createFromRange 3 9 h0 = (Ok z, h) /\ ring_ok h z.
Proof.
  destruct (new_spec (utils.createIncreasingArray 3 9) h0)
    as (z & h & E & _ & Hv & Hn & Hok); [done|].
  destruct z as [tbl vars n]. cbn [Zn._variables Zn._n] in Hv, Hn.
  subst vars n. exists tbl, h. split; [exact E|exact Hok].
Qed.

(** C1. On the ring [createFromRange(3, 9)] the lookup
    [findInverseVariable(4)] returns 4, although [multiply(4, 4)] is 2 and
    the representative 9 does satisfy [multiply(4, 9) = 1]; and
    [findInverseVariable(3)] returns [undefined], although the
    representative 5 satisfies [multiply(3, 5) = 1]. *)
Theorem findInverseVariable_fromRange_3_9 (h0 : heap) :
  exists z h,
    Zn.createFromRange 3 9 h0 = (Ok z, h) /\
    Zn.findInverseVariable z (JNum 4) h = (Ok (JNum 4), h) /\
    Zn.multiply z (JNum 4) (JNum 4) = JNum 2 /\
    9 ∈ Zn._variables z /\
    Zn.multiply z (JNum 4) (JNum 9) = JNum 1 /\
    Zn.findInverseVariable z (JNum 3) h = (Ok JUndefined, h) /\
    5 ∈ Zn._variables z /\
    Zn.multiply z (JNum 3) (JNum 5) = JNum 1.
Proof.
  destruct (createFromRange_3_9 h0) as (tbl & h & E & Hok).
  eexists _, h. split; [exact E|].
  split_and!; try reflexivity.
  - rewrite (findInverseVariable_ok h _ 4 1 Hok);
      [done|lia|cbn; set_solver|done].
  - cbn. set_solver.
  - rewrite (findInverseVariable_ok h _ 3 0 Hok);
      [done|lia|cbn; set_solver|done].
  - cbn. set_solver.
Qed.

(** C3. On the ring [createFromRange(3, 9)] the lookup
    [findAdditiveInverseVariable(3)] returns 3, although [sum(3, 3)] is 6
    and the representative 4 does satisfy [sum(3, 4) = 0]. *)
Theorem findAdditiveInverseVariable_fromRange_3_9 (h0 : heap) :
  exists z h,
    Zn.createFromRange 3 9 h0 = (Ok z, h) /\
    Zn.findAdditiveInverseVariable z (JNum 3) h = (Ok (JNum 3), h) /\
    Zn.sum z (JNum 3) (JNum 3) = JNum 6 /\
    4 ∈ Zn._variables z /\
    Zn.sum z (JNum 3) (JNum 4) = JNum 0.
Proof.
  destruct (createFromRange_3_9 h0) as (tbl & h & E & Hok).
  eexists _, h. split; [exact E|].
  split_and!; try reflexivity.
  - rewrite (findAdditiveInverseVariable_ok h _ 3 0 Hok);
      [done|cbn; set_solver|done].
  - cbn. set_solver.
Qed.

(** ** Subtraction and division by a value outside the ring *)

(** C10. On a live element of a ring-backed field, [subtract(x)] and
    [divide(x)] throw an [Error] whenever [x] is not among the
    representatives of the ring, and the heap, hence the value of the
    element, is as before the call. *)
Theorem subtract_divide_not_member z l (h : heap) v x :
  h !! l = Some (OFVar v) ->
  (forall k, x = JNum k -> k ∉ Zn._variables z) ->
  let fv := {| FVar._field := Zn.field z; FVar.self := l |} in
  (exists msg, FVar.subtract fv x h = (Throw (Error msg), h)) /\
  (exists msg, FVar.divide fv x h = (Throw (Error msg), h)) /\
  FVar.value fv h = (Ok v, h).
Proof.
  intros Hl Hx fv.
  assert (Hinc : includes (Zn._variables z) x = false).
  { apply not_true_is_false. intros Hi.
    apply includes_true in Hi as (k & -> & Hin). by eapply Hx. }
  unfold fv. split_and!.
  - destruct (not_provided x) eqn:Hnp.
    + exists FVar.msg_subtrahend. unfold FVar.subtract. by rewrite Hnp.
    + exists Zn.msg_not_included.
      rewrite (FVar_subtract_run z l h v x Hl Hnp).
      by rewrite (findAdditiveInverseVariable_not_member z _ h Hnp Hinc).
  - destruct (not_provided x || strict_eq x (JNum 0)) eqn:Hg.
    + exists FVar.msg_divisor. unfold FVar.divide.
      cbn [FVar._field Field.f0 Zn.field]. by rewrite Hg.
    + exists Zn.msg_not_included.
      rewrite (FVar_divide_run z l h v x Hl Hg).
      rewrite (findInverseVariable_not_member z _ h); [done| |done].
      apply orb_false_iff in Hg as [Hnp H0]. rewrite H0, orb_false_r.
      unfold not_provided in Hnp. by rewrite H0, andb_true_r in Hnp.
  - by apply get_value_ok.
Qed.

Lemma subtract_divide_not_member_witness :
  exists z l h,
    ring5_element = (Ok (z, l), h) /\
    exists msg,
      FVar.subtract {| FVar._field := Zn.field z; FVar.self := l |} (JNum 7) h
      = (Throw (Error msg), h).
Proof.
  eexists _, _, _. split; [vm_compute; reflexivity|].
  eapply (subtract_divide_not_member _ _ _ (JNum 2) (JNum 7)).
  - vm_compute. reflexivity.
  - intros k [= <-]. apply (bool_decide_unpack _). by vm_compute.
Defined.

(** ** The guard of the division *)

(** C8, as stated, fails: on an element of [createFromN(5)], [divide(7)]
    throws an [Error] although 7 is neither absent nor 0. *)
Lemma divide_throws_iff_absent_or_zero_fails :
  exists z l h,
    ring5_element = (Ok (z, l), h) /\
    ~ divide_throws_iff_absent_or_zero
        {| FVar._field := Zn.field z; FVar.self := l |} h (JNum 7).
Proof.
  eexists _, _, _. split; [vm_compute; reflexivity|].
  intros [Hthrows _].
  destruct Hthrows as [|[|]]; [|discriminate..].
  eexists _, _. vm_compute. reflexivity.
Qed.

(** C8, amended.  On a live element of a constructed ring, [divide(x)]
    throws an [Error] exactly when [x] is [undefined], [null], [NaN] or 0
    (its own guard) or a number that is not a representative of the ring
    (the ring's lookup); the heap is then as before.  For every other [x]
    the lookup returns some [inv], possibly [undefined], and the value
    becomes [multiply(value, inv)]. *)
Theorem divide_outcome z l (h : heap) v x :
  ring_ok h z ->
  h !! l = Some (OFVar v) ->
  let fv := {| FVar._field := Zn.field z; FVar.self := l |} in
  (FVar.divide fv x h = (Throw (Error FVar.msg_divisor), h) <->
     (x = JUndefined \/ x = JNull \/ x = JNaN \/ x = JNum 0)) /\
  ((exists msg h', FVar.divide fv x h = (Throw (Error msg), h')) <->
     (x = JUndefined \/ x = JNull \/ x = JNaN \/ x = JNum 0 \/
      exists k, x = JNum k /\ k ∉ Zn._variables z)) /\
  (forall msg h', FVar.divide fv x h = (Throw (Error msg), h') -> h' = h) /\
  (forall k, x = JNum k -> k <> 0 -> k ∈ Zn._variables z ->
     exists inv,
       Zn.findInverseVariable z x h = (Ok inv, h) /\
       FVar.divide fv x h = (Ok fv, <[l := OFVar (Zn.multiply z v inv)]> h)).
Proof.
  intros Hok Hl fv.
  assert (Hmember : forall k, k <> 0 -> k ∈ Zn._variables z ->
     exists inv,
       Zn.findInverseVariable z (JNum k) h = (Ok inv, h) /\
       FVar.divide fv (JNum k) h
         = (Ok fv, <[l := OFVar (Zn.multiply z v inv)]> h)).
  { intros k Hk0 Hin.
    destruct (indexOf_member _ _ Hin) as (i & Hi & _).
    pose proof (findInverseVariable_ok h z k i Hok Hk0 Hin Hi) as Ef.
    eexists. split; [exact Ef|].
    unfold fv. rewrite (FVar_divide_run z l h v (JNum k) Hl).
    - by rewrite Ef.
    - unfold not_provided. simpl. by destruct (Z.eqb_spec k 0). }
  assert (Hother : forall k, k <> 0 -> k ∉ Zn._variables z ->
     FVar.divide fv (JNum k) h = (Throw (Error Zn.msg_not_included), h)).
  { intros k Hk0 Hnin.
    assert (Hg : js_not (JNum k) || strict_eq (JNum k) (JNum 0) = false).
    { simpl. by destruct (Z.eqb_spec k 0). }
    unfold fv. rewrite (FVar_divide_run z l h v (JNum k) Hl).
    - rewrite (findInverseVariable_not_member z _ h Hg); [done|].
      apply not_true_is_false. intros Hi.
      apply includes_true in Hi as (k' & [= <-] & Hin). done.
    - unfold not_provided. simpl. by destruct (Z.eqb_spec k 0). }
  destruct x as [k| | |].
  2-4: split_and!;
    [split; [intros _; tauto|reflexivity]
    |split; [intros _; tauto|intros _; by eexists _, _]
    |by intros msg h' [= _ <-]
    |by intros k [=]].
  destruct (Z.eq_dec k 0) as [->|Hk0].
  { split_and!.
    - split; [intros _; tauto|reflexivity].
    - split; [intros _; tauto|intros _; by eexists _, _].
    - by intros msg h' [= _ <-].
    - by intros k [= <-]. }
  destruct (decide (k ∈ Zn._variables z)) as [Hin|Hnin].
  - destruct (Hmember k Hk0 Hin) as (inv & Ef & Ed).
    split_and!.
    + rewrite Ed. split; [done|]. intros [|[|[|[=]]]]; done.
    + rewrite Ed. split; [by intros (msg & h' & [=])|].
      intros [|[|[|[[=]|(k' & [= <-] & Hn)]]]]; done.
    + rewrite Ed. by intros msg h' [=].
    + intros k' [= <-] _ _. eauto.
  - pose proof (Hother k Hk0 Hnin) as Ed.
    split_and!.
    + rewrite Ed. split; [by intros [=]|]. intros [|[|[|[=]]]]; done.
    + rewrite Ed. split; [|by eexists _, _].
      intros _. do 4 right. by exists k.
    + rewrite Ed. by intros msg h' [= _ <-].
    + intros k' [= <-] _ Hin. done.
Qed.

Lemma divide_outcome_witness :
  exists z l h,
    ring5_element = (Ok (z, l), h) /\
    exists inv,
      Zn.findInverseVariable z (JNum 3) h = (Ok inv, h) /\
      FVar.divide {| FVar._field := Zn.field z; FVar.self := l |} (JNum 3) h
      = (Ok {| FVar._field := Zn.field z; FVar.self := l |},
         <[l := OFVar (Zn.multiply z (JNum 2) inv)]> h).
Proof.
  eexists _, _, _. split; [vm_compute; reflexivity|].
  eapply (divide_outcome _ _ _ (JNum 2) (JNum 3)).
  - pose (h1 := (Zn.createFromN 5 ∅).2).
    match goal with
    | |- ring_ok ?h _ =>
        replace h with (<[fresh (dom h1) := OFVar (JNum 2)]> h1)
          by (vm_compute; reflexivity)
    end.
    apply ring_ok_insert_other.
    + eapply (createFromN_inv 5 ∅). vm_compute. reflexivity.
    + intros cs. by rewrite alloc_fresh.
  - vm_compute. reflexivity.
  - reflexivity.
  - lia.
  - apply (bool_decide_unpack _). by vm_compute.
Defined.

(** ** Failure leaves the heap as it was *)

Lemma never_error_ret {A} (a : A) : never_error (ret a).
Proof. by intros h msg h'. Qed.

Lemma never_error_throw_TypeError {A} : never_error (@throw A TypeError).
Proof. by intros h msg h'. Qed.

Lemma never_error_bind {A B} (c : M A) (k : A -> M B) :
  never_error c -> (forall a, never_error (k a)) -> never_error (bind c k).
Proof.
  intros Hc Hk h msg h'. unfold bind.
  destruct (c h) as [[a|e] h1] eqn:E; [apply Hk|].
  intros [= -> <-]. by eapply Hc.
Qed.

Lemma never_error_load l : never_error (load l).
Proof. by intros h msg h'. Qed.

Lemma never_error_store l o : never_error (store l o).
Proof. by intros h msg h'. Qed.


Lemma never_error_array_get l i : never_error (array_get l i).
Proof.
  apply never_error_bind; [apply never_error_load|].
  intros [[cs|v]|]; try apply never_error_throw_TypeError.
  destruct (i <? 0); apply never_error_ret.
Qed.

Lemma never_error_array_cells l : never_error (array_cells l).
Proof.
  apply never_error_bind; [apply never_error_load|].
  intros [[cs|v]|];
    apply never_error_throw_TypeError || apply never_error_ret.
Qed.

Lemma never_error_array_unshift l v : never_error (array_unshift l v).
Proof.
  apply never_error_bind; [apply never_error_load|].
  intros [[cs|v']|];
    apply never_error_throw_TypeError || apply never_error_store.
Qed.

Lemma never_error_deref c : never_error (deref c).
Proof.
  destruct c; apply never_error_throw_TypeError || apply never_error_ret.
Qed.

Lemma never_error_for_range start count body :
  (forall i, never_error (body i)) -> never_error (for_range start count body).
Proof.
  intros Hb. revert start. induction count as [|c IH]; intros start.
  - apply never_error_ret.
  - cbn [for_range]. apply never_error_bind; [apply Hb|]. intros _. apply IH.
Qed.

Lemma never_error_mapM {A B} (f : A -> M B) l :
  (forall a, never_error (f a)) -> never_error (mapM f l).
Proof.
  intros Hf. induction l as [|x t IH]; [apply never_error_ret|].
  cbn [mapM]. apply never_error_bind; [apply Hf|]. intros y.
  apply never_error_bind; [apply IH|]. intros r. apply never_error_ret.
Qed.

Lemma extends_readonly {A} (c : M A) : readonly c -> extends c.
Proof. intros Hc h. by rewrite Hc. Qed.

Lemma extends_alloc o : extends (alloc o).
Proof. intros h. apply alloc_subseteq. Qed.

Lemma extends_bind {A B} (c : M A) (k : A -> M B) :
  extends c -> (forall a, extends (k a)) -> extends (bind c k).
Proof.
  intros Hc Hk h. unfold bind. specialize (Hc h).
  destruct (c h) as [[a|e] h1]; [|done].
  etrans; [exact Hc|apply Hk].
Qed.

Lemma extends_mapM {A B} (f : A -> M B) l :
  (forall a, extends (f a)) -> extends (mapM f l).
Proof.
  intros Hf. induction l as [|x t IH]; [by intros h|].
  cbn [mapM]. apply extends_bind; [apply Hf|]. intros y.
  apply extends_bind; [apply IH|]. by intros r h.
Qed.

Lemma extends_cloneDeep_at depth l : extends (cloneDeep_at depth l).
Proof.
  revert l. induction depth as [|d IH]; intros l; [by intros h|].
  cbn [cloneDeep_at]. apply extends_bind; [by apply extends_readonly|].
  intros [[cs|v]|]; [|apply extends_alloc|by intros h].
  apply extends_bind; [|intros cs'; apply extends_alloc].
  apply extends_mapM. intros [v|r|s]; try by intros h.
  apply extends_bind; [apply IH|]. by intros r' h.
Qed.

Lemma extends_cloneDeep v : extends (cloneDeep v).
Proof.
  destruct v as [l|]; [|by intros h]. unfold cloneDeep.
  apply extends_bind; [apply extends_cloneDeep_at|]. by intros l' h.
Qed.






Lemma atomic_bind_never_error {A B} (c : M A) (k : A -> M B) :
  atomic c -> (forall a, never_error (k a)) -> atomic (bind c k).
Proof.
  intros Hc Hk h msg h'. unfold bind.
  destruct (c h) as [[a|e] h1] eqn:E.
  - intros E'. by apply Hk in E'.
  - intros [= -> <-]. by eapply Hc.
Qed.

Lemma readonly_get_value fv : readonly (FVar.get_value fv).
Proof. apply readonly_bind; [done|]. by intros [[cs|v]|]. Qed.





Lemma readonly_findAllInverseVariables z :
  readonly (Zn.findAllInverseVariables z).
Proof.
  apply readonly_mapM. intros x.
  apply readonly_bind; [apply readonly_findInverseVariable|]. done.
Qed.

Lemma readonly_findAllAdditiveInverseVariables z :
  readonly (Zn.findAllAdditiveInverseVariables z).
Proof.
  apply readonly_mapM. intros x.
  apply readonly_bind; [apply readonly_findAdditiveInverseVariable|]. done.
Qed.

Lemma readonly_call_Table Table rows : readonly (Zn.call_Table Table rows).
Proof.
  intros h. unfold Zn.call_Table. destruct rows as [|first rest]; [done|].
  destruct (length first =? 0)%nat; [done|].
  by destruct (forallb _ _).
Qed.

Lemma forallb_same_length (first : list cell) (rest : list (list cell)) :
  forallb (fun row => (length row =? length first)%nat) rest = true <->
  Forall (fun row => length row = length first) rest.
Proof.
  induction rest as [|row rest IH]; simpl.
  - split; [constructor|done].
  - rewrite andb_true_iff, IH, Nat.eqb_eq, Forall_cons. done.
Qed.

(** [Table(rows)] returns on rows of one width, and throws on any other
    rows; the check is made on what the rows are when it is called. *)
Lemma call_Table_ok Table (first : list cell) rest (h : heap) :
  length first <> 0%nat ->
  Forall (fun row => length row = length first) rest ->
  Zn.call_Table Table (first :: rest) h = (Ok (Table (first :: rest)), h).
Proof.
  intros Hf Hall. unfold Zn.call_Table.
  destruct (Nat.eqb_spec (length first) 0); [done|].
  cbn [forallb]. rewrite Nat.eqb_refl. cbn [andb].
  by rewrite (proj2 (forallb_same_length first rest) Hall).
Qed.

Lemma call_Table_ragged Table (first : list cell) rest (h : heap) :
  length first <> 0%nat ->
  ~ Forall (fun row => length row = length first) rest ->
  Zn.call_Table Table (first :: rest) h
  = (Throw (Error Zn.msg_table_cells), h).
Proof.
  intros Hf Hall. unfold Zn.call_Table.
  destruct (Nat.eqb_spec (length first) 0); [done|].
  cbn [forallb]. rewrite Nat.eqb_refl. cbn [andb].
  destruct (forallb _ rest) eqn:E; [|done].
  by apply forallb_same_length in E.
Qed.

Lemma readonly_getAllVariablesData Table ta ti z formatted :
  readonly (Zn.getAllVariablesData Table ta ti z formatted).
Proof.
  apply readonly_bind.
  - apply readonly_mapM. intros x.
    apply readonly_bind; [apply readonly_findAdditiveInverseVariable|].
    intros a. apply readonly_bind; [|done].
    destruct (decide (x <> 0)); [apply readonly_findInverseVariable|done].
  - intros d. destruct (negb formatted); [done|].
    apply readonly_bind; [apply readonly_call_Table|done].
Qed.






(** ** Copies of the tables *)

Lemma mapM_values (f : cell -> M cell) (vs : list jsval) h :
  (forall v, f (CVal v) = ret (CVal v)) ->
  mapM f (CVal <$> vs) h = (Ok (CVal <$> vs), h).
Proof.
  intros Hf. induction vs as [|v t IH]; [done|].
  rewrite fmap_cons. cbn [mapM]. rewrite Hf, bind_ret.
  by rewrite (bind_ok _ _ _ _ _ IH).
Qed.

Lemma cloneDeep_at_S d l :
  cloneDeep_at (S d) l =
    (let* o := load l in
     match o with
     | Some (OArray cs) =>
         let* cs' := mapM (fun c =>
                             match c with
                             | CRef r =>
                                 let* r' := cloneDeep_at d r in ret (CRef r')
                             | CVal _ | CStr _ => ret c
                             end) cs in
         alloc (OArray cs')
     | Some (OFVar v) => alloc (OFVar v)
     | None => throw TypeError
     end).
Proof. reflexivity. Qed.

(** The copy of one row. *)
Lemma cloneDeep_row (h : heap) r row :
  h !! r = Some (OArray (CVal <$> row)) ->
  cloneDeep_at 1 r h
  = (Ok (fresh (dom h)), <[fresh (dom h) := OArray (CVal <$> row)]> h).
Proof.
  intros Hr. cbn [cloneDeep_at]. unfold bind at 1, load. rewrite Hr.
  unfold bind at 1. by rewrite mapM_values.
Qed.

(** The copies of the rows of a table: fresh, pairwise distinct arrays with
    the contents of the rows. *)
Lemma cloneDeep_rows (h0 : heap) rows T :
  length rows = length T ->
  (forall k r row, rows !! k = Some r -> T !! k = Some row ->
     h0 !! r = Some (OArray (CVal <$> row))) ->
  forall h, h0 ⊆ h ->
  exists rows' h',
    mapM (fun c => match c with
                   | CRef r => let* r' := cloneDeep_at 1 r in ret (CRef r')
                   | CVal _ | CStr _ => ret c
                   end) (CRef <$> rows) h
      = (Ok (CRef <$> rows'), h') /\
    length rows' = length rows /\
    NoDup rows' /\
    h ⊆ h' /\
    (forall r, r ∈ rows' -> h !! r = None) /\
    (forall k r' row, rows' !! k = Some r' -> T !! k = Some row ->
       h' !! r' = Some (OArray (CVal <$> row))) /\
    (forall l, l ∉ rows' -> h' !! l = h !! l).
Proof.
  revert T. induction rows as [|r rows IH]; intros T Hlen Hrows h Hsub.
  - exists [], h. split_and!; try done.
    + apply NoDup_nil_2.
    + intros r Hr. by apply elem_of_nil in Hr.
  - destruct T as [|row T]; [done|].
    set (r1 := fresh (dom h)).
    set (h1 := <[r1 := OArray (CVal <$> row)]> h).
    assert (Hr1 : h !! r1 = None) by apply alloc_fresh.
    assert (Hsub1 : h ⊆ h1) by (by apply insert_subseteq).
    destruct (IH T) with (h := h1)
      as (rows' & h' & Erun & Hlen' & Hnd & Hsub' & Hfresh & Hcont & Hframe).
    { simpl in Hlen. lia. }
    { intros k r' row' Hk HT. by apply (Hrows (S k)). }
    { by etrans. }
    assert (Hnotin : r1 ∉ rows').
    { intros Hin. apply Hfresh in Hin. unfold h1 in Hin.
      by rewrite lookup_insert_eq in Hin. }
    exists (r1 :: rows'), h'. split_and!.
    + rewrite fmap_cons. cbn [mapM].
      assert (Hr : h !! r = Some (OArray (CVal <$> row))).
      { eapply lookup_weaken; [|exact Hsub]. by apply (Hrows 0%nat). }
      rewrite (bind_ok _ _ _ _ _
                 (bind_ok _ (fun r' => ret (CRef r')) _ _ _
                    (cloneDeep_row h r row Hr))).
      fold r1. fold h1. by rewrite (bind_ok _ _ _ _ _ Erun).
    + simpl. by rewrite Hlen'.
    + by constructor.
    + by etrans.
    + intros r' Hr'. apply elem_of_cons in Hr' as [->|Hin]; [done|].
      apply Hfresh in Hin. unfold h1 in Hin.
      destruct (decide (r' = r1)) as [->|Hne]; [done|].
      by rewrite lookup_insert_ne in Hin.
    + intros [|k] r' row' Hk HT; simpl in Hk, HT.
      * injection Hk as <-. injection HT as <-.
        rewrite Hframe by done. unfold h1. by rewrite lookup_insert_eq.
      * by eapply Hcont.
    + intros l Hl. apply not_elem_of_cons in Hl as [Hne Hni].
      rewrite Hframe by done. unfold h1. by rewrite lookup_insert_ne.
Qed.

(** [cloneDeep] of a table: a fresh table with fresh rows and the same
    entries; every object of the heap is as it was. *)
Lemma cloneDeep_table (h : heap) m rows T :
  table_in h m rows T ->
  exists t rows' h1,
    cloneDeep (Some m) h = (Ok (Some t), h1) /\
    h ⊆ h1 /\
    h !! t = None /\
    (forall r, r ∈ rows' -> h !! r = None) /\
    table_in h1 t rows' T.
Proof.
  intros (Hm & Hnd & Hni & Hlen & Hrows).
  destruct (cloneDeep_rows h rows T Hlen Hrows h)
    as (rows' & h' & Erun & Hlen' & Hnd' & Hsub' & Hfresh & Hcont & Hframe);
    [done|].
  set (t := fresh (dom h')).
  assert (Ht : h' !! t = None) by apply alloc_fresh.
  assert (Htr : t ∉ rows').
  { intros Hin. destruct (lookup_lt_is_Some_2 T 0) as [row HT].
    - apply list_elem_of_lookup in Hin as (k & Hk).
      apply lookup_lt_Some in Hk. lia.
    - apply list_elem_of_lookup in Hin as (k & Hk).
      destruct (lookup_lt_is_Some_2 T k) as [row' HT'].
      { apply lookup_lt_Some in Hk. lia. }
      rewrite (Hcont _ _ _ Hk HT') in Ht. done. }
  exists t, rows', (<[t := OArray (CRef <$> rows')]> h'). split_and!.
  - assert (E2 : cloneDeep_at 2 m h
                 = (Ok t, <[t := OArray (CRef <$> rows')]> h')).
    { rewrite cloneDeep_at_S. unfold bind at 1, load. rewrite Hm.
      by rewrite (bind_ok _ _ _ _ _ Erun). }
    unfold cloneDeep. by rewrite (bind_ok _ _ _ _ _ E2).
  - etrans; [exact Hsub'|]. by apply insert_subseteq.
  - destruct (h !! t) eqn:E; [|done].
    eapply lookup_weaken in E; [|exact Hsub']. congruence.
  - exact Hfresh.
  - split_and!; try done.
    + by rewrite lookup_insert_eq.
    + lia.
    + intros k r' row Hk HT.
      assert (r' <> t).
      { intros ->. apply Htr. by eapply list_elem_of_lookup_2. }
      rewrite lookup_insert_ne by done. by eapply Hcont.
Qed.

(** ** Writes through a copy *)

Lemma list_assign_refs cs i c r :
  CRef r ∈ list_assign cs i c -> CRef r ∈ cs \/ CRef r = c.
Proof.
  unfold list_assign. destruct (i <? length cs)%nat.
  - intros Hin. apply list_elem_of_lookup in Hin as (k & Hk).
    apply list_lookup_insert_Some in Hk as [(-> & <- & _)|(_ & Hk)].
    + by right.
    + left. by eapply list_elem_of_lookup_2.
  - rewrite !elem_of_app. intros [Hin|[Hin|Hin]].
    + by left.
    + by apply elem_of_replicate in Hin as [[=] _].
    + apply list_elem_of_singleton in Hin. by right.
Qed.

Lemma owned_store h0 hk t r o :
  owned h0 hk t ->
  h0 !! r = None ->
  (r = t -> forall cs' r', o = OArray cs' -> CRef r' ∈ cs' -> h0 !! r' = None) ->
  owned h0 (<[r := o]> hk) t.
Proof.
  intros (Hsub & Ht & Hrefs) Hr Hself. split_and!; [|done|].
  - by apply insert_subseteq_r.
  - intros cs r'. destruct (decide (r = t)) as [->|Hne].
    + rewrite lookup_insert_eq. intros [= ->]. by eapply Hself.
    + rewrite lookup_insert_ne by done. apply Hrefs.
Qed.

Lemma owned_fresh h0 hk t : owned h0 hk t -> h0 !! fresh (dom hk) = None.
Proof.
  intros (Hsub & _). destruct (h0 !! fresh (dom hk)) eqn:E; [|done].
  eapply lookup_weaken in E; [|exact Hsub]. by rewrite alloc_fresh in E.
Qed.

Lemma owned_ref h0 hk t cs r :
  owned h0 hk t -> hk !! t = Some (OArray cs) -> CRef r ∈ cs ->
  h0 !! r = None.
Proof. intros (_ & _ & Hrefs). apply Hrefs. Qed.

(** A write through [t] keeps every object of [h0], whether it returns or
    throws. *)
Lemma owned_mutate1 h0 hk t mu :
  owned h0 hk t -> owned h0 (mutate1 t mu hk).2 t.
Proof.
  intros Hown.
  destruct mu as [i j v|i row|i s|]; unfold mutate1.
  - unfold bind at 1, array_get at 1, bind at 1, load at 1.
    destruct (hk !! t) as [[cs|v']|] eqn:Et; try done.
    destruct (Z.ltb_spec (Z.of_nat i) 0); [lia|]. rewrite Nat2Z.id.
    cbn [ret]. destruct (cs !! i) as [[v'|r|s]|] eqn:Ec; try done.
    simpl default. cbn [deref]. rewrite bind_ret.
    unfold array_set, bind, load.
    destruct (hk !! r) as [[cs2|v']|] eqn:Er; try done.
    cbn [store snd].
    assert (Hin : CRef r ∈ cs) by (by eapply list_elem_of_lookup_2).
    apply owned_store; [done|by eapply owned_ref|].
    intros -> cs' r' [= <-] Hr'. rewrite Et in Er. injection Er as <-.
    apply list_assign_refs in Hr' as [Hr'|[=]]. by eapply owned_ref.
  - unfold bind at 1, alloc. set (r := fresh (dom hk)).
    assert (Hr : h0 !! r = None) by (by eapply owned_fresh).
    assert (Hown1 : owned h0 (<[r := OArray (CVal <$> row)]> hk) t).
    { apply owned_store; [done..|].
      intros _ cs' r' [= <-] Hr'.
      apply list_elem_of_fmap in Hr' as (? & [=] & _). }
    unfold array_set, bind, load.
    destruct (<[r := OArray (CVal <$> row)]> hk !! t) as [[cs|v']|] eqn:Et;
      try done.
    cbn [store snd]. apply owned_store; [done| |].
    { by destruct Hown as (_ & ? & _). }
    intros _ cs' r' [= <-] Hr'.
    apply list_assign_refs in Hr' as [Hr'|[= ->]]; [|done].
    by eapply owned_ref.
  - unfold bind at 1, array_get at 1, bind at 1, load at 1.
    destruct (hk !! t) as [[cs|v']|] eqn:Et; try done.
    destruct (Z.ltb_spec (Z.of_nat i) 0); [lia|]. rewrite Nat2Z.id.
    cbn [ret]. destruct (cs !! i) as [[v'|r|s']|] eqn:Ec; try done.
    simpl default. cbn [deref]. rewrite bind_ret.
    unfold array_unshift, bind, load.
    destruct (hk !! r) as [[cs2|v']|] eqn:Er; try done.
    cbn [store snd].
    assert (Hin : CRef r ∈ cs) by (by eapply list_elem_of_lookup_2).
    apply owned_store; [done|by eapply owned_ref|].
    intros -> cs' r' [= <-] Hr'. rewrite Et in Er. injection Er as <-.
    apply elem_of_cons in Hr' as [[=]|Hr']. by eapply owned_ref.
  - unfold bind, load.
    destruct (hk !! t) as [[cs|v']|] eqn:Et; try done.
    cbn [store snd]. apply owned_store; [done| |].
    + by destruct Hown as (_ & ? & _).
    + intros _ cs' r' [= <-] Hr'. by apply elem_of_nil in Hr'.
Qed.

Lemma owned_mutate_all h0 hk t mus :
  owned h0 hk t -> owned h0 (mutate_all t mus hk) t.
Proof.
  revert hk. induction mus as [|mu mus IH]; intros hk Hown; [done|].
  unfold mutate_all. cbn [foldl]. apply IH. by apply owned_mutate1.
Qed.

(** ** The ring does not depend on the copies *)

Lemma lookup_inverse_agree z x h h2 :
  ring_ok h z -> ring_ok h2 z ->
  (Zn.findInverseVariable z x h2).1 = (Zn.findInverseVariable z x h).1.
Proof.
  intros Hok Hok2.
  destruct (js_not x || strict_eq x (JNum 0)) eqn:G.
  { by rewrite !findInverseVariable_guard. }
  destruct (includes (Zn._variables z) x) eqn:I.
  2: { by rewrite !findInverseVariable_not_member. }
  apply includes_true in I as (k & -> & Hin).
  assert (k <> 0).
  { intros ->. by rewrite orb_true_r in G. }
  destruct (indexOf_member _ _ Hin) as (i & Hi & _).
  by rewrite (findInverseVariable_ok h z k i), (findInverseVariable_ok h2 z k i).
Qed.

Lemma lookup_additive_agree z x h h2 :
  ring_ok h z -> ring_ok h2 z ->
  (Zn.findAdditiveInverseVariable z x h2).1
  = (Zn.findAdditiveInverseVariable z x h).1.
Proof.
  intros Hok Hok2.
  destruct (not_provided x) eqn:G.
  { by rewrite !findAdditiveInverseVariable_guard. }
  destruct (includes (Zn._variables z) x) eqn:I.
  2: { by rewrite !findAdditiveInverseVariable_not_member. }
  apply includes_true in I as (k & -> & Hin).
  destruct (indexOf_member _ _ Hin) as (i & Hi & _).
  by rewrite (findAdditiveInverseVariable_ok h z k i),
             (findAdditiveInverseVariable_ok h2 z k i).
Qed.

Lemma ring_ok_entries z h h2 :
  ring_ok h z -> ring_ok h2 z ->
  (forall i j,
     table_entry h2 (Zn.addition (Zn._table z)) i j
     = table_entry h (Zn.addition (Zn._table z)) i j) /\
  (forall i j,
     table_entry h2 (Zn.multiply_ (Zn._table z)) i j
     = table_entry h (Zn.multiply_ (Zn._table z)) i j).
Proof.
  intros (la & lm & rowsA & rowsM & Ht & Hn & Hpos & Hta & Htm)
         (la2 & lm2 & rowsA2 & rowsM2 & Ht2 & _ & _ & Hta2 & Htm2).
  rewrite Ht in Ht2. injection Ht2 as <- <-.
  rewrite Ht. cbn [Zn.addition Zn.multiply_].
  split; intros i j.
  - by rewrite (table_in_entry _ _ _ _ _ _ Hta), (table_in_entry _ _ _ _ _ _ Hta2).
  - by rewrite (table_in_entry _ _ _ _ _ _ Htm), (table_in_entry _ _ _ _ _ _ Htm2).
Qed.

Lemma ring_ok_reads z h h2 :
  ring_ok h z -> ring_ok h2 z -> reads_entries_of z h h2.
Proof.
  intros Hok Hok2 Table bold.
  destruct (ring_ok_entries z h h2 Hok Hok2) as [Ha Hm].
  destruct Hok2 as (la & lm & rowsA & rowsM & Ht & Hn & Hpos & Hta & Htm).
  rewrite Ht in Ha, Hm. cbn [Zn.addition Zn.multiply_] in Ha, Hm.
  split.
  - destruct (cloneDeep_table h2 la rowsA _ Hta)
      as (t & rows' & h3 & E & _ & _ & _ & Htab3).
    exists t, h3. unfold Zn.getAdditionTable. rewrite Ht. cbn [Zn.addition].
    rewrite (bind_ok _ _ _ _ _ E). split; [done|]. intros i j.
    rewrite <- Ha.
    by rewrite (table_in_entry _ _ _ _ _ _ Hta), (table_in_entry _ _ _ _ _ _ Htab3).
  - destruct (cloneDeep_table h2 lm rowsM _ Htm)
      as (t & rows' & h3 & E & _ & _ & _ & Htab3).
    exists t, h3. unfold Zn.getMultiplyTable. rewrite Ht. cbn [Zn.multiply_].
    rewrite (bind_ok _ _ _ _ _ E). split; [done|]. intros i j.
    rewrite <- Hm.
    by rewrite (table_in_entry _ _ _ _ _ _ Htm), (table_in_entry _ _ _ _ _ _ Htab3).
Qed.

(** A heap that keeps every object of the heap of a ring is, for the ring
    and its elements, that heap. *)
Lemma unaffected_weaken z h h2 : ring_ok h z -> h ⊆ h2 -> unaffected z h h2.
Proof.
  intros Hok Hsub.
  assert (Hok2 : ring_ok h2 z) by (by eapply ring_ok_weaken).
  destruct (ring_ok_entries z h h2 Hok Hok2) as [Ha Hm].
  split_and!; try done.
  - by apply ring_ok_reads.
  - intros x. by apply lookup_inverse_agree.
  - intros x. by apply lookup_additive_agree.
  - intros l v x Hl.
    assert (Hl2 : h2 !! l = Some (OFVar v)) by (by eapply lookup_weaken).
    unfold same_outcome, bound. split; [|split; [|split]].
    + destruct (not_provided x) eqn:G.
      * unfold FVar.sum. rewrite G. cbn. by rewrite Hl, Hl2.
      * rewrite (FVar_sum_run z l h v x Hl G), (FVar_sum_run z l h2 v x Hl2 G).
        cbn. by rewrite !lookup_insert_eq.
    + destruct (not_provided x) eqn:G.
      * unfold FVar.subtract. rewrite G. cbn. by rewrite Hl, Hl2.
      * rewrite (FVar_subtract_run z l h v x Hl G),
                (FVar_subtract_run z l h2 v x Hl2 G).
        rewrite (lookup_additive_agree z x h h2 Hok Hok2).
        destruct (Zn.findAdditiveInverseVariable z x h).1; cbn.
        -- by rewrite !lookup_insert_eq.
        -- by rewrite Hl, Hl2.
    + destruct (not_provided x) eqn:G.
      * unfold FVar.multiply. rewrite G. cbn. by rewrite Hl, Hl2.
      * rewrite (FVar_multiply_run z l h v x Hl G),
                (FVar_multiply_run z l h2 v x Hl2 G).
        cbn. by rewrite !lookup_insert_eq.
    + destruct (not_provided x || strict_eq x (JNum 0)) eqn:G.
      * unfold FVar.divide. cbn [FVar._field Field.f0 Zn.field]. rewrite G. cbn.
        by rewrite Hl, Hl2.
      * rewrite (FVar_divide_run z l h v x Hl G),
                (FVar_divide_run z l h2 v x Hl2 G).
        rewrite (lookup_inverse_agree z x h h2 Hok Hok2).
        destruct (Zn.findInverseVariable z x h).1; cbn.
        -- by rewrite !lookup_insert_eq.
        -- by rewrite Hl, Hl2.
Qed.

(** What an unformatted read of a table returns and does. *)
Lemma raw_table_read (h : heap) z m rows T mus :
  ring_ok h z -> table_in h m rows T ->
  exists t h1,
    cloneDeep (Some m) h = (Ok (Some t), h1) /\
    h !! t = None /\
    (forall i j, table_entry h1 (Some t) i j = table_entry h (Some m) i j) /\
    unaffected z h (mutate_all t mus h1).
Proof.
  intros Hok Htab.
  destruct (cloneDeep_table h m rows T Htab)
    as (t & rows' & h1 & E & Hsub & Ht & Hfresh & Htab1).
  exists t, h1. split_and!; try done.
  - intros i j.
    by rewrite (table_in_entry _ _ _ _ _ _ Htab), (table_in_entry _ _ _ _ _ _ Htab1).
  - apply unaffected_weaken; [done|].
    assert (Hown : owned h h1 t).
    { split_and!; try done. intros cs r Hcs Hr.
      destruct Htab1 as (Hm1 & _). rewrite Hm1 in Hcs. injection Hcs as <-.
      apply list_elem_of_fmap in Hr as (r' & [= <-] & Hin). by apply Hfresh. }
    by destruct (owned_mutate_all h h1 t mus Hown) as (? & _).
Qed.

(** C7. [getAdditionTable(false)] and [getMultiplyTable(false)] return a
    table that is no object of the heap before the call and has the entries
    of the cached table; after any sequence of writes through the returned
    reference, every object of the heap before the call is as it was, the
    entries of both cached tables are the same and are what a later read
    returns, both inverse lookups return the same, and every arithmetic
    method of an element of the ring has the same outcome and leaves the
    same value. *)
Theorem table_copies_are_independent
    (Table : list (list cell) -> string) (bold : jsval -> string)
    z (h : heap) (mus : list mutation) :
  ring_ok h z ->
  (exists t h1,
     Zn.getAdditionTable Table bold z false h = (Ok (Zn.Raw (Some t)), h1) /\
     h !! t = None /\
     (forall i j, table_entry h1 (Some t) i j
                  = table_entry h (Zn.addition (Zn._table z)) i j) /\
     unaffected z h (mutate_all t mus h1)) /\
  (exists t h1,
     Zn.getMultiplyTable Table bold z false h = (Ok (Zn.Raw (Some t)), h1) /\
     h !! t = None /\
     (forall i j, table_entry h1 (Some t) i j
                  = table_entry h (Zn.multiply_ (Zn._table z)) i j) /\
     unaffected z h (mutate_all t mus h1)).
Proof.
  intros Hok.
  pose proof Hok as (la & lm & rowsA & rowsM & Ht & Hn & Hpos & Hta & Htm).
  split.
  - destruct (raw_table_read h z la rowsA _ mus Hok Hta)
      as (t & h1 & E & Hfr & Hent & Hun).
    exists t, h1. unfold Zn.getAdditionTable.
    rewrite Ht. cbn [Zn.addition]. by rewrite (bind_ok _ _ _ _ _ E).
  - destruct (raw_table_read h z lm rowsM _ mus Hok Htm)
      as (t & h1 & E & Hfr & Hent & Hun).
    exists t, h1. unfold Zn.getMultiplyTable.
    rewrite Ht. cbn [Zn.multiply_]. by rewrite (bind_ok _ _ _ _ _ E).
Qed.

Lemma table_copies_are_independent_witness :
  exists z h,
    Zn.createFromN 3 ∅ = (Ok z, h) /\
    exists t h1,
      Zn.getMultiplyTable (fun _ => EmptyString) (fun _ => EmptyString)
        z false h = (Ok (Zn.Raw (Some t)), h1) /\
      let h2 := mutate_all t [SetEntry 1 1 (JNum 99); Truncate] h1 in
      table_entry h1 (Some t) 1 1 = Some (CVal (JNum 1)) /\
      table_entry h2 (Some t) 1 1 = None /\
      table_entry h2 (Zn.multiply_ (Zn._table z)) 1 1 = Some (CVal (JNum 1)).
Proof.
  let v := eval vm_compute in (Zn.createFromN 3 ∅) in
  match v with
  | (Ok ?z, ?h) =>
      exists z, h; split; [vm_compute; reflexivity|];
      assert (Hok : ring_ok h z)
        by (eapply (createFromN_inv 3 ∅); vm_compute; reflexivity);
      destruct (table_copies_are_independent
                  (fun _ => EmptyString) (fun _ => EmptyString) z h
                  [SetEntry 1 1 (JNum 99); Truncate] Hok)
        as [_ (t & h1 & E & _ & _ & Hun)];
      exists t, h1; split; [exact E|];
      destruct Hun as (_ & _ & Hm & _ & _);
      cbv zeta; rewrite Hm;
      vm_compute in E; injection E as <- <-;
      vm_compute; done
  end.
Defined.

(** ** A formatted read *)

Lemma preserves_bind {A B} I (c : M A) (k : A -> M B) :
  preserves I c -> (forall a, preserves I (k a)) -> preserves I (bind c k).
Proof.
  intros Hc Hk h HI. unfold bind. specialize (Hc h HI).
  destruct (c h) as [[a|e] h1]; [by apply Hk|done].
Qed.

Lemma preserves_readonly {A} I (c : M A) : readonly c -> preserves I c.
Proof. intros Hc h HI. by rewrite Hc. Qed.

Lemma preserves_for_range I start count body :
  (forall i, preserves I (body i)) -> preserves I (for_range start count body).
Proof.
  intros Hb. revert start. induction count as [|c IH]; intros start.
  - by apply preserves_readonly.
  - cbn [for_range]. apply preserves_bind; [apply Hb|]. intros _. apply IH.
Qed.

Section FormattedRead.

Variable Table : list (list cell) -> string.
Variable bold : jsval -> string.

(** [formatTable] on a table that is no object of [h0] writes to that
    table, to its rows and to a new header only. *)
Lemma formatTable_owned h0 t variables :
  preserves (fun hk => owned h0 hk t)
            (Zn.formatTable Table bold (Some t) variables).
Proof.
  unfold Zn.formatTable. intros h1 Hown.
  unfold bind at 1, load at 1.
  destruct (h1 !! t) as [[[|c cs]|v]|] eqn:Et; try done.
  destruct variables as [[|v0 vt]|]; try done.
  set (vs := v0 :: vt). set (hd := fresh (dom h1)).
  set (o := OArray (CStr EmptyString ::
                    ((fun item => CStr (bold (JNum item))) <$> vs))).
  assert (Hhd : h0 !! hd = None) by (by eapply owned_fresh).
  assert (Hne : t <> hd).
  { intros ->. unfold hd in Et. by rewrite alloc_fresh in Et. }
  assert (Hown1 : owned h0 (<[hd := o]> h1) t).
  { apply owned_store; [done..|]. by intros ->. }
  assert (Hown2 : owned h0
            (<[t := OArray (CRef hd :: c :: cs)]> (<[hd := o]> h1)) t).
  { apply owned_store; [done|by destruct Hown as (_ & ? & _)|].
    intros _ cs' r' [= <-] Hr'.
    apply elem_of_cons in Hr' as [[= ->]|Hr']; [done|].
    by eapply (owned_ref h0 h1 t (c :: cs)). }
  unfold bind at 1, alloc. fold hd. fold o.
  unfold bind at 1, array_unshift at 1, bind at 1, load at 1.
  rewrite lookup_insert_ne by done. rewrite Et. cbn [store].
  revert Hown2. generalize (<[t := OArray (CRef hd :: c :: cs)]> (<[hd := o]> h1)).
  change (preserves (fun hk => owned h0 hk t)
    (let* _ :=
       for_range 1 (length vs) (fun i =>
         mutate1 t (UnshiftEntry i (bold (nth_number vs (Z.of_nat i - 1))))) in
     let* rows := Zn.read_rows t in
     Zn.call_Table Table rows)).
  apply preserves_bind.
  - apply preserves_for_range. intros i hk. apply owned_mutate1.
  - intros _. apply preserves_readonly.
    apply readonly_bind; [|apply readonly_call_Table]. unfold Zn.read_rows.
    apply readonly_bind; [apply readonly_array_cells|]. intros cells.
    apply readonly_mapM. intros c'.
    apply readonly_bind; [apply readonly_deref|]. intros r.
    apply readonly_array_cells.
Qed.

(** A read of a table of a ring, formatted or not, keeps every object of
    the heap: the ring writes to the copy only. *)
Lemma table_read_keeps_heap z (h : heap) formatted :
  ring_ok h z ->
  h ⊆ (Zn.getAdditionTable Table bold z formatted h).2 /\
  h ⊆ (Zn.getMultiplyTable Table bold z formatted h).2.
Proof.
  intros Hok.
  destruct formatted.
  2: { split; [apply (extends_bind _ _ (extends_cloneDeep _))
              |apply (extends_bind _ _ (extends_cloneDeep _))];
       by intros a h'. }
  pose proof Hok as (la & lm & rowsA & rowsM & Ht & Hn & Hpos & Hta & Htm).
  assert (Hread : forall m rows T, table_in h m rows T ->
    h ⊆ ((let* t := cloneDeep (Some m) in
          let* s := Zn.formatTable Table bold t (Some (Zn._variables z)) in
          ret (Zn.Formatted s)) h).2).
  { intros m rows T Htab.
    destruct (cloneDeep_table h m rows T Htab)
      as (t & rows' & h1 & E & Hsub & Hfr & Hfresh & Htab1).
    rewrite (bind_ok _ _ _ _ _ E).
    assert (Hown : owned h h1 t).
    { split_and!; try done. intros cs r Hcs Hr.
      destruct Htab1 as (Hm1 & _). rewrite Hm1 in Hcs. injection Hcs as <-.
      apply list_elem_of_fmap in Hr as (r' & [= <-] & Hin). by apply Hfresh. }
    assert (Hp : preserves (fun hk => owned h hk t)
              (let* s := Zn.formatTable Table bold (Some t)
                           (Some (Zn._variables z)) in
               ret (Zn.Formatted s))).
    { apply preserves_bind; [apply formatTable_owned|].
      intros s. by apply preserves_readonly. }
    by destruct (Hp h1 Hown) as (? & _). }
  unfold Zn.getAdditionTable, Zn.getMultiplyTable. rewrite Ht.
  cbn [Zn.addition Zn.multiply_]. split; eapply Hread; eassumption.
Qed.

End FormattedRead.

(** ** Failed calls *)







Section FailedCalls.

Variable Table : list (list cell) -> string.
Variable bold : jsval -> string.





End FailedCalls.





(** ** The arrays of the matrix *)

(** X1. The matrix that [operationTable] allocates with [fillArray] has a
    row object of its own for every row: the row references are pairwise
    distinct, none is an object of the heap before the call, each row holds
    [n] zeros, and every table and element that was in the heap before the
    call is as it was. *)
Theorem fillArray_matrix_rows_distinct (n : nat) (h : heap) :
  exists m rows h',
    utils.fillArray n (CVal JUndefined)
      (Some (let* r := utils.fillArray n (CVal (JNum 0)) None in
             ret (CRef r))) h = (Ok m, h') /\
    h' !! m = Some (OArray (CRef <$> rows)) /\
    length rows = n /\
    NoDup rows /\
    h !! m = None /\
    (forall r, r ∈ rows ->
       h !! r = None /\ r <> m /\
       h' !! r = Some (OArray (replicate n (CVal (JNum 0))))) /\
    h ⊆ h'.
Proof.
  destruct (alloc_rows n n (JNum 0) h)
    as (rows & h1 & Erows & Hlen & Hnd & Hsub & Hrows & Hfr).
  set (m := fresh (dom h1)).
  assert (Hm1 : h1 !! m = None) by apply alloc_fresh.
  assert (Hmrows : m ∉ rows).
  { intros Hin. destruct (Hrows m Hin) as [_ Hs]. congruence. }
  exists m, rows, (<[m := OArray (CRef <$> rows)]> h1). split_and!; try done.
  - unfold utils.fillArray at 1. by rewrite (bind_ok _ _ _ _ _ Erows).
  - by rewrite lookup_insert_eq.
  - rewrite <- (Hfr m) by done. exact Hm1.
  - intros r Hr. destruct (Hrows r Hr) as [Hn Hs].
    assert (r <> m) by (by intros ->).
    split_and!; try done. by rewrite lookup_insert_ne.
  - etrans; [exact Hsub|]. by apply insert_subseteq.
Qed.

(** ** The constructor and the convenience constructors *)

Lemma insert_asc_sorted x l :
  Sorted Z.le l -> Sorted Z.le (insert_asc x l).
Proof.
  induction l as [|y t IH]; intros Hs; simpl.
  - repeat constructor.
  - destruct (Z.leb_spec x y) as [Hle|Hlt].
    + constructor; [done|]. by constructor.
    + apply Sorted_inv in Hs as [Hs Hhd]. constructor; [by apply IH|].
      destruct t as [|z t]; simpl.
      * constructor. lia.
      * destruct (Z.leb_spec x z).
        -- constructor. lia.
        -- constructor. by apply HdRel_inv in Hhd.
Qed.

Lemma sort_asc_sorted l : Sorted Z.le (sort_asc l).
Proof.
  induction l as [|x t IH]; simpl; [constructor|]. by apply insert_asc_sorted.
Qed.

Lemma insert_asc_perm x l : insert_asc x l ≡ₚ x :: l.
Proof.
  induction l as [|y t IH]; simpl; [done|].
  destruct (x <=? y); [done|]. rewrite IH. apply Permutation_swap.
Qed.

Lemma sort_asc_perm l : sort_asc l ≡ₚ l.
Proof.
  induction l as [|x t IH]; simpl; [done|].
  by rewrite insert_asc_perm, IH.
Qed.

(** X2. The constructor throws the [Error] of its argument check on a
    missing and on an empty array, and so do [createFromN(n)] for [n < 1]
    and [createFromRange(from, to)] for [to < from]; the heap is as it
    was. *)
Theorem constructor_rejects_empty (h : heap) :
  Zn.new None h = (Throw (Error Zn.msg_variables), h) /\
  Zn.new (Some []) h = (Throw (Error Zn.msg_variables), h) /\
  (forall n, n < 1 ->
     Zn.createFromN n h = (Throw (Error Zn.msg_variables), h)) /\
  (forall from to, to < from ->
     Zn.createFromRange from to h = (Throw (Error Zn.msg_variables), h)).
Proof.
  split_and!; try done.
  - intros n Hn. unfold Zn.createFromN, utils.createIncreasingArray.
    by replace (Z.to_nat (n - 1 - 0 + 1)) with 0%nat by lia.
  - intros from to Hlt. unfold Zn.createFromRange, utils.createIncreasingArray.
    by replace (Z.to_nat (to - from + 1)) with 0%nat by lia.
Qed.

(** X3. On a non-empty array the constructor returns a ring whose
    representatives are the given integers sorted in ascending order
    (duplicates are kept), whose size is their number, and whose two tables
    have that many rows; every table and element that was in the heap
    before the call is as it was. *)
Theorem constructor_sorts_representatives vs (h : heap) :
  vs <> [] ->
  exists z h',
    Zn.new (Some vs) h = (Ok z, h') /\
    Sorted Z.le (Zn._variables z) /\
    Zn._variables z ≡ₚ vs /\
    Zn._n z = length vs /\
    table_rows h' (Zn.addition (Zn._table z)) = Some (length vs) /\
    table_rows h' (Zn.multiply_ (Zn._table z)) = Some (length vs) /\
    h ⊆ h'.
Proof.
  intros Hvs.
  destruct (new_spec vs h Hvs) as (z & h' & E & Hsub & Hv & Hn & Hok).
  exists z, h'. rewrite Hv. split_and!; try done.
  - apply sort_asc_sorted.
  - apply sort_asc_perm.
  - destruct Hok as (la & lm & rowsA & rowsM & Ht & _ & _ & Hta & _).
    rewrite Ht. cbn [Zn.addition table_rows].
    destruct Hta as (Hma & _ & _ & Hlena & _). rewrite Hma, length_fmap, Hlena.
    destruct (dims_index_table (sum_idx (Zn._n z)) (Zn._n z)) as [-> _].
    by rewrite Hn.
  - destruct Hok as (la & lm & rowsA & rowsM & Ht & _ & _ & _ & Htm).
    rewrite Ht. cbn [Zn.multiply_ table_rows].
    destruct Htm as (Hma & _ & _ & Hlena & _). rewrite Hma, length_fmap, Hlena.
    destruct (dims_index_table (multiply_idx (Zn._n z)) (Zn._n z)) as [-> _].
    by rewrite Hn.
Qed.

Lemma constructor_sorts_representatives_witness :
  exists z h',
    Zn.new (Some [4; 9; 2; 4]) ∅ = (Ok z, h') /\
    Zn._variables z = [2; 4; 4; 9] /\
    Zn._n z = 4%nat.
Proof.
  destruct (constructor_sorts_representatives [4; 9; 2; 4] ∅ ltac:(done))
    as (z & h' & E & _ & _ & Hn & _).
  exists z, h'. split; [exact E|]. split; [|exact Hn].
  vm_compute in E. by injection E as <- _.
Defined.



(** ** The static operations and [operationTable] *)

(** X5. For integers [n], [a] and [b] of the exact range, up to 2^53 in
    absolute value, and [n] other than 0: when [a + b] is in the exact
    range too, [Z.sum(n, a, b)] returns an integer that is congruent to
    [a + b] modulo [n], smaller than [n] in absolute value, and of the
    sign of [a + b] (between 0 and [|n| - 1] when that is not negative, not
    positive when it is negative); and so does [Z.multiply(n, a, b)] for
    [a * b] when [a * b] is in the exact range.  Outside that range the
    engine rounds the sum or the product before it takes the remainder. *)
Theorem static_sum_multiply_integers n a b :
  n <> 0 -> exact_integer n -> exact_integer a -> exact_integer b ->
  (exact_integer (a + b) ->
   exists r,
     Zn.static_sum (JNum n) (JNum a) (JNum b) = JNum r /\
     (n | a + b - r) /\ Z.abs r < Z.abs n /\
     (0 <= a + b -> 0 <= r) /\ (a + b < 0 -> r <= 0)) /\
  (exact_integer (a * b) ->
   exists r,
     Zn.static_multiply (JNum n) (JNum a) (JNum b) = JNum r /\
     (n | a * b - r) /\ Z.abs r < Z.abs n /\
     (0 <= a * b -> 0 <= r) /\ (a * b < 0 -> r <= 0)).
Proof.
  intros Hn _ _ _.
  assert (Hrem : forall c,
    (n | c - Z.rem c n) /\ Z.abs (Z.rem c n) < Z.abs n /\
    (0 <= c -> 0 <= Z.rem c n) /\ (c < 0 -> Z.rem c n <= 0)).
  { intros c. split_and!.
    - exists (Z.quot c n). pose proof (Z.quot_rem' c n). lia.
    - by apply Z.rem_bound_abs.
    - intros Hc. by apply Z.rem_nonneg.
    - intros Hc. apply Z.rem_nonpos; [done|lia]. }
  unfold Zn.static_sum, Zn.static_multiply, js_rem, js_add, js_mul. simpl.
  destruct (Z.eqb_spec n 0); [done|].
  split; intros _; eexists; (split; [reflexivity|apply Hrem]).
Qed.

Lemma static_sum_multiply_integers_witness :
  exists r,
    Zn.static_sum (JNum 7) (JNum (-5)) (JNum (-5)) = JNum r /\
    Z.abs r < Z.abs 7 /\ r <= 0.
Proof.
  assert (He : forall z, Z.abs z <= 10 -> exact_integer z).
  { intros z Hz. unfold exact_integer. etrans; [exact Hz|by vm_compute]. }
  destruct (static_sum_multiply_integers 7 (-5) (-5) ltac:(lia)
              (He 7 ltac:(lia)) (He (-5) ltac:(lia)) (He (-5) ltac:(lia)))
    as [Hsum _].
  destruct (Hsum (He (-5 + -5) ltac:(lia))) as (r & E & _ & Hr & _ & Hneg).
  exists r. exact (conj E (conj Hr (Hneg ltac:(lia)))).
Defined.

(** X6. [Z.sum] and [Z.multiply] do not depend on the order of the two
    operands, and they return [NaN] whenever the modulus is 0 or one of the
    operands or the modulus is [undefined] or [NaN]. *)
Theorem static_sum_multiply_NaN n a b :
  Zn.static_sum n a b = Zn.static_sum n b a /\
  Zn.static_multiply n a b = Zn.static_multiply n b a /\
  (to_number n = Some 0 \/ to_number n = None \/
   to_number a = None \/ to_number b = None ->
   Zn.static_sum n a b = JNaN /\ Zn.static_multiply n a b = JNaN).
Proof.
  unfold Zn.static_sum, Zn.static_multiply, js_rem, js_add, js_mul.
  split_and!.
  - destruct (to_number a), (to_number b); simpl; try done.
    by rewrite Z.add_comm.
  - destruct (to_number a), (to_number b); simpl; try done.
    by rewrite Z.mul_comm.
  - intros H.
    destruct (to_number a) as [x|], (to_number b) as [y|],
             (to_number n) as [m|]; simpl; try done;
      destruct H as [[= ->]|[?|[?|?]]]; done.
Qed.

(** X7. [operationTable] throws the [Error] of its first check on a missing
    or empty array and that of its second check on a missing operation, the
    heap being as it was.  For a non-empty array of [n] numbers and an
    operation without effects it returns a table that is no object of the
    heap before the call and has [n] rows; its entry [(i, j)] is the
    operation applied to the smaller and the larger of the indices [i] and
    [j] (not to the numbers of the array), so the table is symmetric
    whatever the operation; every table and element that was in the heap
    before the call is as it was. *)
Theorem operationTable_contents vs (f : jsval -> jsval -> jsval) (h : heap) :
  (forall op, Zn.operationTable None op h
              = (Throw (Error Zn.msg_variables), h)) /\
  (forall op, Zn.operationTable (Some []) op h
              = (Throw (Error Zn.msg_variables), h)) /\
  (vs <> [] ->
   Zn.operationTable (Some vs) None h = (Throw (Error Zn.msg_operation), h) /\
   exists m h',
     Zn.operationTable (Some vs) (Some (fun a b => ret (f a b))) h
       = (Ok m, h') /\
     h !! m = None /\
     h ⊆ h' /\
     table_rows h' (Some m) = Some (length vs) /\
     forall i j : nat, (i < length vs)%nat -> (j < length vs)%nat ->
       table_entry h' (Some m) i j
       = Some (CVal (f (JNum (Z.of_nat (i `min` j)))
                       (JNum (Z.of_nat (i `max` j))))) /\
       table_entry h' (Some m) i j = table_entry h' (Some m) j i).
Proof.
  split_and!; try done.
  intros Hvs. split; [by destruct vs|].
  destruct (operationTable_spec vs (fun a b => ret (f a b)) f h Hvs)
    as (m & rows & h' & E & Hsub & Hm & Htab); [done|].
  exists m, h'. split_and!; try done.
  - destruct Htab as (Hm' & _ & _ & Hlen & _). cbn [table_rows].
    rewrite Hm', length_fmap, Hlen.
    by destruct (dims_index_table
      (fun i j => f (JNum (Z.of_nat i)) (JNum (Z.of_nat j))) (length vs)) as [-> _].
  - intros i j Hi Hj.
    rewrite !(table_in_entry _ _ _ _ _ _ Htab).
    rewrite !entry_index_table by done.
    by rewrite (Nat.min_comm j i), (Nat.max_comm j i).
Qed.

Lemma operationTable_contents_witness :
  exists m h',
    Zn.operationTable (Some [5; 6; 7])
      (Some (fun a b => ret (js_add a (js_mul (JNum 10) b)))) ∅ = (Ok m, h') /\
    table_entry h' (Some m) 2 1 = Some (CVal (JNum 21)) /\
    table_entry h' (Some m) 1 2 = Some (CVal (JNum 21)).
Proof.
  destruct (operationTable_contents [5; 6; 7]
              (fun a b => js_add a (js_mul (JNum 10) b)) ∅)
    as (_ & _ & Hok).
  destruct (Hok ltac:(done)) as (_ & m & h' & E & _ & _ & _ & Hent).
  exists m, h'. split; [exact E|].
  split.
  - by destruct (Hent 2%nat 1%nat ltac:(simpl; lia) ltac:(simpl; lia)) as [-> _].
  - by destruct (Hent 1%nat 2%nat ltac:(simpl; lia) ltac:(simpl; lia)) as [-> _].
Defined.

(** ** The inverse lookups on any constructed ring *)

(** What [row.findIndex(r => r === target)] followed by [variables[index]]
    gives on a row as long as the array of the variables. *)
Lemma found_in_row_spec vars (row : list jsval) target :
  length row = length vars ->
  (found_in_row vars row target = JUndefined /\
   forall (j : nat) v, row !! j = Some v -> strict_eq v target = false) \/
  (exists (j : nat) v y,
     row !! j = Some v /\ strict_eq v target = true /\
     vars !! j = Some y /\
     found_in_row vars row target = JNum y /\
     forall (j' : nat) v', (j' < j)%nat -> row !! j' = Some v' ->
       strict_eq v' target = false).
Proof.
  intros Hlen. unfold found_in_row.
  destruct (findIndex_spec (fun v => strict_eq v target) row)
    as [[-> Hall]|(j & v & -> & Hj & Hp & Hbefore)].
  - left. split; [done|]. intros j v Hj.
    apply Hall. by eapply list_elem_of_lookup_2.
  - right.
    destruct (lookup_lt_is_Some_2 vars j) as [y Hy].
    { rewrite <- Hlen. by eapply lookup_lt_Some. }
    exists j, v, y. split_and!; try done.
    destruct (Z.eqb_spec (Z.of_nat j) (-1)); [lia|].
    unfold nth_number. destruct (Z.ltb_spec (Z.of_nat j) 0); [lia|].
    by rewrite Nat2Z.id, Hy.
Qed.

(** An index has a partner with product 1 modulo [n] exactly when it is
    coprime to [n] and [n] is more than 1. *)
Lemma unit_index_iff n k :
  0 < n -> 0 <= k ->
  (exists j, 0 <= j < n /\ (k * j) mod n = 1) <-> (1 < n /\ Z.gcd k n = 1).
Proof.
  intros Hn Hk. split.
  - intros (j & Hj & Hm).
    assert (1 < n).
    { destruct (Z.eq_dec n 1) as [->|]; [|lia]. by rewrite Z.mod_1_r in Hm. }
    split; [done|].
    apply Z.divide_1_r_nonneg; [apply Z.gcd_nonneg|].
    pose proof (Z.div_mod (k * j) n ltac:(lia)) as Hdm. rewrite Hm in Hdm.
    replace 1 with (k * j - n * (k * j / n)) by lia.
    apply Z.divide_sub_r.
    + apply Z.divide_mul_l, Z.gcd_divide_l.
    + apply Z.divide_mul_l, Z.gcd_divide_r.
  - intros [Hn1 Hg].
    destruct (Z.Bezout_coprime k n Hg) as (u & v & Huv).
    exists (u mod n). split; [apply Z.mod_pos_bound; lia|].
    rewrite Z.mul_mod_idemp_r by lia.
    replace (k * u) with (1 + (- v) * n) by lia.
    rewrite Z.mod_add by lia. by rewrite Z.mod_small by lia.
Qed.

(** The multiplicative lookup on a constructed ring, for a member [x <> 0]
    whose first position in the array of the variables is [k]: the variable
    at the first position [j] with [(k * j) mod n = 1], or [undefined] when
    there is no such position. *)
Lemma findInverseVariable_index h z x (k : nat) :
  ring_ok h z -> x <> 0 -> x ∈ Zn._variables z ->
  indexOf (Zn._variables z) (JNum x) = Z.of_nat k ->
  let n := Z.of_nat (Zn._n z) in
  (Zn.findInverseVariable z (JNum x) h = (Ok JUndefined, h) /\
   forall j, 0 <= j < n -> (Z.of_nat k * j) mod n <> 1) \/
  (exists (j : nat) y,
     Zn.findInverseVariable z (JNum x) h = (Ok (JNum y), h) /\
     Zn._variables z !! j = Some y /\
     (Z.of_nat k * Z.of_nat j) mod n = 1 /\
     forall j', 0 <= j' < Z.of_nat j -> (Z.of_nat k * j') mod n <> 1).
Proof.
  intros Hok Hx Hin Hk n.
  rewrite (findInverseVariable_ok h z x k Hok Hx Hin Hk).
  destruct (ring_ok_member_index _ _ _ _ Hok Hin Hk) as [Hlt _].
  destruct Hok as (la & lm & rowsA & rowsM & _ & Hn & Hpos & _).
  set (row := index_row (multiply_idx (Zn._n z)) (Zn._n z) k).
  assert (Hrow : forall j : nat, (j < Zn._n z)%nat ->
            row !! j = Some (JNum ((Z.of_nat k * Z.of_nat j) mod n))).
  { intros j Hj. by apply index_row_multiply. }
  destruct (found_in_row_spec (Zn._variables z) row (JNum 1))
    as [[-> Hall]|(j & v & y & Hj & Hp & Hy & -> & Hbefore)].
  { unfold row. by rewrite length_index_row. }
  - left. split; [done|]. intros j Hj Hm.
    specialize (Hall (Z.to_nat j) _ (Hrow (Z.to_nat j) ltac:(lia))).
    rewrite Z2Nat.id in Hall by lia. rewrite Hm in Hall. done.
  - right. exists j, y.
    assert (Hjn : (j < Zn._n z)%nat).
    { rewrite Hn. by eapply lookup_lt_Some. }
    rewrite Hrow in Hj by done. injection Hj as <-.
    simpl in Hp. apply Z.eqb_eq in Hp.
    split_and!; try done.
    intros j' Hj' Hm.
    specialize (Hbefore (Z.to_nat j') _ ltac:(lia)
                  (Hrow (Z.to_nat j') ltac:(lia))).
    rewrite Z2Nat.id in Hbefore by lia. rewrite Hm in Hbefore. done.
Qed.

(** The additive lookup on a constructed ring, for a member whose first
    position in the array of the variables is [k]: the variable at position
    [(n - k) mod n]. *)
Lemma findAdditiveInverseVariable_index h z x (k : nat) :
  ring_ok h z -> x ∈ Zn._variables z ->
  indexOf (Zn._variables z) (JNum x) = Z.of_nat k ->
  let n := Z.of_nat (Zn._n z) in
  exists y,
    Zn.findAdditiveInverseVariable z (JNum x) h = (Ok (JNum y), h) /\
    Zn._variables z !! Z.to_nat ((n - Z.of_nat k) mod n) = Some y.
Proof.
  intros Hok Hin Hk n.
  rewrite (findAdditiveInverseVariable_ok h z x k Hok Hin Hk).
  destruct (ring_ok_member_index _ _ _ _ Hok Hin Hk) as [Hlt _].
  destruct Hok as (la & lm & rowsA & rowsM & _ & Hn & Hpos & _).
  set (row := index_row (sum_idx (Zn._n z)) (Zn._n z) k).
  assert (Hrow : forall j : nat, (j < Zn._n z)%nat ->
            row !! j = Some (JNum ((Z.of_nat k + Z.of_nat j) mod n))).
  { intros j Hj. by apply index_row_sum. }
  pose proof (Z.mod_pos_bound (n - Z.of_nat k) n ltac:(lia)) as Hb.
  assert (Hzero : (Z.of_nat k + (n - Z.of_nat k) mod n) mod n = 0).
  { rewrite Z.add_mod_idemp_r by lia.
    replace (Z.of_nat k + (n - Z.of_nat k)) with (1 * n) by lia.
    apply Z.mod_mul. lia. }
  destruct (found_in_row_spec (Zn._variables z) row (JNum 0))
    as [[-> Hall]|(j & v & y & Hj & Hp & Hy & -> & Hbefore)].
  { unfold row. by rewrite length_index_row. }
  - exfalso.
    specialize (Hall (Z.to_nat ((n - Z.of_nat k) mod n)) _
                  (Hrow (Z.to_nat ((n - Z.of_nat k) mod n)) ltac:(lia))).
    rewrite Z2Nat.id in Hall by lia. rewrite Hzero in Hall. done.
  - exists y. split; [done|].
    assert (Hjn : (j < Zn._n z)%nat).
    { rewrite Hn. by eapply lookup_lt_Some. }
    rewrite Hrow in Hj by done. injection Hj as <-.
    simpl in Hp. apply Z.eqb_eq in Hp.
    assert (Z.of_nat j = (n - Z.of_nat k) mod n) as Hjeq.
    { destruct (Z.eq_dec (Z.of_nat k) 0) as [Hk0|Hk0].
      - rewrite Hk0 in *. rewrite Z.sub_0_r, Z.mod_same by lia.
        rewrite Z.mod_small in Hp by lia. lia.
      - rewrite (Z.mod_small (n - Z.of_nat k)) by lia.
        destruct (Z.lt_ge_cases (Z.of_nat k + Z.of_nat j) n) as [Hs|Hs].
        + rewrite Z.mod_small in Hp by lia. lia.
        + replace (Z.of_nat k + Z.of_nat j)
            with ((Z.of_nat k + Z.of_nat j - n) + 1 * n) in Hp by lia.
          rewrite Z.mod_add, Z.mod_small in Hp by lia. lia. }
    by rewrite <- Hjeq, Nat2Z.id.
Qed.

(** X8. On a constructed ring, [findInverseVariable(v)] has one of three
    outcomes, the heap being as it was in each: the [Error] of its first
    check when [v] is falsy or 0; the [Error] of its second check when [v]
    is no member of the ring; and for a member [x <> 0] a result that is
    [undefined] or a member of the ring.  It never throws anything else. *)
Theorem findInverseVariable_outcome h z v :
  ring_ok h z ->
  (js_not v || strict_eq v (JNum 0) = true /\
   Zn.findInverseVariable z v h
   = (Throw (Error Zn.msg_variable_nonzero), h)) \/
  (js_not v || strict_eq v (JNum 0) = false /\
   includes (Zn._variables z) v = false /\
   Zn.findInverseVariable z v h = (Throw (Error Zn.msg_not_included), h)) \/
  (exists x,
     v = JNum x /\ x <> 0 /\ x ∈ Zn._variables z /\
     (Zn.findInverseVariable z v h = (Ok JUndefined, h) \/
      exists y, y ∈ Zn._variables z /\
        Zn.findInverseVariable z v h = (Ok (JNum y), h))).
Proof.
  intros Hok.
  destruct (js_not v || strict_eq v (JNum 0)) eqn:Eg.
  { left. split; [done|]. by apply findInverseVariable_guard. }
  right.
  destruct (includes (Zn._variables z) v) eqn:Ei.
  2: { left. split_and!; try done. by apply findInverseVariable_not_member. }
  right. apply includes_true in Ei as (x & -> & Hin).
  assert (Hx : x <> 0).
  { intros ->. by rewrite orb_true_r in Eg. }
  exists x. split_and!; try done.
  destruct (indexOf_member _ _ Hin) as (k & Hk & _).
  destruct (findInverseVariable_index h z x k Hok Hx Hin Hk)
    as [[E _]|(j & y & E & Hy & _)]; [by left|].
  right. exists y. split; [|done]. by eapply list_elem_of_lookup_2.
Qed.

Lemma findInverseVariable_outcome_witness :
  exists z h,
    Zn.new (Some [9; 2; 4]) ∅ = (Ok z, h) /\
    Zn.findInverseVariable z (JNum 7) h
    = (Throw (Error Zn.msg_not_included), h).
Proof.
  destruct (new_spec [9; 2; 4] ∅ ltac:(done)) as (z & h & E & _ & Hv & _ & Hok).
  exists z, h. split; [exact E|].
  destruct (findInverseVariable_outcome h z (JNum 7) Hok)
    as [[Hg _]|[(_ & _ & Ht)|(x & [= <-] & _ & Hin & _)]].
  - discriminate Hg.
  - exact Ht.
  - exfalso. rewrite Hv in Hin. revert Hin.
    change (7 ∉ sort_asc [9; 2; 4]).
    apply (bool_decide_unpack _). by vm_compute.
Defined.

(** X9. On a constructed ring of size [n], the multiplicative lookup works
    on positions, not on the variables: for a member [x <> 0] whose first
    position in the sorted array is [k], [findInverseVariable(x)] returns
    the variable at the first position [j] with [(k * j) mod n = 1]; such a
    position exists exactly when [n > 1] and [k] is coprime to [n], and the
    method returns [undefined] otherwise. *)
Theorem findInverseVariable_by_position h z x (k : nat) :
  ring_ok h z -> x <> 0 -> x ∈ Zn._variables z ->
  indexOf (Zn._variables z) (JNum x) = Z.of_nat k ->
  let n := Z.of_nat (Zn._n z) in
  (1 < n /\ Z.gcd (Z.of_nat k) n = 1 ->
   exists (j : nat) y,
     Zn.findInverseVariable z (JNum x) h = (Ok (JNum y), h) /\
     Zn._variables z !! j = Some y /\
     (Z.of_nat k * Z.of_nat j) mod n = 1 /\
     forall j', 0 <= j' < Z.of_nat j -> (Z.of_nat k * j') mod n <> 1) /\
  (~ (1 < n /\ Z.gcd (Z.of_nat k) n = 1) ->
   Zn.findInverseVariable z (JNum x) h = (Ok JUndefined, h)).
Proof.
  intros Hok Hx Hin Hk n.
  assert (Hpos : 0 < n).
  { destruct Hok as (? & ? & ? & ? & _ & _ & Hpos & _). unfold n. lia. }
  pose proof (unit_index_iff n (Z.of_nat k) Hpos ltac:(lia)) as Hiff.
  destruct (findInverseVariable_index h z x k Hok Hx Hin Hk)
    as [[E Hnone]|(j & y & E & Hy & Hm & Hfirst)].
  - split; [|done]. intros Hc. apply Hiff in Hc as (j & Hj & Hm).
    by destruct (Hnone j Hj).
  - split; [intros _; by exists j, y|].
    intros Hc. exfalso. apply Hc, Hiff. exists (Z.of_nat j). split; [|done].
    apply lookup_lt_Some in Hy.
    destruct Hok as (? & ? & ? & ? & _ & Hn & _). unfold n. lia.
Qed.

Lemma findInverseVariable_by_position_witness :
  exists z h,
    Zn.new (Some [10; 20; 30; 40]) ∅ = (Ok z, h) /\
    Zn.findInverseVariable z (JNum 40) h = (Ok (JNum 40), h) /\
    Zn.findInverseVariable z (JNum 30) h = (Ok JUndefined, h).
Proof.
  destruct (new_spec [10; 20; 30; 40] ∅ ltac:(done))
    as (z & h & E & _ & Hv & Hn & Hok).
  exists z, h. split; [exact E|].
  assert (H40 : 40 ∈ Zn._variables z).
  { rewrite Hv. apply (bool_decide_unpack _). by vm_compute. }
  assert (H30 : 30 ∈ Zn._variables z).
  { rewrite Hv. apply (bool_decide_unpack _). by vm_compute. }
  split.
  - destruct (findInverseVariable_by_position h z 40 3 Hok ltac:(lia) H40
                ltac:(by rewrite Hv)) as [Hdef _].
    rewrite Hn in Hdef.
    destruct (Hdef (conj eq_refl eq_refl)) as (j & y & Ey & Hy & Hm & _).
    rewrite Ey. rewrite Hv in Hy.
    assert (j = 3%nat) as ->.
    { apply lookup_lt_Some in Hy as Hlt. simpl in Hlt, Hm.
      destruct j as [|[|[|[|j]]]]; try done; simpl in Hlt; lia. }
    by injection Hy as <-.
  - destruct (findInverseVariable_by_position h z 30 2 Hok ltac:(lia) H30
                ltac:(by rewrite Hv)) as [_ Hund].
    rewrite Hn in Hund. apply Hund. intros [_ Hg]. by vm_compute in Hg.
Defined.

(** X10. On a constructed ring of size [n], [findAdditiveInverseVariable(v)]
    throws the [Error] of its first check when [v] is falsy and not 0, that
    of its second check when [v] is no member, and for a member whose first
    position in the sorted array is [k] it returns the variable at position
    [(n - k) mod n]: never [undefined], and a value fixed by the position
    of the variable alone.  The heap is as it was in each case. *)
Theorem findAdditiveInverseVariable_outcome h z v :
  ring_ok h z ->
  let n := Z.of_nat (Zn._n z) in
  (not_provided v = true /\
   Zn.findAdditiveInverseVariable z v h = (Throw (Error Zn.msg_variable), h)) \/
  (not_provided v = false /\
   includes (Zn._variables z) v = false /\
   Zn.findAdditiveInverseVariable z v h
   = (Throw (Error Zn.msg_not_included), h)) \/
  (exists x (k : nat) y,
     v = JNum x /\
     indexOf (Zn._variables z) v = Z.of_nat k /\
     Zn._variables z !! k = Some x /\
     Zn._variables z !! Z.to_nat ((n - Z.of_nat k) mod n) = Some y /\
     Zn.findAdditiveInverseVariable z v h = (Ok (JNum y), h)).
Proof.
  intros Hok n.
  destruct (not_provided v) eqn:Eg.
  { left. split; [done|]. by apply findAdditiveInverseVariable_guard. }
  right.
  destruct (includes (Zn._variables z) v) eqn:Ei.
  2: { left. split_and!; try done.
       by apply findAdditiveInverseVariable_not_member. }
  right. apply includes_true in Ei as (x & -> & Hin).
  destruct (indexOf_member _ _ Hin) as (k & Hk & Hkx).
  destruct (findAdditiveInverseVariable_index h z x k Hok Hin Hk)
    as (y & E & Hy).
  by exists x, k, y.
Qed.

Lemma findAdditiveInverseVariable_outcome_witness :
  exists z h,
    Zn.new (Some [10; 20; 30; 40]) ∅ = (Ok z, h) /\
    Zn.findAdditiveInverseVariable z (JNum 20) h = (Ok (JNum 40), h).
Proof.
  destruct (new_spec [10; 20; 30; 40] ∅ ltac:(done))
    as (z & h & E & _ & Hv & Hn & Hok).
  exists z, h. split; [exact E|].
  destruct (findAdditiveInverseVariable_outcome h z (JNum 20) Hok)
    as [[Hg _]|[(_ & Hi & _)|(x & k & y & _ & Hk & _ & Hy & Ey)]].
  - discriminate Hg.
  - rewrite Hv in Hi. discriminate Hi.
  - rewrite Ey. rewrite Hv in Hk, Hy. rewrite Hn in Hy.
    assert (k = 1%nat) as -> by (change (1 = Z.of_nat k) in Hk; lia).
    by injection Hy as <-.
Defined.

(** The two lookups on a ring whose variables are [0, ..., n - 1], where
    every variable is its own position. *)
Lemma additive_lookup_canonical h z n x :
  ring_ok h z ->
  Zn._variables z = utils.createIncreasingArray 0 (n - 1) ->
  Z.of_nat (Zn._n z) = n -> 0 <= x < n ->
  Zn.findAdditiveInverseVariable z (JNum x) h
  = (Ok (JNum ((n - x) mod n)), h).
Proof.
  intros Hok Hv Hn Hx.
  assert (Hin : x ∈ Zn._variables z).
  { rewrite Hv. apply elem_of_createIncreasingArray. lia. }
  assert (Hidx : indexOf (Zn._variables z) (JNum x) = Z.of_nat (Z.to_nat x)).
  { rewrite Hv, indexOf_increasing by lia. lia. }
  destruct (findAdditiveInverseVariable_index h z x _ Hok Hin Hidx)
    as (y & Ey & Hy).
  rewrite Ey. rewrite Hn, (Z2Nat.id x) in Hy by lia.
  pose proof (Z.mod_pos_bound (n - x) n ltac:(lia)).
  rewrite Hv, createIncreasingArray_lookup in Hy by lia.
  injection Hy as <-. do 3 f_equal. lia.
Qed.

Lemma inverse_lookup_canonical h z n x :
  ring_ok h z ->
  Zn._variables z = utils.createIncreasingArray 0 (n - 1) ->
  Z.of_nat (Zn._n z) = n -> 0 < x < n ->
  (Z.gcd x n = 1 ->
   exists y,
     Zn.findInverseVariable z (JNum x) h = (Ok (JNum y), h) /\
     0 <= y < n /\ (x * y) mod n = 1 /\
     forall y', 0 <= y' < n -> (x * y') mod n = 1 -> y' = y) /\
  (Z.gcd x n <> 1 ->
   Zn.findInverseVariable z (JNum x) h = (Ok JUndefined, h)).
Proof.
  intros Hok Hv Hn Hx.
  assert (Hin : x ∈ Zn._variables z).
  { rewrite Hv. apply elem_of_createIncreasingArray. lia. }
  assert (Hidx : indexOf (Zn._variables z) (JNum x) = Z.of_nat (Z.to_nat x)).
  { rewrite Hv, indexOf_increasing by lia. lia. }
  assert (Hlook : forall (j : nat) y, Zn._variables z !! j = Some y ->
            y = Z.of_nat j /\ Z.of_nat j < n).
  { intros j y Hj. rewrite Hv in Hj.
    apply lookup_lt_Some in Hj as Hlt.
    rewrite createIncreasingArray_length in Hlt.
    rewrite createIncreasingArray_lookup in Hj by lia.
    injection Hj as <-. lia. }
  assert (Hx0 : x <> 0) by lia.
  split.
  - intros Hg.
    destruct (findInverseVariable_index h z x _ Hok Hx0 Hin Hidx)
      as [[_ Hnone]|(j & y & Ey & Hy & Hm & _)];
      rewrite Hn, Z2Nat.id in * by lia.
    { exfalso.
      destruct (proj2 (unit_index_iff n x ltac:(lia) ltac:(lia)))
        as (j & Hj & Hm); [|by destruct (Hnone j Hj)].
      split; [|done]. destruct (Z.eq_dec n 1) as [->|]; lia. }
    apply Hlook in Hy as [-> Hjn].
    exists (Z.of_nat j). split_and!; try done; [lia|].
    intros y' Hy' Hm'.
    assert (Hinj : (x * (y' - Z.of_nat j)) mod n = 0).
    { rewrite Z.mul_sub_distr_l, Zminus_mod, Hm, Hm'. done. }
    apply Z.mod_divide in Hinj; [|lia].
    apply Z.gauss in Hinj; [|by rewrite Z.gcd_comm].
    destruct Hinj as [q Hq].
    assert (q = 0) by nia. lia.
  - intros Hg.
    destruct (findInverseVariable_index h z x _ Hok Hx0 Hin Hidx)
      as [[Eu _]|(j & y & _ & Hy & Hm & _)]; [done|].
    rewrite Hn, Z2Nat.id in Hm by lia.
    exfalso. apply Hg.
    apply (unit_index_iff n x ltac:(lia) ltac:(lia)).
    exists (Z.of_nat j). split; [|done].
    apply Hlook in Hy. lia.
Qed.

(** X11. In [createFromN(n)], where every variable is its own position,
    [findInverseVariable(x)] for [0 < x < n] returns the one [y] of
    [0 .. n - 1] with [(x * y) mod n = 1] when [x] is coprime to [n], and
    [undefined] when it is not; [findAdditiveInverseVariable(x)] for
    [0 <= x < n] returns [(n - x) mod n]. *)
Theorem fromCount_inverses n (h0 : heap) z h x :
  Zn.createFromN n h0 = (Ok z, h) -> 0 <= x < n ->
  Zn.findAdditiveInverseVariable z (JNum x) h
  = (Ok (JNum ((n - x) mod n)), h) /\
  (x <> 0 -> Z.gcd x n = 1 ->
   exists y,
     Zn.findInverseVariable z (JNum x) h = (Ok (JNum y), h) /\
     0 <= y < n /\ (x * y) mod n = 1 /\
     forall y', 0 <= y' < n -> (x * y') mod n = 1 -> y' = y) /\
  (x <> 0 -> Z.gcd x n <> 1 ->
   Zn.findInverseVariable z (JNum x) h = (Ok JUndefined, h)).
Proof.
  intros E Hx.
  destruct (createFromN_inv _ _ _ _ E) as (Hn1 & _ & Hv & Hn & Hok).
  split_and!.
  - by apply additive_lookup_canonical.
  - intros Hx0.
    by apply (inverse_lookup_canonical h z n x Hok Hv Hn ltac:(lia)).
  - intros Hx0.
    by apply (inverse_lookup_canonical h z n x Hok Hv Hn ltac:(lia)).
Qed.

Lemma fromCount_inverses_witness :
  exists z h,
    Zn.createFromN 9 ∅ = (Ok z, h) /\
    Zn.findAdditiveInverseVariable z (JNum 4) h = (Ok (JNum 5), h) /\
    Zn.findInverseVariable z (JNum 6) h = (Ok JUndefined, h).
Proof.
  destruct (createFromN_ok 9 ∅ ltac:(lia)) as (z & h & E).
  exists z, h. split; [exact E|].
  destruct (fromCount_inverses 9 ∅ z h 4 E ltac:(lia)) as (Ea & _ & _).
  destruct (fromCount_inverses 9 ∅ z h 6 E ltac:(lia)) as (_ & _ & Eu).
  split; [exact Ea|]. apply Eu; [lia|]. by vm_compute.
Defined.

(** ** The queries over every variable *)

(** [array.map(f)] when every call of [f] returns and leaves the heap as it
    was: the results are related to the elements as [f] relates them. *)
Lemma mapM_ok {A B} (f : A -> M B) (P : A -> B -> Prop) (l : list A)
    (h : heap) :
  (forall a, a ∈ l -> exists b, f a h = (Ok b, h) /\ P a b) ->
  exists bs, mapM f l h = (Ok bs, h) /\ Forall2 P l bs.
Proof.
  induction l as [|a t IH]; intros Hf.
  - exists []. split; [done|]. constructor.
  - destruct (Hf a ltac:(left)) as (b & Eb & Hb).
    destruct IH as (bs & Ebs & Hall).
    { intros a' Ha'. apply Hf. by right. }
    exists (b :: bs). split; [|by constructor].
    cbn [mapM]. rewrite (bind_ok _ _ _ _ _ Eb).
    by rewrite (bind_ok _ _ _ _ _ Ebs).
Qed.

Lemma findInverseVariable_returns h z x :
  ring_ok h z -> x <> 0 -> x ∈ Zn._variables z ->
  exists r, Zn.findInverseVariable z (JNum x) h = (Ok r, h).
Proof.
  intros Hok Hx Hin.
  destruct (indexOf_member _ _ Hin) as (k & Hk & _).
  destruct (findInverseVariable_index h z x k Hok Hx Hin Hk)
    as [[E _]|(j & y & E & _)]; eauto.
Qed.

Lemma findAdditiveInverseVariable_returns h z x :
  ring_ok h z -> x ∈ Zn._variables z ->
  exists y, Zn.findAdditiveInverseVariable z (JNum x) h = (Ok (JNum y), h).
Proof.
  intros Hok Hin.
  destruct (indexOf_member _ _ Hin) as (k & Hk & _).
  destruct (findAdditiveInverseVariable_index h z x k Hok Hin Hk)
    as (y & E & _); eauto.
Qed.

(** [array.map(x => ({x, r: g(x)}))] when every call of [g] returns and
    leaves the heap as it was. *)
Lemma mapM_pairs {A B} (g : A -> M B) (l : list A) (h : heap) :
  (forall x, x ∈ l -> exists r, g x h = (Ok r, h)) ->
  exists ps,
    mapM (fun x => let* r := g x in ret (x, r)) l h = (Ok ps, h) /\
    ps.*1 = l /\
    forall x r, (x, r) ∈ ps -> x ∈ l /\ g x h = (Ok r, h).
Proof.
  induction l as [|a t IH]; intros Hg.
  - exists []. split_and!; try done.
    intros x r Hin. by apply elem_of_nil in Hin.
  - destruct (Hg a ltac:(left)) as (b & Eb).
    destruct IH as (ps & Eps & Hfst & Hall).
    { intros x Hx. apply Hg. by right. }
    exists ((a, b) :: ps). split_and!.
    + assert (Eab : (let* r := g a in ret (a, r)) h = (Ok (a, b), h))
        by (by rewrite (bind_ok _ _ _ _ _ Eb)).
      cbn [mapM]. rewrite (bind_ok _ _ _ _ _ Eab).
      by rewrite (bind_ok _ _ _ _ _ Eps).
    + by rewrite fmap_cons, Hfst.
    + intros x r Hin. apply elem_of_cons in Hin as [[= -> ->]|Hin].
      * split; [left|done].
      * destruct (Hall x r Hin). split; [by right|done].
Qed.

(** X12. On a constructed ring, [findAllInverseVariables()] and
    [findAllAdditiveInverseVariables()] return without error and leave the
    heap as it was.  The first returns one pair for each variable other
    than 0, the second one pair for each variable, in the order of the
    sorted array and with repetitions kept; the second component of a pair
    is what the single lookup returns for the first. *)
Theorem findAll_pairs h z :
  ring_ok h z ->
  (exists ps,
     Zn.findAllInverseVariables z h = (Ok ps, h) /\
     ps.*1 = filter (fun x => x <> 0) (Zn._variables z) /\
     forall x r, (x, r) ∈ ps ->
       x <> 0 /\ x ∈ Zn._variables z /\
       Zn.findInverseVariable z (JNum x) h = (Ok r, h)) /\
  (exists qs,
     Zn.findAllAdditiveInverseVariables z h = (Ok qs, h) /\
     qs.*1 = Zn._variables z /\
     forall x r, (x, r) ∈ qs ->
       x ∈ Zn._variables z /\
       exists y, r = JNum y /\
         Zn.findAdditiveInverseVariable z (JNum x) h = (Ok (JNum y), h)).
Proof.
  intros Hok. split.
  - destruct (mapM_pairs (fun x => Zn.findInverseVariable z (JNum x))
                (filter (fun x => x <> 0) (Zn._variables z)) h)
      as (ps & E & Hfst & Hall).
    { intros x Hx. apply list_elem_of_filter in Hx as [Hx0 Hin].
      by apply findInverseVariable_returns. }
    exists ps. split_and!; try done.
    intros x r Hin. destruct (Hall x r Hin) as [Hx Er].
    by apply list_elem_of_filter in Hx as [Hx0 Hxin].
  - destruct (mapM_pairs (fun x => Zn.findAdditiveInverseVariable z (JNum x))
                (Zn._variables z) h) as (qs & E & Hfst & Hall).
    { intros x Hx.
      destruct (findAdditiveInverseVariable_returns h z x Hok Hx) as (y & Ey).
      by exists (JNum y). }
    exists qs. split_and!; try done.
    intros x r Hin. destruct (Hall x r Hin) as [Hx Er].
    split; [done|].
    destruct (findAdditiveInverseVariable_returns h z x Hok Hx) as (y & Ey).
    exists y. rewrite Ey in Er. by injection Er as <-.
Qed.

Lemma findAll_pairs_witness :
  exists z h,
    Zn.createFromN 4 ∅ = (Ok z, h) /\
    Zn.findAllInverseVariables z h
    = (Ok [(1, JNum 1); (2, JUndefined); (3, JNum 3)], h) /\
    Zn.findAllAdditiveInverseVariables z h
    = (Ok [(0, JNum 0); (1, JNum 3); (2, JNum 2); (3, JNum 1)], h).
Proof.
  destruct (createFromN_ok 4 ∅ ltac:(lia)) as (z & h & E).
  exists z, h. split; [exact E|].
  destruct (createFromN_inv _ _ _ _ E) as (_ & _ & _ & _ & Hok).
  destruct (findAll_pairs h z Hok) as [(ps & Eps & _) (qs & Eqs & _)].
  rewrite Eps, Eqs.
  vm_compute in E. injection E as <- <-.
  vm_compute in Eps. vm_compute in Eqs.
  injection Eps as <-. injection Eqs as <-.
  split; reflexivity.
Defined.

(** X13. On a constructed ring, [getAllVariablesData(formatted)] returns
    without error and leaves the heap as it was.  It builds one record for
    each variable, in the order of the sorted array: the additive inverse
    is a number, the one the single lookup returns; the inverse is
    [undefined] for 0, without a lookup, and what the single lookup returns
    for any other variable.  Unformatted, the records are the result;
    formatted, the result is the rendering of the title row followed by one
    row [variable, additiveInverse, inverse] for each record. *)
Theorem getAllVariablesData_records
    (Table : list (list cell) -> string) (title_additive title_inverse : string)
    h z :
  ring_ok h z ->
  exists ds,
    Zn.getAllVariablesData Table title_additive title_inverse z false h
    = (Ok (Zn.SummaryData ds), h) /\
    Zn.getAllVariablesData Table title_additive title_inverse z true h
    = (Ok (Zn.SummaryTable (Table (
         [CStr "Number"; CStr title_additive; CStr title_inverse] ::
         ((fun d => [CVal (JNum (Zn.variable d)); CVal (Zn.additiveInverse d);
                     CVal (Zn.inverse d)]) <$> ds)))), h) /\
    Zn.variable <$> ds = Zn._variables z /\
    forall d, d ∈ ds ->
      (exists y, Zn.additiveInverse d = JNum y /\
         Zn.findAdditiveInverseVariable z (JNum (Zn.variable d)) h
         = (Ok (JNum y), h)) /\
      (Zn.variable d = 0 -> Zn.inverse d = JUndefined) /\
      (Zn.variable d <> 0 ->
         Zn.findInverseVariable z (JNum (Zn.variable d)) h
         = (Ok (Zn.inverse d), h)).
Proof.
  intros Hok.
  set (f := fun variable =>
            let* additiveInverse :=
              Zn.findAdditiveInverseVariable z (JNum variable) in
            let* inverse :=
              (if decide (variable <> 0)
               then Zn.findInverseVariable z (JNum variable)
               else ret JUndefined) in
            ret {| Zn.variable := variable;
                   Zn.additiveInverse := additiveInverse;
                   Zn.inverse := inverse |}).
  assert (Hf : forall x, x ∈ Zn._variables z ->
    exists y r,
      f x h = (Ok {| Zn.variable := x; Zn.additiveInverse := JNum y;
                     Zn.inverse := r |}, h) /\
      Zn.findAdditiveInverseVariable z (JNum x) h = (Ok (JNum y), h) /\
      (x = 0 -> r = JUndefined) /\
      (x <> 0 -> Zn.findInverseVariable z (JNum x) h = (Ok r, h))).
  { intros x Hx.
    destruct (findAdditiveInverseVariable_returns h z x Hok Hx) as (y & Ey).
    unfold f. rewrite (bind_ok _ _ _ _ _ Ey).
    destruct (decide (x <> 0)) as [Hx0|Hx0].
    - destruct (findInverseVariable_returns h z x Hok Hx0 Hx) as (r & Er).
      exists y, r. by rewrite (bind_ok _ _ _ _ _ Er).
    - exists y, JUndefined. rewrite bind_ret. split_and!; try done. }
  destruct (mapM_ok f
    (fun x d =>
       Zn.variable d = x /\
       (exists y, Zn.additiveInverse d = JNum y /\
          Zn.findAdditiveInverseVariable z (JNum x) h = (Ok (JNum y), h)) /\
       (x = 0 -> Zn.inverse d = JUndefined) /\
       (x <> 0 -> Zn.findInverseVariable z (JNum x) h = (Ok (Zn.inverse d), h)))
    (Zn._variables z) h) as (ds & E & Hall).
  { intros x Hx. destruct (Hf x Hx) as (y & r & Ex & Ey & H0 & Hr).
    eexists. split; [exact Ex|]. simpl. split_and!; try done. by exists y. }
  exists ds. unfold Zn.getAllVariablesData. fold f.
  rewrite !(bind_ok _ _ _ _ _ E). split_and!; try done.
  - cbn [negb].
    assert (Hrows : Forall (fun row : list cell => length row = 3%nat)
              ((fun d => [CVal (JNum (Zn.variable d));
                          CVal (Zn.additiveInverse d);
                          CVal (Zn.inverse d)]) <$> ds)).
    { apply Forall_fmap, Forall_true. done. }
    by rewrite (bind_ok _ _ _ _ _
                  (call_Table_ok Table
                     [CStr "Number"; CStr title_additive; CStr title_inverse]
                     _ h ltac:(done) Hrows)).
  - clear E Hf. induction Hall as [|x d l ds' (Hx & _) Hall IH]; [done|].
    by rewrite fmap_cons, Hx, IH.
  - intros d Hd.
    apply list_elem_of_lookup in Hd as (i & Hi).
    destruct (Forall2_lookup_r _ _ _ _ _ Hall Hi) as (x & _ & <- & Hrest).
    exact Hrest.
Qed.

Lemma getAllVariablesData_records_witness :
  exists z h,
    Zn.createFromN 4 ∅ = (Ok z, h) /\
    Zn.getAllVariablesData (fun _ => EmptyString) EmptyString EmptyString
      z false h
    = (Ok (Zn.SummaryData
             [ {| Zn.variable := 0; Zn.additiveInverse := JNum 0;
                  Zn.inverse := JUndefined |};
               {| Zn.variable := 1; Zn.additiveInverse := JNum 3;
                  Zn.inverse := JNum 1 |};
               {| Zn.variable := 2; Zn.additiveInverse := JNum 2;
                  Zn.inverse := JUndefined |};
               {| Zn.variable := 3; Zn.additiveInverse := JNum 1;
                  Zn.inverse := JNum 3 |} ]), h).
Proof.
  destruct (createFromN_ok 4 ∅ ltac:(lia)) as (z & h & E).
  exists z, h. split; [exact E|].
  destruct (createFromN_inv _ _ _ _ E) as (_ & _ & _ & _ & Hok).
  destruct (getAllVariablesData_records (fun _ => EmptyString) EmptyString
              EmptyString h z Hok) as (ds & Eds & _).
  rewrite Eds.
  vm_compute in E. injection E as <- <-.
  vm_compute in Eds. injection Eds as <-.
  reflexivity.
Defined.

(** X14. The five queries of a ring and [isField] never write: whatever the
    ring record and the heap, and whether the call returns or throws, the
    heap after the call is the heap before it. *)
Theorem queries_never_write
    (Table : list (list cell) -> string) (title_additive title_inverse : string)
    z v formatted :
  readonly (Zn.findInverseVariable z v) /\
  readonly (Zn.findAdditiveInverseVariable z v) /\
  readonly (Zn.findAllInverseVariables z) /\
  readonly (Zn.findAllAdditiveInverseVariables z) /\
  readonly (Zn.getAllVariablesData Table title_additive title_inverse z
              formatted) /\
  readonly (Zn.isField z).
Proof.
  split_and!.
  - apply readonly_findInverseVariable.
  - apply readonly_findAdditiveInverseVariable.
  - apply readonly_findAllInverseVariables.
  - apply readonly_findAllAdditiveInverseVariables.
  - apply readonly_getAllVariablesData.
  - apply readonly_ret.
Qed.

(** ** [formatTable] and the formatted reads *)

(** [table.map(row => [...row])] as the renderer reads a table whose rows
    are the arrays [ls]. *)
Lemma read_cells (h : heap) ls (cs : list (list cell)) :
  Forall2 (fun l c => h !! l = Some (OArray c)) ls cs ->
  mapM (fun c => let* r := deref c in array_cells r) (CRef <$> ls) h
  = (Ok cs, h).
Proof.
  induction 1 as [|l c ls cs Hl Hall IH]; [done|].
  rewrite fmap_cons. cbn [mapM].
  assert (E : (let* r := deref (CRef l) in array_cells r) h = (Ok c, h)).
  { cbn [deref]. rewrite bind_ret. by apply array_cells_ok. }
  rewrite (bind_ok _ _ _ _ _ E). by rewrite (bind_ok _ _ _ _ _ IH).
Qed.

Section FormatTableRun.

Variable Table : list (list cell) -> string.
Variable bold : jsval -> string.

(** One round of the loop that adds the header column. *)
Lemma format_inv_step vs m hd rows T h0 (i : nat) h :
  NoDup rows -> m ∉ rows -> hd ∉ rows -> length rows = length T ->
  (1 <= i < 1 + length rows)%nat ->
  format_inv bold vs m hd rows T h0 (i - 1) h ->
  exists h',
    (let* row := array_get m (Z.of_nat i) in
     let* r := deref row in
     array_unshift r (CStr (bold (nth_number vs (Z.of_nat i - 1))))) h
    = (Ok tt, h') /\
    format_inv bold vs m hd rows T h0 (S i - 1) h'.
Proof.
  intros Hnd Hm Hhd Hlen Hi (Hhm & Hhhd & Hrows & Hframe).
  destruct (lookup_lt_is_Some_2 rows (i - 1)) as [r Hr]; [lia|].
  destruct (lookup_lt_is_Some_2 T (i - 1)) as [row Hrow]; [lia|].
  assert (Hget : (CRef hd :: (CRef <$> rows)) !! i = Some (CRef r)).
  { destruct i as [|i]; [lia|]. simpl.
    rewrite list_lookup_fmap. by replace (S i - 1)%nat with i in Hr by lia; rewrite Hr. }
  rewrite (bind_ok _ _ _ _ _ (array_get_ok h m _ i _ Hhm Hget)).
  cbn [deref]. rewrite bind_ret.
  pose proof (Hrows _ _ _ Hr Hrow) as Hhr.
  unfold titled_row in Hhr. rewrite Nat.ltb_irrefl in Hhr.
  unfold array_unshift, bind, load. rewrite Hhr. unfold store.
  eexists. split; [reflexivity|].
  assert (Hrm : r <> m).
  { intros ->. apply Hm. by eapply list_elem_of_lookup_2. }
  assert (Hrhd : r <> hd).
  { intros ->. apply Hhd. by eapply list_elem_of_lookup_2. }
  split_and!.
  - by rewrite lookup_insert_ne.
  - by rewrite lookup_insert_ne.
  - intros j r' row' Hr' Hrow'.
    destruct (decide (j = (i - 1)%nat)) as [->|Hj].
    + rewrite Hr in Hr'. injection Hr' as <-.
      rewrite Hrow in Hrow'. injection Hrow' as <-.
      rewrite lookup_insert_eq. unfold titled_row.
      destruct (Nat.ltb_spec (i - 1) (S i - 1)); [|lia].
      by replace (Z.of_nat (i - 1)) with (Z.of_nat i - 1) by lia.
    + rewrite lookup_insert_ne.
      2: { intros ->. apply Hj. symmetry. by eapply NoDup_lookup. }
      rewrite (Hrows _ _ _ Hr' Hrow'). unfold titled_row.
      destruct (Nat.ltb_spec j (i - 1)), (Nat.ltb_spec j (S i - 1));
        try done; lia.
  - intros l Hlm Hlhd Hl. rewrite lookup_insert_ne; [by apply Hframe|].
    intros <-. apply Hl. by eapply list_elem_of_lookup_2.
Qed.

(** The rows that [formatTable] hands to the renderer have one width
    exactly when the rows of the table have the width of the variables. *)
Lemma formatted_rows_width vs (T : list (list jsval)) :
  length T = length vs ->
  Forall (fun row : list cell => length row = S (length vs))
    (zip_with (fun v row => CStr (bold (JNum v)) :: (CVal <$> row)) vs T) <->
  Forall (fun row : list jsval => length row = length vs) T.
Proof.
  generalize (length vs) at 2 3 as n. intros n.
  revert T. induction vs as [|v vs IH]; intros [|row T] HT; try done.
  cbn [zip_with]. rewrite !Forall_cons. cbn [length].
  rewrite length_fmap. rewrite IH by (simpl in HT; lia).
  split; intros [? ?]; split; try done; lia.
Qed.

(** [formatTable] on a table of numbers with as many rows as there are
    variables: it writes the header row and the header column, and then
    the renderer accepts the table or throws. *)
Lemma formatTable_run vs (h : heap) m rows T :
  vs <> [] -> table_in h m rows T -> length T = length vs ->
  exists hd h',
    Zn.formatTable Table bold (Some m) (Some vs) h
    = (if decide (Forall (fun row => length row = length vs) T)
       then Ok (Table (formatted_rows bold vs T))
       else Throw (Error Zn.msg_table_cells), h') /\
    h !! hd = None /\
    format_inv bold vs m hd rows T h (length vs) h'.
Proof.
  intros Hvs (Hm & Hnd & Hni & Hlen & Hrows) HT.
  destruct vs as [|v0 vt]; [done|]. clear Hvs.
  destruct rows as [|r0 rt]; [simpl in *; lia|].
  unfold Zn.formatTable. unfold bind at 1, load at 1.
  rewrite Hm, fmap_cons. cbv beta iota.
  set (vs := v0 :: vt) in *. set (rows := r0 :: rt) in *.
  set (hd := fresh (dom h)).
  set (hdr := CStr EmptyString :: ((fun item => CStr (bold (JNum item))) <$> vs)).
  assert (Hhd : h !! hd = None) by apply alloc_fresh.
  assert (Hhdrows : hd ∉ rows).
  { intros Hin. apply list_elem_of_lookup in Hin as (j & Hj).
    destruct (lookup_lt_is_Some_2 T j) as [row Hrow].
    { rewrite <- Hlen. by eapply lookup_lt_Some. }
    by rewrite (Hrows _ _ _ Hj Hrow) in Hhd. }
  assert (Hhdm : hd <> m) by (intros E; by rewrite E, Hm in Hhd).
  set (h1 := <[m := OArray (CRef hd :: (CRef <$> rows))]> (<[hd := OArray hdr]> h)).
  assert (Hinv0 : format_inv bold vs m hd rows T h (1 - 1) h1).
  { unfold h1. split_and!.
    - by rewrite lookup_insert_eq.
    - by rewrite lookup_insert_ne, lookup_insert_eq.
    - intros j r row Hr Hrow.
      rewrite !lookup_insert_ne.
      + by rewrite (Hrows _ _ _ Hr Hrow).
      + intros <-. apply Hhdrows. by eapply list_elem_of_lookup_2.
      + intros <-. apply Hni. by eapply list_elem_of_lookup_2.
    - intros l Hlm Hlhd _. by rewrite !lookup_insert_ne. }
  destruct (for_range_inv
              (fun i => format_inv bold vs m hd rows T h (i - 1))
              (fun i =>
                 let* row := array_get m (Z.of_nat i) in
                 let* r := deref row in
                 array_unshift r (CStr (bold (nth_number vs (Z.of_nat i - 1)))))
              1 (length vs) h1 Hinv0)
    as (h2 & Eloop & Hinv).
  { intros i hi Hi Hinvi.
    apply format_inv_step; try done. lia. }
  replace (1 + length vs - 1)%nat with (length vs) in Hinv by lia.
  exists hd, h2. split_and!; [|done|done].
  unfold bind at 1, alloc. fold hd. fold hdr.
  unfold bind at 1, array_unshift at 1, bind at 1, load at 1.
  rewrite lookup_insert_ne by done. rewrite Hm. cbn [store]. fold h1.
  rewrite (bind_ok _ _ _ _ _ Eloop).
  destruct Hinv as (Hm2 & Hhd2 & Hrows2 & _).
  assert (Eread : Zn.read_rows m h2 = (Ok (formatted_rows bold vs T), h2)).
  { unfold Zn.read_rows.
    rewrite (bind_ok _ _ _ _ _ (array_cells_ok _ _ _ Hm2)).
    rewrite <- (fmap_cons CRef hd rows).
    apply read_cells.
    unfold formatted_rows. constructor; [done|].
    apply Forall2_same_length_lookup. split.
    { rewrite length_zip_with. lia. }
    intros j r c Hr Hc.
    apply lookup_zip_with_Some in Hc as (v & row & -> & Hv & Hrow).
    rewrite (Hrows2 _ _ _ Hr Hrow). unfold titled_row.
    apply lookup_lt_Some in Hv as Hlt.
    destruct (Nat.ltb_spec j (length vs)); [|lia].
    unfold nth_number. destruct (Z.ltb_spec (Z.of_nat j) 0); [lia|].
    by rewrite Nat2Z.id, Hv. }
  rewrite (bind_ok _ _ _ _ _ Eread). unfold formatted_rows.
  pose proof (formatted_rows_width vs T HT) as Hw.
  destruct (decide (Forall (fun row => length row = length vs) T)) as [Hall|Hall].
  - apply call_Table_ok; [done|]. cbn [length]. rewrite length_fmap.
    by apply Hw.
  - apply call_Table_ragged; [done|]. cbn [length]. rewrite length_fmap.
    by rewrite Hw.
Qed.

(** X15. [formatTable(table, variables)] throws the [Error] of its first
    check when the table is missing, is no array or is empty, and that of
    its second check when the variables are missing or empty; the heap is
    as it was.  On a table of numbers with one row for each of the [n]
    variables it first changes the table it was given: it puts a new
    header row in front and a header cell in front of each row, so that
    the table has [n + 1] rows and its former entry [(i, j)] is at
    [(i + 1, j + 1)]; no other object of the heap changes.  Then it hands
    the table to the renderer: when every row had [n] entries the result
    is the rendering of the header row followed by each row behind its
    header cell; when a row had another number of entries the renderer
    throws its [Error], and the table stays changed. *)
Theorem formatTable_renders vs (h : heap) m rows T :
  (forall variables,
     Zn.formatTable Table bold None variables h
     = (Throw (Error Zn.msg_table), h)) /\
  (forall tl variables,
     (forall c cs, h !! tl <> Some (OArray (c :: cs))) ->
     Zn.formatTable Table bold (Some tl) variables h
     = (Throw (Error Zn.msg_table), h)) /\
  (forall tl c cs,
     h !! tl = Some (OArray (c :: cs)) ->
     Zn.formatTable Table bold (Some tl) None h
     = (Throw (Error Zn.msg_variables), h) /\
     Zn.formatTable Table bold (Some tl) (Some []) h
     = (Throw (Error Zn.msg_variables), h)) /\
  (vs <> [] -> table_in h m rows T -> length T = length vs ->
   exists hd h',
     (Forall (fun row => length row = length vs) T ->
      Zn.formatTable Table bold (Some m) (Some vs) h
      = (Ok (Table (formatted_rows bold vs T)), h')) /\
     (~ Forall (fun row => length row = length vs) T ->
      Zn.formatTable Table bold (Some m) (Some vs) h
      = (Throw (Error Zn.msg_table_cells), h')) /\
     h !! hd = None /\
     table_rows h' (Some m) = Some (S (length vs)) /\
     (forall i j, table_entry h' (Some m) (S i) (S j)
                  = table_entry h (Some m) i j) /\
     (forall l, l <> m -> l <> hd -> l ∉ rows -> h' !! l = h !! l)).
Proof.
  split_and!.
  - done.
  - intros tl variables Hno. unfold Zn.formatTable, bind, load.
    destruct (h !! tl) as [[[|c cs]|v]|] eqn:E; try done.
    by destruct (Hno c cs).
  - intros tl c cs E. unfold Zn.formatTable, bind, load. by rewrite E.
  - intros Hvs Htab HT.
    destruct (formatTable_run vs h m rows T Hvs Htab HT)
      as (hd & h' & E & Hhd & Hm' & _ & Hrows' & Hframe).
    destruct Htab as (Hm & Hnd & Hni & Hlen & Hrows).
    exists hd, h'. split; [|split; [|split; [|split; [|split]]]]; try done.
    + intros Hall. rewrite E. by destruct (decide _).
    + intros Hall. rewrite E. by destruct (decide _).
    + cbn [table_rows]. rewrite Hm'. cbn [length].
      by rewrite length_fmap, Hlen, HT.
    + intros i j. unfold table_entry. rewrite Hm', Hm.
      change ((CRef hd :: (CRef <$> rows)) !! S i) with ((CRef <$> rows) !! i).
      rewrite list_lookup_fmap.
      destruct (rows !! i) as [r|] eqn:Hr; [|done]. simpl.
      destruct (lookup_lt_is_Some_2 T i) as [row Hrow].
      { rewrite <- Hlen. by eapply lookup_lt_Some. }
      rewrite (Hrows' _ _ _ Hr Hrow), (Hrows _ _ _ Hr Hrow).
      unfold titled_row.
      apply lookup_lt_Some in Hrow as Hlt. rewrite HT in Hlt.
      by destruct (Nat.ltb_spec i (length vs)); [|lia].
Qed.

(** X16. On a constructed ring, the formatted reads [getAdditionTable()]
    and [getMultiplyTable()] return the rendering of the header row
    followed by each row of the cached table behind its header column, the
    entries being [(i + j) % n] and [(i * j) % n] of the positions.  Every
    object of the heap is kept as it was, so the ring is as constructed
    after the read. *)
Theorem formatted_reads z (h : heap) :
  ring_ok h z ->
  (exists h',
     Zn.getAdditionTable Table bold z true h
     = (Ok (Zn.Formatted (Table (formatted_rows bold (Zn._variables z)
              (index_table (sum_idx (Zn._n z)) (Zn._n z))))), h') /\
     h ⊆ h' /\ ring_ok h' z) /\
  (exists h',
     Zn.getMultiplyTable Table bold z true h
     = (Ok (Zn.Formatted (Table (formatted_rows bold (Zn._variables z)
              (index_table (multiply_idx (Zn._n z)) (Zn._n z))))), h') /\
     h ⊆ h' /\ ring_ok h' z).
Proof.
  intros Hok.
  pose proof Hok as (la & lm & rowsA & rowsM & Ht & Hn & Hpos & Hta & Htm).
  assert (Hvs : Zn._variables z <> []).
  { intros E. rewrite E in Hn. simpl in Hn. lia. }
  assert (Hread : forall m rows g,
    table_in h m rows (index_table g (Zn._n z)) ->
    exists h',
      (let* t := cloneDeep (Some m) in
       let* s := Zn.formatTable Table bold t (Some (Zn._variables z)) in
       ret (Zn.Formatted s)) h
      = (Ok (Zn.Formatted (Table (formatted_rows bold (Zn._variables z)
               (index_table g (Zn._n z))))), h') /\
      h ⊆ h' /\ ring_ok h' z).
  { intros m rows g Htab.
    destruct (cloneDeep_table h m rows _ Htab)
      as (t & rows' & h1 & E & Hsub & Hfr & Hfresh & Htab1).
    destruct (formatTable_run (Zn._variables z) h1 t rows' _ Hvs Htab1)
      as (hd & h' & Ef & Hhd & _ & _ & _ & Hframe).
    { unfold index_table. by rewrite length_fmap, length_seq. }
    destruct (decide _) as [_|Hw] in Ef.
    2: { exfalso. apply Hw. unfold index_table. apply Forall_fmap, Forall_true.
         intros i. simpl. by rewrite length_fmap, length_seq. }
    assert (Hsub' : h ⊆ h').
    { apply map_subseteq_spec. intros l o Hl.
      pose proof (lookup_weaken _ _ _ _ Hl Hsub) as Hl1.
      rewrite Hframe; [done| | |].
      - intros ->. by rewrite Hfr in Hl.
      - intros ->. by rewrite Hhd in Hl1.
      - intros Hin. by rewrite (Hfresh _ Hin) in Hl. }
    exists h'. split_and!; [|done|by eapply ring_ok_weaken].
    rewrite (bind_ok _ _ _ _ _ E). by rewrite (bind_ok _ _ _ _ _ Ef). }
  unfold Zn.getAdditionTable, Zn.getMultiplyTable. rewrite Ht.
  cbn [Zn.addition Zn.multiply_]. split; eapply Hread; eassumption.
Qed.

End FormatTableRun.

Lemma formatTable_renders_witness :
  exists h m rows,
    table_in h m rows [[JNum 0]; [JNum 1]] /\
    exists h',
      Zn.formatTable (fun rs => EmptyString) (fun _ => "b") (Some m)
        (Some [0; 1]) h = (Throw (Error Zn.msg_table_cells), h') /\
      table_rows h' (Some m) = Some 3%nat /\
      table_entry h' (Some m) 2 1 = Some (CVal (JNum 1)).
Proof.
  set (h := <[2%nat := OArray [CRef 0%nat; CRef 1%nat]]>
            (<[1%nat := OArray [CVal (JNum 1)]]>
             (<[0%nat := OArray [CVal (JNum 0)]]> (∅ : heap)))).
  assert (Htab : table_in h 2%nat [0%nat; 1%nat] [[JNum 0]; [JNum 1]]).
  { split_and!.
    - reflexivity.
    - apply (bool_decide_unpack _). by vm_compute.
    - apply (bool_decide_unpack _). by vm_compute.
    - reflexivity.
    - intros [|[|k]] r row Hr Hrow; try done;
        injection Hr as <-; injection Hrow as <-; reflexivity. }
  exists h, 2%nat, [0%nat; 1%nat]. split; [exact Htab|].
  destruct (formatTable_renders (fun rs => EmptyString) (fun _ => "b")
              [0; 1] h 2%nat [0%nat; 1%nat]
              [[JNum 0]; [JNum 1]]) as (_ & _ & _ & Hrun).
  destruct (Hrun ltac:(done) Htab eq_refl)
    as (hd & h' & _ & E & _ & Hrows & Hent & _).
  exists h'. split; [|split; [exact Hrows|]].
  - apply E. intros Hall. apply Forall_cons in Hall as [Hw _].
    discriminate Hw.
  - rewrite (Hent 1%nat 0%nat). reflexivity.
Defined.

Lemma formatted_reads_witness :
  exists z h h',
    Zn.createFromN 2 ∅ = (Ok z, h) /\
    Zn.getAdditionTable
      (fun rs => if (length rs =? 3)%nat then "3 rows" else "other")
      (fun _ => "b") z true h
    = (Ok (Zn.Formatted "3 rows"), h') /\
    h ⊆ h'.
Proof.
  destruct (createFromN_ok 2 ∅ ltac:(lia)) as (z & h & E).
  destruct (createFromN_inv _ _ _ _ E) as (_ & _ & Hv & Hn & Hok).
  destruct (formatted_reads
              (fun rs => if (length rs =? 3)%nat then "3 rows" else "other")
              (fun _ => "b") z h Hok)
    as [(h' & Er & Hsub & _) _].
  exists z, h, h'. split; [exact E|]. split; [|exact Hsub].
  rewrite Er. do 3 f_equal.
  unfold formatted_rows. cbn [length].
  rewrite length_zip_with, Hv.
  assert (Zn._n z = 2%nat) as -> by lia. reflexivity.
Defined.

(** ** Elements of [createFromN(n)] *)

Lemma not_provided_number b : not_provided (JNum b) = false.
Proof. unfold not_provided. simpl. by destruct (b =? 0). Qed.

(** [createFromN(n).getFVar(v)] gives such an element. *)
Lemma getFVar_fromCount n (h0 : heap) z h1 v :
  Zn.createFromN n h0 = (Ok z, h1) -> is_nullish v = false ->
  exists l h,
    Zn.getFVar z v h1 = (Ok (bound z l), h) /\
    h1 !! l = None /\
    h = <[l := OFVar v]> h1 /\
    fromCount_element n z l v h.
Proof.
  intros E Hv.
  destruct (createFromN_inv _ _ _ _ E) as (Hn1 & _ & Hvars & Hn & Hok).
  exists (fresh (dom h1)), (<[fresh (dom h1) := OFVar v]> h1).
  split_and!; try done.
  - unfold Zn.getFVar. by rewrite FVar_new_ok.
  - apply alloc_fresh.
  - split_and!; try done.
    + apply ring_ok_insert_other; [done|]. intros cs. by rewrite alloc_fresh.
    + by rewrite lookup_insert_eq.
Qed.

Lemma fromCount_element_update n z l v v' h :
  fromCount_element n z l v h ->
  fromCount_element n z l v' (<[l := OFVar v']> h).
Proof.
  intros (Hok & Hv & Hn & Hl). split_and!; try done.
  - apply ring_ok_insert_other; [done|]. intros cs. by rewrite Hl.
  - by rewrite lookup_insert_eq.
Qed.

Lemma fromCount_element_pos n z l v h :
  fromCount_element n z l v h -> 0 < n /\ (0 < Zn._n z)%nat.
Proof.
  intros ((? & ? & ? & ? & _ & _ & Hpos & _) & _ & Hn & _). lia.
Qed.

(** X17. Addition and subtraction on an element of [createFromN(n)], for a
    value [v] and an operand [b] of [0 .. n - 1]: [sum(b)] sets the value
    to [(v + b) mod n] and [subtract(b)] to [(v - b) mod n], both return
    the element, and [sum(b).subtract(b)] leaves the value, and the whole
    heap, as they were. *)
Theorem FVar_sum_subtract_fromCount n z l v b (h : heap) :
  fromCount_element n z l (JNum v) h -> 0 <= v < n -> 0 <= b < n ->
  FVar.sum (bound z l) (JNum b) h
  = (Ok (bound z l), <[l := OFVar (JNum ((v + b) mod n))]> h) /\
  FVar.subtract (bound z l) (JNum b) h
  = (Ok (bound z l), <[l := OFVar (JNum ((v - b) mod n))]> h) /\
  (let* e := FVar.sum (bound z l) (JNum b) in
   let* e := FVar.subtract e (JNum b) in
   FVar.value e) h = (Ok (JNum v), h).
Proof.
  intros He Hv Hb.
  assert (Hsum : forall w h', fromCount_element n z l (JNum w) h' ->
    0 <= w < n ->
    FVar.sum (bound z l) (JNum b) h'
    = (Ok (bound z l), <[l := OFVar (JNum ((w + b) mod n))]> h')).
  { intros w h' He' Hw.
    destruct (fromCount_element_pos _ _ _ _ _ He') as [Hn0 Hpos].
    destruct He' as (Hok & Hvars & Hn & Hl).
    unfold bound.
    rewrite (FVar_sum_run z l h' (JNum w) (JNum b) Hl (not_provided_number b)).
    rewrite sum_numbers by done. rewrite Hn.
    by rewrite Z.rem_mod_nonneg by lia. }
  assert (Hsub : forall w h', fromCount_element n z l (JNum w) h' ->
    0 <= w < n ->
    FVar.subtract (bound z l) (JNum b) h'
    = (Ok (bound z l), <[l := OFVar (JNum ((w - b) mod n))]> h')).
  { intros w h' He' Hw.
    destruct (fromCount_element_pos _ _ _ _ _ He') as [Hn0 Hpos].
    destruct He' as (Hok & Hvars & Hn & Hl).
    unfold bound.
    rewrite (FVar_subtract_run z l h' (JNum w) (JNum b) Hl (not_provided_number b)).
    rewrite (additive_lookup_canonical h' z n b Hok Hvars Hn Hb). cbn [fst].
    rewrite sum_numbers by done. rewrite Hn.
    pose proof (Z.mod_pos_bound (n - b) n ltac:(lia)).
    rewrite Z.rem_mod_nonneg by lia.
    rewrite Z.add_mod_idemp_r by lia.
    replace (w + (n - b)) with (w - b + 1 * n) by lia.
    by rewrite Z.mod_add by lia. }
  split_and!; [by apply Hsum|by apply Hsub|].
  rewrite (bind_ok _ _ _ _ _ (Hsum v h He Hv)).
  pose proof (Z.mod_pos_bound (v + b) n ltac:(lia)) as Hvb.
  rewrite (bind_ok _ _ _ _ _
             (Hsub _ _ (fromCount_element_update n z l _ _ h He) Hvb)).
  rewrite insert_insert_eq.
  assert (((v + b) mod n - b) mod n = v) as ->.
  { rewrite Zminus_mod_idemp_l. replace (v + b - b) with v by lia.
    by apply Z.mod_small. }
  destruct He as (_ & _ & _ & Hl). rewrite (insert_id h l _ Hl).
  unfold FVar.value. by apply get_value_ok.
Qed.

Lemma FVar_sum_subtract_fromCount_witness :
  exists z l h,
    fromCount_element 7 z l (JNum 5) h /\
    FVar.sum (bound z l) (JNum 5) h
    = (Ok (bound z l), <[l := OFVar (JNum 3)]> h) /\
    FVar.subtract (bound z l) (JNum 6) h
    = (Ok (bound z l), <[l := OFVar (JNum 6)]> h).
Proof.
  destruct (createFromN_ok 7 ∅ ltac:(lia)) as (z & h1 & E).
  destruct (getFVar_fromCount 7 ∅ z h1 (JNum 5) E eq_refl)
    as (l & h & _ & _ & _ & He).
  exists z, l, h. split; [exact He|].
  destruct (FVar_sum_subtract_fromCount 7 z l 5 5 h He ltac:(lia) ltac:(lia))
    as (Es & _ & _).
  destruct (FVar_sum_subtract_fromCount 7 z l 5 6 h He ltac:(lia) ltac:(lia))
    as (_ & Eb & _).
  exact (conj Es Eb).
Defined.

(** X18. Multiplication and division on an element of [createFromN(n)],
    for a value [v] of [0 .. n - 1] and an operand [b] of [1 .. n - 1]
    that is coprime to [n]: [multiply(b)] sets the value to
    [(v * b) mod n], [divide(b)] sets it to the one [w] of [0 .. n - 1]
    with [(w * b) mod n = v], both return the element, and
    [multiply(b).divide(b)] leaves the value, and the whole heap, as they
    were. *)
Theorem FVar_multiply_divide_fromCount n z l v b (h : heap) :
  fromCount_element n z l (JNum v) h ->
  0 <= v < n -> 0 < b < n -> Z.gcd b n = 1 ->
  FVar.multiply (bound z l) (JNum b) h
  = (Ok (bound z l), <[l := OFVar (JNum ((v * b) mod n))]> h) /\
  (exists w,
     FVar.divide (bound z l) (JNum b) h
     = (Ok (bound z l), <[l := OFVar (JNum w)]> h) /\
     0 <= w < n /\ (w * b) mod n = v /\
     forall w', 0 <= w' < n -> (w' * b) mod n = v -> w' = w) /\
  (let* e := FVar.multiply (bound z l) (JNum b) in
   let* e := FVar.divide e (JNum b) in
   FVar.value e) h = (Ok (JNum v), h).
Proof.
  intros He Hv Hb Hg.
  destruct (fromCount_element_pos _ _ _ _ _ He) as [Hn0 Hpos].
  assert (Hmul : forall w h', fromCount_element n z l (JNum w) h' ->
    0 <= w < n ->
    FVar.multiply (bound z l) (JNum b) h'
    = (Ok (bound z l), <[l := OFVar (JNum ((w * b) mod n))]> h')).
  { intros w h' (Hok & Hvars & Hn & Hl) Hw. unfold bound.
    rewrite (FVar_multiply_run z l h' (JNum w) (JNum b) Hl
               (not_provided_number b)).
    rewrite multiply_numbers by done. rewrite Hn.
    by rewrite Z.rem_mod_nonneg by nia. }
  assert (Hguard : not_provided (JNum b) || strict_eq (JNum b) (JNum 0) = false).
  { rewrite not_provided_number. simpl. by destruct (Z.eqb_spec b 0); [lia|]. }
  assert (Hdiv : forall w h', fromCount_element n z l (JNum w) h' ->
    0 <= w < n ->
    exists y,
      0 <= y < n /\ (b * y) mod n = 1 /\
      FVar.divide (bound z l) (JNum b) h'
      = (Ok (bound z l), <[l := OFVar (JNum ((w * y) mod n))]> h')).
  { intros w h' (Hok & Hvars & Hn & Hl) Hw. unfold bound.
    destruct (inverse_lookup_canonical h' z n b Hok Hvars Hn Hb) as [Hdef _].
    destruct (Hdef Hg) as (y & Ey & Hy & Hby & _).
    exists y. split; [done|]. split; [done|].
    rewrite (FVar_divide_run z l h' (JNum w) (JNum b) Hl Hguard).
    rewrite Ey. cbn [fst].
    rewrite multiply_numbers by done. rewrite Hn.
    by rewrite Z.rem_mod_nonneg by nia. }
  assert (Hcancel : forall w y, (b * y) mod n = 1 -> 0 <= w < n ->
            (w * b * y) mod n = w).
  { intros w y Hby Hw.
    rewrite <- Z.mul_assoc, <- Z.mul_mod_idemp_r, Hby by lia.
    rewrite Z.mul_1_r. by apply Z.mod_small. }
  split_and!.
  - by apply Hmul.
  - destruct (Hdiv v h He Hv) as (y & Hy & Hby & Ed).
    exists ((v * y) mod n). split; [done|]. split; [|split].
    + apply Z.mod_pos_bound. lia.
    + rewrite Z.mul_mod_idemp_l by lia.
      replace (v * y * b) with (v * b * y) by lia. by apply Hcancel.
    + intros w' Hw' Hw'b. rewrite <- Hw'b.
      rewrite Z.mul_mod_idemp_l by lia. symmetry. by apply Hcancel.
  - rewrite (bind_ok _ _ _ _ _ (Hmul v h He Hv)).
    pose proof (Z.mod_pos_bound (v * b) n ltac:(lia)) as Hvb.
    destruct (Hdiv _ _ (fromCount_element_update n z l _
                          (JNum ((v * b) mod n)) h He) Hvb)
      as (y & Hy & Hby & Ed).
    rewrite (bind_ok _ _ _ _ _ Ed).
    rewrite insert_insert_eq.
    rewrite Z.mul_mod_idemp_l by lia. rewrite (Hcancel v y Hby Hv).
    destruct He as (_ & _ & _ & Hl). rewrite (insert_id h l _ Hl).
    unfold FVar.value. by apply get_value_ok.
Qed.

Lemma FVar_multiply_divide_fromCount_witness :
  exists z l h,
    fromCount_element 5 z l (JNum 2) h /\
    FVar.divide (bound z l) (JNum 3) h
    = (Ok (bound z l), <[l := OFVar (JNum 4)]> h).
Proof.
  destruct (createFromN_ok 5 ∅ ltac:(lia)) as (z & h1 & E).
  destruct (getFVar_fromCount 5 ∅ z h1 (JNum 2) E eq_refl)
    as (l & h & _ & _ & _ & He).
  exists z, l, h. split; [exact He|].
  destruct (FVar_multiply_divide_fromCount 5 z l 2 3 h He
              ltac:(lia) ltac:(lia) eq_refl)
    as (_ & (w & Ed & Hw & Hwb & _) & _).
  rewrite Ed. do 4 f_equal.
  assert (w = 0 \/ w = 1 \/ w = 2 \/ w = 3 \/ w = 4) as Hcases by lia.
  destruct Hcases as [->|[->|[->|[->| ->]]]]; try discriminate Hwb.
  reflexivity.
Defined.

(** X19. On an element of [createFromN(n)], whatever its value,
    [divide(b)] by a [b] of [1 .. n - 1] that is not coprime to [n] throws
    nothing: it returns the element with the value [NaN].  An element with
    the value [NaN] keeps it through [sum] and [multiply] by any provided
    operand, through [subtract] by any [b] of [0 .. n - 1] and through
    [divide] by any [b] of [1 .. n - 1]; these calls leave the heap as it
    was. *)
Theorem FVar_NaN_fromCount n z l v b x (h : heap) :
  fromCount_element n z l v h -> 0 < b < n ->
  (Z.gcd b n <> 1 ->
   FVar.divide (bound z l) (JNum b) h
   = (Ok (bound z l), <[l := OFVar JNaN]> h)) /\
  (v = JNaN ->
   (not_provided x = false ->
    FVar.sum (bound z l) x h = (Ok (bound z l), h) /\
    FVar.multiply (bound z l) x h = (Ok (bound z l), h)) /\
   FVar.subtract (bound z l) (JNum b) h = (Ok (bound z l), h) /\
   FVar.subtract (bound z l) (JNum 0) h = (Ok (bound z l), h) /\
   FVar.divide (bound z l) (JNum b) h = (Ok (bound z l), h)).
Proof.
  intros He Hb.
  destruct (fromCount_element_pos _ _ _ _ _ He) as [Hn0 Hpos].
  destruct He as (Hok & Hvars & Hn & Hl).
  assert (Hguard : not_provided (JNum b) || strict_eq (JNum b) (JNum 0) = false).
  { rewrite not_provided_number. simpl. by destruct (Z.eqb_spec b 0); [lia|]. }
  assert (Hrem : forall a, js_rem JNaN a = JNaN) by done.
  assert (HsumN : forall a, Zn.sum z JNaN a = JNaN) by done.
  assert (HmulN : forall a, Zn.multiply z JNaN a = JNaN) by done.
  assert (HmulU : Zn.multiply z v JUndefined = JNaN).
  { unfold Zn.multiply, Zn.static_multiply, js_mul.
    by destruct (to_number v). }
  split.
  - intros Hg. unfold bound.
    rewrite (FVar_divide_run z l h v (JNum b) Hl Hguard).
    destruct (inverse_lookup_canonical h z n b Hok Hvars Hn Hb) as [_ Hund].
    rewrite (Hund Hg). cbn [fst]. by rewrite HmulU.
  - intros ->. unfold bound. split_and!.
    + intros Hx.
      rewrite (FVar_sum_run z l h JNaN x Hl Hx).
      rewrite (FVar_multiply_run z l h JNaN x Hl Hx).
      rewrite HsumN, HmulN. by rewrite (insert_id h l _ Hl).
    + rewrite (FVar_subtract_run z l h JNaN (JNum b) Hl (not_provided_number b)).
      rewrite (additive_lookup_canonical h z n b Hok Hvars Hn ltac:(lia)).
      cbn [fst]. by rewrite HsumN, (insert_id h l _ Hl).
    + rewrite (FVar_subtract_run z l h JNaN (JNum 0) Hl (not_provided_number 0)).
      rewrite (additive_lookup_canonical h z n 0 Hok Hvars Hn ltac:(lia)).
      cbn [fst]. by rewrite HsumN, (insert_id h l _ Hl).
    + rewrite (FVar_divide_run z l h JNaN (JNum b) Hl Hguard).
      destruct (Z.eq_dec (Z.gcd b n) 1) as [Hg|Hg].
      * destruct (inverse_lookup_canonical h z n b Hok Hvars Hn Hb) as [Hdef _].
        destruct (Hdef Hg) as (y & Ey & _). rewrite Ey. cbn [fst].
        by rewrite HmulN, (insert_id h l _ Hl).
      * destruct (inverse_lookup_canonical h z n b Hok Hvars Hn Hb) as [_ Hund].
        rewrite (Hund Hg). cbn [fst].
        by rewrite HmulN, (insert_id h l _ Hl).
Qed.

Lemma FVar_NaN_fromCount_witness :
  exists z l h,
    fromCount_element 6 z l (JNum 5) h /\
    (let* e := FVar.divide (bound z l) (JNum 4) in FVar.value e) h
    = (Ok JNaN, <[l := OFVar JNaN]> h).
Proof.
  destruct (createFromN_ok 6 ∅ ltac:(lia)) as (z & h1 & E).
  destruct (getFVar_fromCount 6 ∅ z h1 (JNum 5) E eq_refl)
    as (l & h & _ & _ & _ & He).
  exists z, l, h. split; [exact He|].
  destruct (FVar_NaN_fromCount 6 z l (JNum 5) 4 JNaN h He ltac:(lia))
    as [Ed _].
  rewrite (bind_ok _ _ _ _ _ (Ed ltac:(by vm_compute))).
  unfold FVar.value. apply get_value_ok. apply lookup_insert_eq.
Defined.

(** X20. The methods of an element bound to a ring write to the element's
    own value only: whatever the ring record, the operand and the heap, and
    whether the call returns or throws, every other object of the heap is
    after [sum], [subtract], [multiply], [divide], [setValueToF0] and
    [setValueToF1] what it was before; reading [value] changes nothing. *)
Theorem FVar_methods_write_self_only z l x (h : heap) l' :
  l' <> l ->
  (FVar.sum (bound z l) x h).2 !! l' = h !! l' /\
  (FVar.subtract (bound z l) x h).2 !! l' = h !! l' /\
  (FVar.multiply (bound z l) x h).2 !! l' = h !! l' /\
  (FVar.divide (bound z l) x h).2 !! l' = h !! l' /\
  (FVar.setValueToF0 (bound z l) h).2 !! l' = h !! l' /\
  (FVar.setValueToF1 (bound z l) h).2 !! l' = h !! l' /\
  (FVar.value (bound z l) h).2 = h.
Proof.
  intros Hne.
  assert (Hget : forall (k : jsval -> M FVar.t),
    (forall v h1, (k v h1).2 !! l' = h1 !! l') ->
    ((let* v := FVar.get_value (bound z l) in k v) h).2 !! l' = h !! l').
  { intros k Hk. unfold bind at 1.
    pose proof (readonly_run _ h (readonly_get_value (bound z l))) as E.
    rewrite E. destruct (FVar.get_value (bound z l) h).1; [apply Hk|done]. }
  assert (Hset : forall r h1,
    ((let* _ := FVar.set_value (bound z l) r in ret (bound z l)) h1).2 !! l'
    = h1 !! l').
  { intros r h1. unfold bind, FVar.set_value, store, ret. simpl.
    by rewrite lookup_insert_ne. }
  assert (Hlook : forall (c : M jsval) (k : jsval -> M FVar.t) h1,
    readonly c -> (forall v h2, (k v h2).2 !! l' = h2 !! l') ->
    ((let* v := c in k v) h1).2 !! l' = h1 !! l').
  { intros c k h1 Hc Hk. unfold bind at 1.
    rewrite (readonly_run _ h1 Hc). destruct (c h1).1; [apply Hk|done]. }
  split_and!.
  - unfold FVar.sum. destruct (not_provided x); [done|].
    apply Hget. intros v h1. cbn [FVar._field bound Zn.field Field.sum].
    rewrite bind_ret. apply Hset.
  - unfold FVar.subtract. destruct (not_provided x); [done|].
    apply Hget. intros v h1.
    cbn [FVar._field bound Zn.field Field.sum Field.getAdditiveInverseVariable].
    apply Hlook; [apply readonly_findAdditiveInverseVariable|].
    intros neg h2. rewrite bind_ret. apply Hset.
  - unfold FVar.multiply. destruct (not_provided x); [done|].
    apply Hget. intros v h1. cbn [FVar._field bound Zn.field Field.multiply].
    rewrite bind_ret. apply Hset.
  - unfold FVar.divide.
    destruct (not_provided x || strict_eq x _); [done|].
    apply Hget. intros v h1.
    cbn [FVar._field bound Zn.field Field.multiply Field.getInverseVariable].
    apply Hlook; [apply readonly_findInverseVariable|].
    intros inv h2. rewrite bind_ret. apply Hset.
  - apply Hset.
  - apply Hset.
  - apply readonly_get_value.
Qed.

Lemma FVar_methods_write_self_only_witness :
  exists z h,
    Zn.createFromN 3 ∅ = (Ok z, h) /\
    (FVar.divide (bound z 100%nat) (JNum 2) h).2 !! 0%nat = h !! 0%nat.
Proof.
  destruct (createFromN_ok 3 ∅ ltac:(lia)) as (z & h & E).
  exists z, h. split; [exact E|].
  destruct (FVar_methods_write_self_only z 100%nat (JNum 2) h 0%nat
              ltac:(lia)) as (_ & _ & _ & Hd & _).
  exact Hd.
Defined.

(** X21. The constructor stores the initial value as it is given: it
    throws the [Error] of its check when the value is [undefined] or [null]
    or the field is missing, the heap being as it was, and for any other
    value, [NaN] and numbers that are no variables of the ring included,
    [getFVar(v)] returns a new object whose [value] is [v].  [clone()] of
    such an element returns another new object with the same value, and a
    method called on the clone leaves the value of the original as it
    was. *)
Theorem FVar_new_clone z v x (h : heap) :
  FVar.new v None h = (Throw (Error FVar.msg_required), h) /\
  (is_nullish v = true ->
   Zn.getFVar z v h = (Throw (Error FVar.msg_required), h)) /\
  (is_nullish v = false ->
   exists l l' h1 h2,
     Zn.getFVar z v h = (Ok (bound z l), h1) /\
     h !! l = None /\ h1 = <[l := OFVar v]> h /\
     FVar.value (bound z l) h1 = (Ok v, h1) /\
     FVar.clone (bound z l) h1 = (Ok (bound z l'), h2) /\
     h1 !! l' = None /\ h2 = <[l' := OFVar v]> h1 /\
     FVar.value (bound z l') h2 = (Ok v, h2) /\
     (not_provided x = false ->
      (let* c := FVar.multiply (bound z l') x in FVar.value c) h2
      = (Ok (Zn.multiply z v x), <[l' := OFVar (Zn.multiply z v x)]> h2) /\
      (let* c := FVar.multiply (bound z l') x in FVar.value (bound z l)) h2
      = (Ok v, <[l' := OFVar (Zn.multiply z v x)]> h2))).
Proof.
  split_and!.
  - done.
  - intros Hv. unfold Zn.getFVar, FVar.new. by rewrite Hv.
  - intros Hv.
    set (l := fresh (dom h)). set (h1 := <[l := OFVar v]> h).
    set (l' := fresh (dom h1)). set (h2 := <[l' := OFVar v]> h1).
    assert (Hl : h !! l = None) by apply alloc_fresh.
    assert (Hl' : h1 !! l' = None) by apply alloc_fresh.
    assert (Hl1 : h1 !! l = Some (OFVar v)) by apply lookup_insert_eq.
    assert (Hne : l <> l') by (intros E; by rewrite <- E, Hl1 in Hl').
    assert (Hl2 : h2 !! l' = Some (OFVar v)) by apply lookup_insert_eq.
    exists l, l', h1, h2. split_and!; try done.
    + unfold Zn.getFVar. by rewrite FVar_new_ok.
    + unfold FVar.value. by apply get_value_ok.
    + unfold FVar.clone.
      rewrite (bind_ok _ _ _ _ _ (get_value_ok (bound z l) h1 v Hl1)).
      cbn [FVar._field bound]. by rewrite FVar_new_ok.
    + unfold FVar.value. by apply get_value_ok.
    + intros Hx. unfold bound.
      rewrite !(bind_ok _ _ _ _ _ (FVar_multiply_run z l' h2 v x Hl2 Hx)).
      unfold FVar.value. split; apply get_value_ok.
      * apply lookup_insert_eq.
      * cbn [FVar.self]. rewrite lookup_insert_ne by done.
        unfold h2. by rewrite lookup_insert_ne.
Qed.

Lemma FVar_new_clone_witness :
  exists z h l h1,
    Zn.createFromN 5 ∅ = (Ok z, h) /\
    Zn.getFVar z (JNum 100) h = (Ok (bound z l), h1) /\
    FVar.value (bound z l) h1 = (Ok (JNum 100), h1).
Proof.
  destruct (createFromN_ok 5 ∅ ltac:(lia)) as (z & h & E).
  destruct (FVar_new_clone z (JNum 100) (JNum 1) h) as (_ & _ & Hnew).
  destruct (Hnew eq_refl) as (l & l' & h1 & h2 & Eg & _ & _ & Ev & _).
  exists z, h, l, h1. exact (conj E (conj Eg Ev)).
Defined.

(** X22. On an element of [createFromN(n)], whatever its value,
    [setValueToF0().sum(a)] and [setValueToF1().multiply(a)] set the value
    to [a] for every [a] of [0 .. n - 1]: the [f0] and [f1] of the ring
    are neutral for its two operations. *)
Theorem FVar_neutral_fromCount n z l v a (h : heap) :
  fromCount_element n z l v h -> 0 <= a < n ->
  (let* e := FVar.setValueToF0 (bound z l) in
   let* e := FVar.sum e (JNum a) in
   FVar.value e) h = (Ok (JNum a), <[l := OFVar (JNum a)]> h) /\
  (let* e := FVar.setValueToF1 (bound z l) in
   let* e := FVar.multiply e (JNum a) in
   FVar.value e) h = (Ok (JNum a), <[l := OFVar (JNum a)]> h).
Proof.
  intros He Ha.
  destruct (fromCount_element_pos _ _ _ _ _ He) as [Hn0 Hpos].
  destruct He as (Hok & Hvars & Hn & Hl).
  assert (Hset : forall c,
    FVar.set_value (bound z l) c h = (Ok tt, <[l := OFVar c]> h)) by done.
  split.
  - unfold FVar.setValueToF0. cbn [FVar._field bound Zn.field Field.f0].
    fold (bound z l).
    assert (E0 : (let* _ := FVar.set_value (bound z l) (JNum 0) in
                  ret (bound z l)) h
                 = (Ok (bound z l), <[l := OFVar (JNum 0)]> h)) by done.
    rewrite (bind_ok _ _ _ _ _ E0). unfold bound.
    rewrite (bind_ok _ _ _ _ _
               (FVar_sum_run z l _ (JNum 0) (JNum a)
                  ltac:(apply lookup_insert_eq) (not_provided_number a))).
    rewrite insert_insert_eq, sum_numbers by done. rewrite Hn.
    rewrite Z.rem_mod_nonneg, Z.add_0_l, Z.mod_small by lia.
    unfold FVar.value. apply get_value_ok. apply lookup_insert_eq.
  - unfold FVar.setValueToF1. cbn [FVar._field bound Zn.field Field.f1].
    fold (bound z l).
    assert (E1 : (let* _ := FVar.set_value (bound z l) (JNum 1) in
                  ret (bound z l)) h
                 = (Ok (bound z l), <[l := OFVar (JNum 1)]> h)) by done.
    rewrite (bind_ok _ _ _ _ _ E1). unfold bound.
    rewrite (bind_ok _ _ _ _ _
               (FVar_multiply_run z l _ (JNum 1) (JNum a)
                  ltac:(apply lookup_insert_eq) (not_provided_number a))).
    rewrite insert_insert_eq, multiply_numbers by done. rewrite Hn.
    rewrite Z.rem_mod_nonneg, Z.mul_1_l, Z.mod_small by lia.
    unfold FVar.value. apply get_value_ok. apply lookup_insert_eq.
Qed.

Lemma FVar_neutral_fromCount_witness :
  exists z l h,
    fromCount_element 4 z l JNaN h /\
    (let* e := FVar.setValueToF1 (bound z l) in
     let* e := FVar.multiply e (JNum 3) in
     FVar.value e) h = (Ok (JNum 3), <[l := OFVar (JNum 3)]> h).
Proof.
  destruct (createFromN_ok 4 ∅ ltac:(lia)) as (z & h1 & E).
  destruct (getFVar_fromCount 4 ∅ z h1 JNaN E eq_refl)
    as (l & h & _ & _ & _ & He).
  exists z, l, h. split; [exact He|].
  destruct (FVar_neutral_fromCount 4 z l JNaN 3 h He ltac:(lia)) as [_ E1].
  exact E1.
Defined.

(** ** The tables are tables of positions *)

(** X23. The tables that the constructor caches depend on the number of
    variables only, not on the variables: in a ring constructed from [n]
    numbers, entry [(i, j)] of the addition table is [(i + j) mod n] and
    that of the multiplication table is [(i * j) mod n], for the positions
    [i] and [j]; so two rings constructed from arrays of the same length
    have the same entries in both tables. *)
Theorem tables_by_position vs ws (h0 h0' : heap) z z' h h' (i j : nat) :
  Zn.new (Some vs) h0 = (Ok z, h) ->
  Zn.new (Some ws) h0' = (Ok z', h') ->
  length vs = length ws ->
  (i < length vs)%nat -> (j < length vs)%nat ->
  let n := Z.of_nat (length vs) in
  table_entry h (Zn.addition (Zn._table z)) i j
  = Some (CVal (JNum ((Z.of_nat i + Z.of_nat j) mod n))) /\
  table_entry h (Zn.multiply_ (Zn._table z)) i j
  = Some (CVal (JNum ((Z.of_nat i * Z.of_nat j) mod n))) /\
  table_entry h' (Zn.addition (Zn._table z')) i j
  = table_entry h (Zn.addition (Zn._table z)) i j /\
  table_entry h' (Zn.multiply_ (Zn._table z')) i j
  = table_entry h (Zn.multiply_ (Zn._table z)) i j.
Proof.
  intros E E' Hlen Hi Hj n.
  assert (Hent : forall us (g0 : heap) y g,
    Zn.new (Some us) g0 = (Ok y, g) -> length us = length vs ->
    table_entry g (Zn.addition (Zn._table y)) i j
    = Some (CVal (JNum ((Z.of_nat i + Z.of_nat j) mod n))) /\
    table_entry g (Zn.multiply_ (Zn._table y)) i j
    = Some (CVal (JNum ((Z.of_nat i * Z.of_nat j) mod n)))).
  { intros us g0 y g Ey Hus.
    destruct (new_inv _ _ _ _ Ey) as (us' & [= <-] & _ & _ & _ & Hny & Hok).
    destruct Hok as (la & lm & rowsA & rowsM & Ht & Hn & Hpos & Hta & Htm).
    rewrite Ht. cbn [Zn.addition Zn.multiply_].
    rewrite (table_in_entry _ _ _ _ _ _ Hta), (table_in_entry _ _ _ _ _ _ Htm).
    unfold entry.
    rewrite !index_table_lookup by lia. simpl.
    rewrite index_row_sum, index_row_multiply by lia. simpl.
    unfold n. by rewrite Hny, Hus. }
  destruct (Hent vs h0 z h E eq_refl) as [Ha Hm].
  destruct (Hent ws h0' z' h' E' ltac:(done)) as [Ha' Hm'].
  split_and!; congruence.
Qed.

Lemma tables_by_position_witness :
  exists z z' h h',
    Zn.new (Some [3; 4; 5; 6; 7; 8; 9]) ∅ = (Ok z, h) /\
    Zn.new (Some [0; 1; 2; 3; 4; 5; 6]) ∅ = (Ok z', h') /\
    table_entry h (Zn.multiply_ (Zn._table z)) 3 5 = Some (CVal (JNum 1)) /\
    table_entry h' (Zn.multiply_ (Zn._table z')) 3 5
    = table_entry h (Zn.multiply_ (Zn._table z)) 3 5.
Proof.
  destruct (new_spec [3; 4; 5; 6; 7; 8; 9] ∅ ltac:(done)) as (z & h & E & _).
  destruct (new_spec [0; 1; 2; 3; 4; 5; 6] ∅ ltac:(done)) as (z' & h' & E' & _).
  exists z, z', h, h'.
  destruct (tables_by_position _ _ _ _ _ _ _ _ 3%nat 5%nat E E' eq_refl
              ltac:(simpl; lia) ltac:(simpl; lia)) as (_ & Hm & _ & Hm').
  exact (conj E (conj E' (conj Hm Hm'))).
Defined.

(** ** The counting functions *)

Section CountingFunctions.

Import descrete_math.

(** The recursion of [factorial] as the source writes it. *)
Lemma factorial_recursion num :
  factorial num =
    if num <? 0 then throws msg_negative
    else if (num =? 0) || (num =? 1) then returns 1
    else if num =? 2 then returns 2
    else and_next (factorial (num - 1)) (fun r => exact (num * r)).
Proof.
  funelim (factorial num).
  all: destruct (Z.ltb_spec num 0); try lia.
  all: destruct (Z.eqb_spec num 0); try lia.
  all: destruct (Z.eqb_spec num 1); try lia.
  all: destruct (Z.eqb_spec num 2); try lia.
  all: done.
Qed.

(** The factorials up to 18! are in the exact range. *)
Lemma product_to_fact n : product_to n = Z.of_nat (fact n).
Proof.
  induction n as [|n IH]; [done|].
  cbn [product_to]. rewrite IH.
  change (fact (S n)) with (S n * fact n)%nat. lia.
Qed.

Lemma fact_pos_Z n : 0 < Z.of_nat (fact n).
Proof. pose proof (lt_O_fact n). lia. Qed.

Lemma fact_exact n : (n <= 18)%nat -> Z.of_nat (fact n) <= 2 ^ 53.
Proof.
  intros Hn. pose proof (fact_le _ _ Hn) as Hle.
  assert (Z.of_nat (fact 18) <= 2 ^ 53).
  { rewrite <- product_to_fact. by vm_compute. }
  lia.
Qed.

Lemma exact_returns z : 0 <= z <= 2 ^ 53 -> exact z = returns z.
Proof.
  intros Hz. unfold exact. destruct (Z.leb_spec (Z.abs z) (2 ^ 53)); [done|lia].
Qed.

Lemma quotient_exact a b c : b <> 0 -> a = c * b -> quotient a b = returns c.
Proof.
  intros Hb ->. unfold quotient.
  destruct (Z.eqb_spec b 0); [done|].
  rewrite Z.mod_mul by done. cbn [negb orb Z.eqb].
  by rewrite Z.div_mul.
Qed.

Lemma factorial_of_nat (n : nat) :
  (n <= 18)%nat -> factorial (Z.of_nat n) = returns (Z.of_nat (fact n)).
Proof.
  induction n as [|n IH]; intros Hn; [done|].
  rewrite factorial_recursion.
  destruct (Z.ltb_spec (Z.of_nat (S n)) 0); [lia|].
  destruct (Z.eqb_spec (Z.of_nat (S n)) 0); [lia|].
  destruct (Z.eqb_spec (Z.of_nat (S n)) 1) as [E1|E1].
  { assert (n = 0%nat) as -> by lia. done. }
  destruct (Z.eqb_spec (Z.of_nat (S n)) 2) as [E2|E2].
  { assert (n = 1%nat) as -> by lia. done. }
  cbn [orb]. replace (Z.of_nat (S n) - 1) with (Z.of_nat n) by lia.
  rewrite IH by lia. cbn [and_next returns].
  replace (Z.of_nat (S n) * Z.of_nat (fact n)) with (Z.of_nat (fact (S n))).
  2: { change (fact (S n)) with (S n * fact n)%nat. lia. }
  apply exact_returns.
  pose proof (fact_pos_Z (S n)). pose proof (fact_exact (S n) Hn). lia.
Qed.

Lemma factorial_nonneg num :
  0 <= num <= 18 -> factorial num = returns (Z.of_nat (fact (Z.to_nat num))).
Proof.
  intros Hn. rewrite <- (Z2Nat.id num) at 1 by lia.
  apply factorial_of_nat. lia.
Qed.

Lemma factorial_negative num :
  num < 0 -> factorial num = throws msg_negative.
Proof.
  intros Hn. rewrite factorial_recursion.
  by destruct (Z.ltb_spec num 0); [|lia].
Qed.

(** X24. [factorial(num)] throws its [Error] for every negative integer.
    For [0 <= num <= 18], where every product of the recursion is below
    2^53 and is computed without rounding, it returns the factorial of
    [num], the special cases 0, 1 and 2 of the source included; the result
    is at least 1, and below 18 [factorial(num + 1)] is
    [(num + 1) * factorial(num)]. *)
Theorem factorial_spec num :
  (num < 0 -> factorial num = throws msg_negative) /\
  (0 <= num <= 18 ->
   factorial num = returns (Z.of_nat (fact (Z.to_nat num))) /\
   1 <= Z.of_nat (fact (Z.to_nat num)) <= 2 ^ 53 /\
   (num < 18 ->
    factorial (num + 1)
    = returns ((num + 1) * Z.of_nat (fact (Z.to_nat num))))).
Proof.
  split; [apply factorial_negative|].
  intros Hn. split; [|split].
  - by apply factorial_nonneg.
  - pose proof (fact_pos_Z (Z.to_nat num)).
    pose proof (fact_exact (Z.to_nat num) ltac:(lia)). lia.
  - intros Hlt. rewrite factorial_nonneg by lia. f_equal. f_equal.
    replace (Z.to_nat (num + 1)) with (S (Z.to_nat num)) by lia.
    change (fact (S (Z.to_nat num)))
      with (S (Z.to_nat num) * fact (Z.to_nat num))%nat. lia.
Qed.

Lemma factorial_spec_witness :
  factorial 5 = returns 120 /\ factorial (4 + 1) = returns ((4 + 1) * 24).
Proof.
  destruct (factorial_spec 5) as [_ H5].
  destruct (factorial_spec 4) as [_ H4].
  destruct (H5 ltac:(lia)) as (E5 & _).
  destruct (H4 ltac:(lia)) as (_ & _ & E4).
  split; [exact E5|exact (E4 ltac:(lia))].
Defined.

(** ** Binomial coefficients *)

Lemma choose_gt n k : (n < k)%nat -> choose n k = 0%nat.
Proof.
  revert k. induction n as [|n IH]; intros [|k] Hk; try lia; [done|].
  cbn [choose]. rewrite !IH by lia. done.
Qed.

Lemma choose_fact_add k m :
  (choose (k + m) k * fact k * fact m = fact (k + m))%nat.
Proof.
  remember (k + m)%nat as n eqn:Hn. revert k m Hn.
  induction n as [|n IH]; intros k m Hn.
  - assert (k = 0%nat) as -> by lia. assert (m = 0%nat) as -> by lia. done.
  - destruct k as [|k].
    + simpl in Hn. subst m. destruct n; simpl; lia.
    + cbn [choose]. destruct m as [|m].
      * rewrite (choose_gt n (S k)) by lia.
        pose proof (IH k 0%nat ltac:(lia)) as IH1.
        change (fact (S k)) with (S k * fact k)%nat.
        change (fact (S n)) with (S n * fact n)%nat.
        assert (n = k) as -> by lia. simpl in IH1 |- *. nia.
      * pose proof (IH k (S m) ltac:(lia)) as IH1.
        pose proof (IH (S k) m ltac:(lia)) as IH2.
        change (fact (S k)) with (S k * fact k)%nat in *.
        change (fact (S m)) with (S m * fact m)%nat in *.
        change (fact (S n)) with (S n * fact n)%nat.
        assert (S n = S k + S m)%nat as Hs by lia.
        nia.
Qed.

Lemma choose_fact n k :
  (k <= n)%nat -> (choose n k * fact k * fact (n - k) = fact n)%nat.
Proof.
  intros Hk. pose proof (choose_fact_add k (n - k)) as H.
  by replace (k + (n - k))%nat with n in H by lia.
Qed.

Lemma choose_pos n k : (k <= n)%nat -> (0 < choose n k)%nat.
Proof.
  intros Hk. pose proof (choose_fact n k Hk). pose proof (lt_O_fact n).
  destruct (choose n k); [simpl in *; lia|lia].
Qed.

Lemma choose_sym n k : (k <= n)%nat -> choose n k = choose n (n - k).
Proof.
  intros Hk. pose proof (choose_fact n k Hk) as H1.
  pose proof (choose_fact n (n - k) ltac:(lia)) as H2.
  replace (n - (n - k))%nat with k in H2 by lia.
  pose proof (lt_O_fact k). pose proof (lt_O_fact (n - k)).
  apply (Nat.mul_cancel_r _ _ (fact k * fact (n - k))); lia.
Qed.

(** The product of the two factorials in the divisor of [binom] is a
    divisor of [n!], so it is in the exact range with it. *)
Lemma factorials_divisor n k :
  (k <= n)%nat ->
  Z.of_nat (fact n)
  = Z.of_nat (choose n k) * (Z.of_nat (fact k) * Z.of_nat (fact (n - k))) /\
  0 < Z.of_nat (fact k) * Z.of_nat (fact (n - k)) <= Z.of_nat (fact n).
Proof.
  intros Hk. pose proof (choose_fact n k Hk) as Hc.
  pose proof (choose_pos n k Hk).
  pose proof (fact_pos_Z k). pose proof (fact_pos_Z (n - k)).
  split; [nia|]. split; [nia|]. nia.
Qed.

Lemma binom_choose (n k : nat) :
  (k <= n)%nat -> (n <= 18)%nat ->
  binom (Some (Z.of_nat n)) (Some (Z.of_nat k))
  = returns (Z.of_nat (choose n k)).
Proof.
  intros Hk Hn. unfold binom.
  rewrite !factorial_of_nat by lia. cbn [and_next returns].
  replace (Z.of_nat n - Z.of_nat k) with (Z.of_nat (n - k)) by lia.
  rewrite factorial_of_nat by lia. cbn [and_next returns].
  destruct (factorials_divisor n k Hk) as [Hdiv Hle].
  rewrite exact_returns.
  2: { pose proof (fact_exact n Hn). lia. }
  cbn [and_next returns]. apply quotient_exact; [lia|done].
Qed.

(** X25. [binom(n, k)] throws the [Error] of its check when an argument is
    [undefined], and the [Error] of [factorial] when [n] is negative, when
    [k] is negative and when [k] is more than [n]; the calls of
    [factorial] are made in the order [n], [k], [n - k], each on a number
    up to 18.  For [0 <= k <= n <= 18], where every factorial and the
    product in the divisor are computed without rounding, the quotient is
    an integer, the binomial coefficient of the rule of Pascal, and
    [binom(n, k)] is [binom(n, n - k)]. *)
Theorem binom_spec (n k : Z) :
  binom None (Some k) = throws msg_n_k /\
  binom (Some n) None = throws msg_n_k /\
  (n < 0 -> binom (Some n) (Some k) = throws msg_negative) /\
  (0 <= n <= 18 -> k < 0 \/ n < k <= 18 ->
   binom (Some n) (Some k) = throws msg_negative) /\
  (0 <= k <= n -> n <= 18 ->
   binom (Some n) (Some k)
   = returns (Z.of_nat (choose (Z.to_nat n) (Z.to_nat k))) /\
   binom (Some n) (Some k) = binom (Some n) (Some (n - k))).
Proof.
  split; [done|]. split; [done|]. split; [|split].
  - intros Hn. unfold binom. by rewrite (factorial_negative n Hn).
  - intros Hn Hk. unfold binom.
    rewrite (factorial_nonneg n Hn). cbn [and_next returns].
    destruct Hk as [Hk|Hk].
    { by rewrite (factorial_negative k Hk). }
    rewrite (factorial_nonneg k) by lia. cbn [and_next returns].
    by rewrite (factorial_negative (n - k)) by lia.
  - intros Hk Hn.
    assert (Hc : forall j, 0 <= j <= n ->
      binom (Some n) (Some j)
      = returns (Z.of_nat (choose (Z.to_nat n) (Z.to_nat j)))).
    { intros j Hj. rewrite <- (Z2Nat.id n) at 1 by lia.
      rewrite <- (Z2Nat.id j) at 1 by lia. apply binom_choose; lia. }
    split; [by apply Hc|].
    rewrite !Hc by lia.
    replace (Z.to_nat (n - k)) with (Z.to_nat n - Z.to_nat k)%nat by lia.
    by rewrite <- choose_sym by lia.
Qed.

Lemma binom_spec_witness :
  binom (Some 5) (Some 2) = returns 10 /\
  binom (Some 2) (Some 5) = throws msg_negative.
Proof.
  destruct (binom_spec 5 2) as (_ & _ & _ & _ & Hok).
  destruct (binom_spec 2 5) as (_ & _ & _ & Herr & _).
  destruct (Hok ltac:(lia) ltac:(lia)) as [E _].
  split; [exact E|]. apply Herr; lia.
Defined.

(** ** Permutations and multisets *)

Lemma reduce_factorials_ok acc (k : list Z) :
  Forall (fun v => 0 <= v <= 18) k ->
  0 <= acc ->
  acc + foldr (fun v s => Z.of_nat (fact (Z.to_nat v)) + s) 0 k <= 2 ^ 53 ->
  reduce_factorials acc k
  = returns (acc + foldr (fun v s => Z.of_nat (fact (Z.to_nat v)) + s) 0 k).
Proof.
  intros Hk. revert acc. induction Hk as [|v k Hv Hk IH]; intros acc Hacc Hs.
  - simpl. unfold returns. do 2 f_equal. lia.
  - cbn [reduce_factorials foldr] in *. rewrite (factorial_nonneg v Hv).
    cbn [and_next returns].
    pose proof (fact_pos_Z (Z.to_nat v)) as Hf.
    assert (Hrest : 0 <= foldr (fun v s => Z.of_nat (fact (Z.to_nat v)) + s) 0 k).
    { clear. induction k as [|w k IH]; simpl; [lia|].
      pose proof (fact_pos_Z (Z.to_nat w)). lia. }
    rewrite exact_returns by lia. cbn [and_next returns].
    rewrite IH by lia. unfold returns. do 2 f_equal. lia.
Qed.

Lemma sum_factorials_pos (k : list Z) :
  Z.of_nat (length k)
  <= foldr (fun v s => Z.of_nat (fact (Z.to_nat v)) + s) 0 k.
Proof.
  induction k as [|v k IH]; [done|].
  cbn [foldr length]. pose proof (fact_pos_Z (Z.to_nat v)). lia.
Qed.

(** X26. [P(n, ...k)] throws the [Error] of its check when [n] is
    [undefined] and the [Error] of [factorial] when [n] is negative.  For
    [0 <= n <= 18], where the factorials are computed without rounding:
    without [k] it returns [n!]; with one [k] it throws the [Error] of
    [factorial] when [k] is more than [n] and returns the integer
    [n! / (n - k)!], which is [binom(n, k) * k!], when [0 <= k <= n]; with
    two or more numbers [k_i] of [0 .. 18] whose factorials have a sum [s]
    of at most 2^53 that divides [n!], it returns [n! / s]: the divisor is
    the sum of the [k_i!], at least 2, and not their product. *)
Theorem P_spec (n k0 k1 : Z) (ks : list Z) :
  P None (k0 :: ks) = throws msg_n /\
  (n < 0 ->
   P (Some n) [] = throws msg_negative /\
   P (Some n) (k0 :: ks) = throws msg_negative) /\
  (0 <= n <= 18 ->
   P (Some n) [] = returns (Z.of_nat (fact (Z.to_nat n))) /\
   (n < k0 -> P (Some n) [k0] = throws msg_negative) /\
   (0 <= k0 <= n ->
    P (Some n) [k0]
    = returns (Z.of_nat (choose (Z.to_nat n) (Z.to_nat k0)
                         * fact (Z.to_nat k0))) /\
    Z.of_nat (choose (Z.to_nat n) (Z.to_nat k0) * fact (Z.to_nat k0))
    * Z.of_nat (fact (Z.to_nat (n - k0)))
    = Z.of_nat (fact (Z.to_nat n))) /\
   (Forall (fun v => 0 <= v <= 18) (k0 :: k1 :: ks) ->
    let s := foldr (fun v s => Z.of_nat (fact (Z.to_nat v)) + s) 0
               (k0 :: k1 :: ks) in
    s <= 2 ^ 53 ->
    (s | Z.of_nat (fact (Z.to_nat n))) ->
    2 <= s /\
    P (Some n) (k0 :: k1 :: ks)
    = returns (Z.of_nat (fact (Z.to_nat n)) / s))).
Proof.
  split; [done|]. split.
  - intros Hn. unfold P. cbn [length decide]. split.
    + destruct (decide (0%nat = 0%nat)); [|done].
      by rewrite (factorial_negative n Hn).
    + destruct (decide (S (length ks) = 0%nat)); [done|].
      destruct ks; by rewrite (factorial_negative n Hn).
  - intros Hn. split; [|split; [|split]].
    + unfold P. cbn [length]. destruct (decide (0%nat = 0%nat)); [|done].
      rewrite (factorial_nonneg n Hn). cbn [and_next returns].
      rewrite Z.sub_diag. rewrite factorial_nonneg by lia.
      cbn [and_next returns].
      apply quotient_exact; [done|]. simpl. lia.
    + intros Hk. unfold P. cbn [length].
      destruct (decide (1%nat = 0%nat)); [done|].
      rewrite (factorial_nonneg n Hn). cbn [and_next returns].
      by rewrite (factorial_negative (n - k0)) by lia.
    + intros Hk.
      pose proof (choose_fact (Z.to_nat n) (Z.to_nat k0) ltac:(lia)) as Hc.
      assert (Heq : Z.of_nat (choose (Z.to_nat n) (Z.to_nat k0)
                              * fact (Z.to_nat k0))
                    * Z.of_nat (fact (Z.to_nat (n - k0)))
                    = Z.of_nat (fact (Z.to_nat n))).
      { replace (Z.to_nat (n - k0)) with (Z.to_nat n - Z.to_nat k0)%nat by lia.
        rewrite <- Nat2Z.inj_mul. by rewrite Hc. }
      split; [|exact Heq].
      unfold P. cbn [length]. destruct (decide (1%nat = 0%nat)); [done|].
      rewrite (factorial_nonneg n Hn). cbn [and_next returns].
      rewrite (factorial_nonneg (n - k0)) by lia. cbn [and_next returns].
      apply quotient_exact; [|by rewrite Heq].
      pose proof (fact_pos_Z (Z.to_nat (n - k0))). lia.
    + intros Hks s Hs Hdiv.
      pose proof (sum_factorials_pos (k0 :: k1 :: ks)) as Hpos.
      fold s in Hpos. cbn [length] in Hpos.
      split; [lia|].
      unfold P. cbn [length].
      destruct (decide (S (S (length ks)) = 0%nat)); [done|].
      rewrite (factorial_nonneg n Hn). cbn [and_next returns].
      rewrite (reduce_factorials_ok 0 _ Hks ltac:(lia) ltac:(fold s; lia)).
      cbn [and_next returns]. rewrite Z.add_0_l. fold s.
      destruct Hdiv as [q Hq]. rewrite Hq.
      rewrite Z.div_mul by lia.
      apply quotient_exact; [lia|done].
Qed.

Lemma P_spec_witness :
  P (Some 5) [2] = returns 20 /\
  P (Some 5) [2; 1; 1; 1] = returns 24.
Proof.
  destruct (P_spec 5 2 1 [1; 1]) as (_ & _ & Hpos).
  destruct (Hpos ltac:(lia)) as (_ & _ & Hone & Hmany).
  split.
  - exact (proj1 (Hone ltac:(lia))).
  - destruct Hmany as [_ E]; [| | |exact E].
    + repeat constructor; lia.
    + by vm_compute.
    + exists 24. reflexivity.
Defined.

(** X27. [D(n, k)] throws the [Error] of its check when an argument is
    [undefined].  For [n >= 1] and [k >= 0] with [n + k - 1 <= 18] it
    returns the binomial coefficient of [n + k - 1] over [k].  For
    [n <= 0] and [k <= 18] it throws the [Error] of [factorial],
    [D(0, 0)] included. *)
Theorem D_spec (n k : Z) :
  D None (Some k) = throws msg_n_k /\
  D (Some n) None = throws msg_n_k /\
  (1 <= n -> 0 <= k -> n + k - 1 <= 18 ->
   D (Some n) (Some k)
   = returns (Z.of_nat (choose (Z.to_nat (n + k - 1)) (Z.to_nat k)))) /\
  (n <= 0 -> k <= 18 -> D (Some n) (Some k) = throws msg_negative).
Proof.
  split; [done|]. split; [done|]. split.
  - intros Hn Hk Hm. unfold D.
    rewrite <- (Z2Nat.id (n + k - 1)) at 1 by lia.
    rewrite <- (Z2Nat.id k) at 2 by lia. apply binom_choose; lia.
  - intros Hn Hk. unfold D, binom.
    destruct (Z.lt_ge_cases (n + k - 1) 0) as [H1|H1].
    { by rewrite (factorial_negative _ H1). }
    rewrite (factorial_nonneg (n + k - 1)) by lia. cbn [and_next returns].
    rewrite (factorial_nonneg k) by lia. cbn [and_next returns].
    by rewrite (factorial_negative (n + k - 1 - k)) by lia.
Qed.

Lemma D_spec_witness :
  D (Some 3) (Some 2) = returns 6 /\
  D (Some 0) (Some 0) = throws msg_negative.
Proof.
  destruct (D_spec 3 2) as (_ & _ & Hok & _).
  destruct (D_spec 0 0) as (_ & _ & _ & Herr).
  split; [exact (Hok ltac:(lia) ltac:(lia) ltac:(lia))
         |exact (Herr ltac:(lia) ltac:(lia))].
Defined.

(** ** Sums *)





End CountingFunctions.
